(** * A shallow embedding of the arbitrage engine of solana-mev-arbitrage

    The Rust sources embedded here are
    - [src/engine/types.rs]   : [DexType], [PoolEdge], [SwapLeg], [ArbitrageCycle];
    - [src/engine/graph.rs]   : [PriceGraph], [add_edge], [parse_token_amount] and
                                the per-family ingestion functions;
    - [src/engine/detect.rs]  : [CycleDetector::find_negative_cycles] and
                                [reconstruct_cycle];
    - [src/engine/optimize.rs]: [AmountOptimizer];
    - [src/dex/**]            : the fixed-offset pool-layout decoders;
    - [src/discovery/engine.rs]: the discovery engine.

    Conventions of the embedding.
    - A [Pubkey] is its 32 bytes read as a big-endian number ([Z]); equality of
      keys is [Z.eqb].
    - [f64] is Rocq's primitive IEEE-754 binary64 type [float]: every [f64]
      operation of the source is the corresponding primitive operation.
    - [u64]/[usize] values are [Z]/[nat]; [u64] arithmetic wraps modulo 2^64 as
      in a release build ([u64_add], [u64_sub], [u64_mul]).
    - An operation that panics (an out-of-range slice, an [unwrap] on an
      error) yields [None] in the [option] monad. *)

From Stdlib Require Import ZArith Lia Bool String Ascii Floats List Permutation Sorted.
From Stdlib Require Import Reals Lra.
Import ListNotations.
Open Scope Z_scope.

(** ** Machine numbers *)

Definition Pubkey := Z.

Definition u64_modulus : Z := 2 ^ 64.
Definition u64_max : Z := u64_modulus - 1.

(** [a + b], [a - b], [a * b] on [u64] (wrapping). *)
Definition u64_add (a b : Z) : Z := (a + b) mod u64_modulus.
Definition u64_sub (a b : Z) : Z := (a - b) mod u64_modulus.
Definition u64_mul (a b : Z) : Z := (a * b) mod u64_modulus.

(** [u64::saturating_sub]. *)
Definition u64_saturating_sub (a b : Z) : Z := Z.max 0 (a - b).

(** The integer part (rounding toward zero) of a finite binary64 value. *)
Definition sf_trunc (s : bool) (m : positive) (e : Z) : Z :=
  let mag := if (0 <=? e) then Zpos m * 2 ^ e else Zpos m / 2 ^ (- e) in
  if s then - mag else mag.

(** [x as u64]: truncation toward zero, saturating; NaN becomes 0. *)
Definition f64_as_u64 (x : float) : Z :=
  match Prim2SF x with
  | S754_zero _ => 0
  | S754_infinity s => if s then 0 else u64_max
  | S754_nan => 0
  | S754_finite s m e => Z.max 0 (Z.min u64_max (sf_trunc s m e))
  end.

(** [x as i64]: truncation toward zero, saturating; NaN becomes 0. *)
Definition i64_min : Z := - 2 ^ 63.
Definition i64_max : Z := 2 ^ 63 - 1.
Definition f64_as_i64 (x : float) : Z :=
  match Prim2SF x with
  | S754_zero _ => 0
  | S754_infinity s => if s then i64_min else i64_max
  | S754_nan => 0
  | S754_finite s m e => Z.max i64_min (Z.min i64_max (sf_trunc s m e))
  end.

(** [n as f64] for an unsigned integer [n] (rounding to nearest, ties to even). *)
Definition u64_as_f64 (n : Z) : float :=
  SF2Prim (binary_normalize prec emax n 0 false).

(** [f64::max]: a NaN argument is ignored. *)
Definition f64_max (x y : float) : float :=
  if is_nan x then y
  else if is_nan y then x
  else if (x <? y)%float then y else x.

(** [f64::MAX]. *)
Definition f64_MAX : float :=
  Eval vm_compute in SF2Prim (S754_finite false (Z.to_pos (2 ^ 53 - 1)) 971).

(** ** Bytes *)

Definition byte_val (b : Byte.byte) : Z := Z.of_N (Byte.to_N b).

(** [u64::from_le_bytes]. *)
Fixpoint le_value (bs : list Byte.byte) : Z :=
  match bs with
  | [] => 0
  | b :: rest => byte_val b + 256 * le_value rest
  end.

(** [Pubkey::new_from_array]: the 32 bytes as a big-endian number. *)
Definition pubkey_of_bytes (bs : list Byte.byte) : Pubkey :=
  fold_left (fun acc b => acc * 256 + byte_val b) bs 0.

(** [&data[start..end]]: panics unless [start <= end <= data.len()]. *)
Definition slice (data : list Byte.byte) (start stop : nat) : option (list Byte.byte) :=
  if (start <=? stop)%nat && (stop <=? length data)%nat
  then Some (firstn (stop - start) (skipn start data))
  else None.

(** ** Types ([src/engine/types.rs]) *)

Inductive DexType :=
| Pump | RaydiumV4 | RaydiumCp | RaydiumClmm
| MeteoraDlmm | MeteoraDamm | MeteoraDammV2
| Whirlpool | Vertigo | Heaven | Futarchy | Humidifi
| PancakeSwap | Byreal.

Scheme Equality for DexType.

Record PoolEdge := {
  pool_pubkey : Pubkey;
  dex_type : DexType;
  price : float;
  liquidity_usd : float;
  fee_bps : Z;
  inverse_fee_bps : Z;
  token_program : Pubkey;
}.

Record SwapLeg := {
  from_mint : Pubkey;
  to_mint : Pubkey;
  leg_pool_pubkey : Pubkey;
  leg_dex_type : DexType;
  amount_in : Z;
  estimated_amount_out : Z;
}.

Record ArbitrageCycle := {
  legs : list SwapLeg;
  total_profit_bps : Z;
  estimated_profit_lamports : Z;
  total_hops : nat;
}.

(** ** The price graph ([src/engine/graph.rs])

    [DashMap<Pubkey, Vec<PoolEdge>>]: an association list from a source mint to
    its edge list, in iteration order. *)

Definition PriceGraph := list (Pubkey * list PoolEdge).

Fixpoint edges_of (g : PriceGraph) (k : Pubkey) : option (list PoolEdge) :=
  match g with
  | [] => None
  | (k', es) :: rest => if Z.eqb k k' then Some es else edges_of rest k
  end.

(** [self.edges.entry(from_mint).or_insert_with(Vec::new).push(edge)]; the
    destination [to_mint] only appears in a debug log line. *)
Fixpoint add_edge (g : PriceGraph) (from_mint to_mint : Pubkey) (edge : PoolEdge)
  : PriceGraph :=
  match g with
  | [] => [(from_mint, [edge])]
  | (k, es) :: rest =>
      if Z.eqb k from_mint then (k, es ++ [edge]) :: rest
      else (k, es) :: add_edge rest from_mint to_mint edge
  end.

(** [PriceGraph::parse_token_amount]. *)
Definition parse_token_amount (data : list Byte.byte) : option Z :=
  if (length data <? 64)%nat then Some 0
  else match slice data 64 72 with
       | Some amount_bytes => Some (le_value amount_bytes)
       | None => None
       end.

(** ** Pool-layout decoders ([src/dex/**]) *)

(** The result of a [load_checked]: a record, an [anyhow] error, or a panic. *)
Inductive Decoded (A : Type) :=
| DecOk (a : A)
| DecErr (msg : string)
| DecPanic.
Arguments DecOk {A}.
Arguments DecErr {A}.
Arguments DecPanic {A}.

(** [slice_to_pubkey(data, start, end)]: the slice, then [try_into] a 32-byte
    array with [expect]. *)
Definition slice_to_pubkey (data : list Byte.byte) (start stop : nat) : option Pubkey :=
  match slice data start stop with
  | Some bs => if (length bs =? 32)%nat then Some (pubkey_of_bytes bs) else None
  | None => None
  end.

Record SolfiInfo := {
  solfi_base_mint : Pubkey; solfi_quote_mint : Pubkey;
  solfi_base_vault : Pubkey; solfi_quote_vault : Pubkey }.

(** [SolfiInfo::load_checked]: no length test before slicing. *)
Definition SolfiInfo_load_checked (data : list Byte.byte) : Decoded SolfiInfo :=
  match slice_to_pubkey data 2664 2696, slice_to_pubkey data 2696 2728,
        slice_to_pubkey data 2736 2768, slice_to_pubkey data 2768 2800 with
  | Some bm, Some qm, Some bv, Some qv =>
      DecOk {| solfi_base_mint := bm; solfi_quote_mint := qm;
               solfi_base_vault := bv; solfi_quote_vault := qv |}
  | _, _, _, _ => DecPanic
  end.

Record MeteoraDAmmV2Info := {
  damm_base_mint : Pubkey; damm_quote_mint : Pubkey;
  damm_base_vault : Pubkey; damm_quote_vault : Pubkey }.

(** [MeteoraDAmmV2Info::load_checked]: no length test before slicing. *)
Definition MeteoraDAmmV2Info_load_checked (data : list Byte.byte)
  : Decoded MeteoraDAmmV2Info :=
  match slice_to_pubkey data 168 200, slice_to_pubkey data 200 232,
        slice_to_pubkey data 232 264, slice_to_pubkey data 264 296 with
  | Some bm, Some qm, Some bv, Some qv =>
      DecOk {| damm_base_mint := bm; damm_quote_mint := qm;
               damm_base_vault := bv; damm_quote_vault := qv |}
  | _, _, _, _ => DecPanic
  end.

Definition COIN_VAULT_OFFSET : nat := 336.
Definition PC_VAULT_OFFSET : nat := 368.
Definition COIN_MINT_OFFSET : nat := 400.
Definition PC_MINT_OFFSET : nat := 432.

Record RaydiumAmmInfo := {
  amm_coin_mint : Pubkey; amm_pc_mint : Pubkey;
  amm_coin_vault : Pubkey; amm_pc_vault : Pubkey }.

(** [RaydiumAmmInfo::load_checked]. *)
Definition RaydiumAmmInfo_load_checked (data : list Byte.byte) : Decoded RaydiumAmmInfo :=
  if (length data <? PC_MINT_OFFSET + 32)%nat
  then DecErr "Invalid data length for RaydiumAmmInfo"
  else
    match slice_to_pubkey data COIN_VAULT_OFFSET (COIN_VAULT_OFFSET + 32),
          slice_to_pubkey data PC_VAULT_OFFSET (PC_VAULT_OFFSET + 32),
          slice_to_pubkey data COIN_MINT_OFFSET (COIN_MINT_OFFSET + 32),
          slice_to_pubkey data PC_MINT_OFFSET (PC_MINT_OFFSET + 32) with
    | Some cv, Some pv, Some cm, Some pm =>
        DecOk {| amm_coin_mint := cm; amm_pc_mint := pm;
                 amm_coin_vault := cv; amm_pc_vault := pv |}
    | _, _, _, _ => DecPanic
    end.

Definition AMM_CONFIG_OFFSET : nat := 8.
Definition TOKEN_0_VAULT_OFFSET : nat := 72.
Definition TOKEN_1_VAULT_OFFSET : nat := 104.
Definition TOKEN_0_MINT_OFFSET : nat := 168.
Definition TOKEN_1_MINT_OFFSET : nat := 200.
Definition OBSERVATION_KEY_OFFSET : nat := 296.

Record RaydiumCpAmmInfo := {
  cp_token_0_mint : Pubkey; cp_token_1_mint : Pubkey;
  cp_token_0_vault : Pubkey; cp_token_1_vault : Pubkey;
  cp_amm_config : Pubkey; cp_observation_key : Pubkey }.

(** [RaydiumCpAmmInfo::load_checked]. *)
Definition RaydiumCpAmmInfo_load_checked (data : list Byte.byte)
  : Decoded RaydiumCpAmmInfo :=
  if (length data <? OBSERVATION_KEY_OFFSET + 32)%nat
  then DecErr "Invalid data length for RaydiumCpAmmInfo"
  else
    match slice_to_pubkey data TOKEN_0_VAULT_OFFSET (TOKEN_0_VAULT_OFFSET + 32),
          slice_to_pubkey data TOKEN_1_VAULT_OFFSET (TOKEN_1_VAULT_OFFSET + 32),
          slice_to_pubkey data TOKEN_0_MINT_OFFSET (TOKEN_0_MINT_OFFSET + 32),
          slice_to_pubkey data TOKEN_1_MINT_OFFSET (TOKEN_1_MINT_OFFSET + 32),
          slice_to_pubkey data AMM_CONFIG_OFFSET (AMM_CONFIG_OFFSET + 32),
          slice_to_pubkey data OBSERVATION_KEY_OFFSET (OBSERVATION_KEY_OFFSET + 32) with
    | Some v0, Some v1, Some m0, Some m1, Some cfg, Some obs =>
        DecOk {| cp_token_0_mint := m0; cp_token_1_mint := m1;
                 cp_token_0_vault := v0; cp_token_1_vault := v1;
                 cp_amm_config := cfg; cp_observation_key := obs |}
    | _, _, _, _, _, _ => DecPanic
    end.

(** ** Hash maps keyed by [Pubkey]

    A [HashMap<Pubkey, V>] of [detect.rs] as an association list with unique
    keys; [insert] overwrites the value of a present key. *)

Definition KeyMap (V : Type) := list (Pubkey * V).

Fixpoint lookup {V} (m : KeyMap V) (k : Pubkey) : option V :=
  match m with
  | [] => None
  | (k', v) :: rest => if Z.eqb k k' then Some v else lookup rest k
  end.

Fixpoint insert {V} (m : KeyMap V) (k : Pubkey) (v : V) : KeyMap V :=
  match m with
  | [] => [(k, v)]
  | (k', v') :: rest => if Z.eqb k k' then (k', v) :: rest else (k', v') :: insert rest k v
  end.

Definition unwrap_or {A} (o : option A) (d : A) : A :=
  match o with Some a => a | None => d end.

(** ** The cycle detector ([src/engine/detect.rs]) *)

Module Detect.

Definition Distances := KeyMap float.
Definition Predecessors := KeyMap (Pubkey * PoolEdge).

(** The body of the inner loop of the relaxation (lines 31-38): the state is
    [(distances, predecessors, updated)]. *)
Definition relax_edge (from_mint : Pubkey) (st : Distances * Predecessors * bool)
  (edge : PoolEdge) : Distances * Predecessors * bool :=
  let '(distances, predecessors, updated) := st in
  let current_dist := unwrap_or (lookup distances from_mint) f64_MAX in
  let new_dist := (current_dist * price edge)%float in
  if (new_dist <? unwrap_or (lookup distances (pool_pubkey edge)) f64_MAX)%float
  then (insert distances (pool_pubkey edge) new_dist,
        insert predecessors (pool_pubkey edge) (from_mint, edge), true)
  else (distances, predecessors, updated).

(** One round: [for entry in graph.edges.iter() { for edge in entry.value() ... }]. *)
Definition relax_round (g : PriceGraph) (st : Distances * Predecessors * bool)
  : Distances * Predecessors * bool :=
  fold_left (fun st entry => fold_left (relax_edge (fst entry)) (snd entry) st) g st.

(** [for _ in 0..max_hops { let mut updated = false; ...; if !updated { break; } }]. *)
Fixpoint relax_rounds (rounds : nat) (g : PriceGraph) (distances : Distances)
  (predecessors : Predecessors) : Distances * Predecessors :=
  match rounds with
  | O => (distances, predecessors)
  | S rounds' =>
      let '(distances', predecessors', updated) :=
        relax_round g (distances, predecessors, false) in
      if updated then relax_rounds rounds' g distances' predecessors'
      else (distances', predecessors')
  end.

(** The [while let] walk of [reconstruct_cycle] (lines 88-103).  [None] is the
    [return None] of line 101, [Some path] the path at loop exit.  Each
    iteration lengthens [path] by one and the walk returns once its length
    exceeds [max_hops], so [S max_hops] iterations of fuel are never exhausted. *)
Fixpoint walk (fuel : nat) (predecessors : Predecessors) (start : Pubkey)
  (min_hops max_hops : nat) (current : Pubkey) (visited : list Pubkey)
  (path : list (Pubkey * PoolEdge)) : option (list (Pubkey * PoolEdge)) :=
  match fuel with
  | O => Some path
  | S fuel' =>
      match lookup predecessors current with
      | None => Some path
      | Some (prev, edge) =>
          if existsb (Z.eqb current) visited then Some path
          else
            let visited' := current :: visited in
            let path' := path ++ [(prev, edge)] in
            if Z.eqb prev start && (min_hops <=? length path')%nat then Some path'
            else if (max_hops <? length path')%nat then None
            else walk fuel' predecessors start min_hops max_hops prev visited' path'
      end
  end.

(** The product of the leg prices, [total_price *= edge.price] from [1.0]. *)
Definition path_price (path : list (Pubkey * PoolEdge)) : float :=
  fold_left (fun acc pe => (acc * price (snd pe))%float) path 1%float.

Definition leg_of_edge (pe : Pubkey * PoolEdge) : SwapLeg :=
  let edge := snd pe in
  {| from_mint := pool_pubkey edge;
     to_mint := pool_pubkey edge;
     leg_pool_pubkey := pool_pubkey edge;
     leg_dex_type := dex_type edge;
     amount_in := 0;
     estimated_amount_out := 0 |}.

(** Lines 105-131 of [reconstruct_cycle]: the hop bounds, then the cycle. *)
Definition cycle_of_path (min_hops max_hops : nat) (path : list (Pubkey * PoolEdge))
  : option ArbitrageCycle :=
  if (length path <? min_hops)%nat || (max_hops <? length path)%nat then None
  else
    let total_price := path_price path in
    let profit_bps := f64_as_i64 ((total_price - 1) * 10000)%float in
    Some {| legs := map leg_of_edge path;
            total_profit_bps := profit_bps;
            estimated_profit_lamports := 0;
            total_hops := length path |}.

Definition reconstruct_cycle (predecessors : Predecessors) (start end_ : Pubkey)
  (min_hops max_hops : nat) : option ArbitrageCycle :=
  match walk (S max_hops) predecessors start min_hops max_hops end_ [] [] with
  | None => None
  | Some path => cycle_of_path min_hops max_hops path
  end.

(** The body of the final scan (lines 52-68). *)
Definition scan_edge (distances : Distances) (predecessors : Predecessors)
  (min_hops max_hops : nat) (min_profit_bps : Z) (from_mint : Pubkey)
  (cycles : list ArbitrageCycle) (edge : PoolEdge) : list ArbitrageCycle :=
  match lookup distances from_mint with
  | Some start_dist =>
      let new_dist := (start_dist * price edge)%float in
      if (new_dist <? unwrap_or (lookup distances (pool_pubkey edge)) f64_MAX)%float
      then match reconstruct_cycle predecessors from_mint (pool_pubkey edge)
                   min_hops max_hops with
           | Some cycle =>
               if min_profit_bps <? total_profit_bps cycle then cycles ++ [cycle]
               else cycles
           | None => cycles
           end
      else cycles
  | None => cycles
  end.

(** [cycles.sort_by(|a, b| b.total_profit_bps.cmp(&a.total_profit_bps))]: a
    stable sort, descending in [total_profit_bps]. *)
Fixpoint insert_desc (c : ArbitrageCycle) (sorted : list ArbitrageCycle)
  : list ArbitrageCycle :=
  match sorted with
  | [] => [c]
  | c' :: rest =>
      if total_profit_bps c' <? total_profit_bps c then c :: c' :: rest
      else c' :: insert_desc c rest
  end.

Definition sort_by_profit_desc (cycles : list ArbitrageCycle) : list ArbitrageCycle :=
  fold_left (fun sorted c => insert_desc c sorted) cycles [].

(** [CycleDetector::find_negative_cycles]. *)
Definition find_negative_cycles (g : PriceGraph) (start_mint : Pubkey)
  (min_hops max_hops : nat) (min_profit_bps : Z) : list ArbitrageCycle :=
  let '(distances, predecessors) := relax_rounds max_hops g [(start_mint, 1%float)] [] in
  let cycles :=
    fold_left (fun cycles entry =>
                 fold_left (scan_edge distances predecessors min_hops max_hops
                              min_profit_bps (fst entry)) (snd entry) cycles) g [] in
  sort_by_profit_desc cycles.

End Detect.

(** ** The ingestion driver ([src/engine/graph.rs])

    The RPC capability is [get_account : Pubkey -> option Account] ([None]: the
    fetch fails).  A per-family function returns the sequence of [add_edge]
    calls it makes, as [(from_mint, to_mint, edge)] triples; [None] is a panic. *)

Record Account := { owner : Pubkey; data : list Byte.byte }.

(** An [anyhow::Result] that may also panic. *)
Inductive Res (A : Type) := ROk (a : A) | RErr | RPanic.
Arguments ROk {A}.
Arguments RErr {A}.
Arguments RPanic {A}.

Definition AddEdge := (Pubkey * Pubkey * PoolEdge)%type.

(** The records of [MintPoolData] (module [crate::pools], not part of the
    sources), with the fields [graph.rs] reads. *)
Record VaultPool := { vp_pool : Pubkey; vp_token_vault : Pubkey; vp_sol_vault : Pubkey }.
Record MintedPool := { mp_pool : Pubkey; mp_token_mint : Pubkey }.
(** [pool] (or [dao] for futarchy), [token_mint], the token-side vault
    ([token_x_vault], [token_x_token_vault]) and the SOL-side vault. *)
Record XSolPool := {
  xs_pool : Pubkey; xs_token_mint : Pubkey;
  xs_token_x_vault : Pubkey; xs_token_sol_vault : Pubkey }.
Record HeavenPool := { hv_pool : Pubkey; hv_token_mint : Pubkey; hv_base_mint : Pubkey }.

Record MintPoolData := {
  mint : Pubkey;
  pd_token_program : Pubkey;
  raydium_pools : list VaultPool;
  raydium_cp_pools : list VaultPool;
  pump_pools : list VaultPool;
  dlmm_pairs : list MintedPool;
  whirlpool_pools : list MintedPool;
  raydium_clmm_pools : list MintedPool;
  meteora_damm_pools : list XSolPool;
  meteora_damm_v2_pools : list XSolPool;
  vertigo_pools : list XSolPool;
  heaven_pools : list HeavenPool;
  futarchy_pools : list XSolPool;
  humidifi_pools : list XSolPool;
  pancakeswap_pools : list MintedPool;
  byreal_pools : list MintedPool;
}.

(** The decoded states of the families whose decoders are not part of the
    sources ([clmm_info], [whirlpool::state], [dlmm_info], [heaven::info]). *)
Record ClmmPoolState := {
  sqrt_price_x64 : Z; clmm_liquidity : Z; token_mint_0 : Pubkey; token_mint_1 : Pubkey }.
Record WhirlpoolState := {
  wp_sqrt_price : Z; wp_liquidity : Z; token_mint_a : Pubkey; token_mint_b : Pubkey }.
Record DlmmInfo := {
  bin_step : Z; active_id : Z; token_x_mint : Pubkey; token_y_mint : Pubkey }.
Record HeavenPoolState := { reserve_a : Z; reserve_b : Z }.

(** [x as f64] for an [i32]. *)
Definition i32_as_f64 (z : Z) : float :=
  if z <? 0 then (- u64_as_f64 (- z))%float else u64_as_f64 z.

(** [i32::abs], wrapping at [i32::MIN]. *)
Definition i32_abs (z : Z) : Z := if z =? - 2 ^ 31 then z else Z.abs z.

Definition mk_edge (pool : Pubkey) (dex : DexType) (p liq : float) (fee : Z)
  (tp : Pubkey) : PoolEdge :=
  {| pool_pubkey := pool; dex_type := dex; price := p; liquidity_usd := liq;
     fee_bps := fee; inverse_fee_bps := fee; token_program := tp |}.

(** [for pool in pools { ... }] where the body may panic. *)
Fixpoint for_each_pool {P} (body : P -> option (list AddEdge)) (pools : list P)
  : option (list AddEdge) :=
  match pools with
  | [] => Some []
  | p :: rest =>
      match body p with
      | None => None
      | Some calls =>
          match for_each_pool body rest with
          | None => None
          | Some calls' => Some (calls ++ calls')
          end
      end
  end.

Section Ingestion.

Variable get_account : Pubkey -> option Account.
(** [PoolState::load_checked], [Whirlpool::try_deserialize],
    [DlmmInfo::load_checked] and [HeavenPoolState::parse] ([None]: an error). *)
Variable clmm_load_checked : list Byte.byte -> option ClmmPoolState.
Variable whirlpool_try_deserialize : list Byte.byte -> option WhirlpoolState.
Variable dlmm_load_checked : list Byte.byte -> option DlmmInfo.
Variable heaven_parse : list Byte.byte -> option HeavenPoolState.
(** [f64::powi] (its rounding is left to the platform). *)
Variable powi : float -> Z -> float.
Variable pancakeswap_program_id byreal_program_id : Pubkey.

(** [get_token_balance]. *)
Definition get_token_balance (vault : Pubkey) : Res Z :=
  match get_account vault with
  | None => RErr
  | Some account =>
      match parse_token_amount (data account) with
      | Some amount => ROk amount
      | None => RPanic
      end
  end.

(** [.unwrap_or(0)] on a balance. *)
Definition balance_or_zero (r : Res Z) : option Z :=
  match r with ROk a => Some a | RErr => Some 0 | RPanic => None end.

(** [get_amm_price]. *)
Definition get_amm_price (token_vault sol_vault : Pubkey) : Res float :=
  match get_account token_vault, get_account sol_vault with
  | Some token_account, Some sol_account =>
      match parse_token_amount (data token_account) with
      | None => RPanic
      | Some token_amount =>
          match parse_token_amount (data sol_account) with
          | None => RPanic
          | Some sol_amount =>
              if sol_amount =? 0 then RErr
              else ROk (u64_as_f64 token_amount / u64_as_f64 sol_amount)%float
          end
      end
  | _, _ => RErr
  end.

(** [estimate_amm_liquidity]. *)
Definition estimate_amm_liquidity (token_vault sol_vault : Pubkey) (p : float)
  : option float :=
  match balance_or_zero (get_token_balance token_vault) with
  | None => None
  | Some token_amount =>
      match balance_or_zero (get_token_balance sol_vault) with
      | None => None
      | Some sol_amount =>
          Some (u64_as_f64 token_amount * p * 200 + u64_as_f64 sol_amount * 200)%float
      end
  end.

(** [calculate_clmm_price]. *)
Definition calculate_clmm_price (sqrt_price : Z) : float :=
  let sp := (u64_as_f64 sqrt_price / u64_as_f64 (2 ^ 64))%float in
  (sp * sp)%float.

(** [estimate_clmm_liquidity]. *)
Definition estimate_clmm_liquidity (st : ClmmPoolState) : float :=
  (u64_as_f64 (clmm_liquidity st) * calculate_clmm_price (sqrt_price_x64 st) / 1e9 * 200)%float.

Definition process_raydium_pools (pd : MintPoolData) (sol_mint : Pubkey)
  : option (list AddEdge) :=
  for_each_pool (fun pool =>
    match get_amm_price (vp_token_vault pool) (vp_sol_vault pool) with
    | RPanic => None
    | RErr => Some []
    | ROk p =>
        match balance_or_zero (get_token_balance (vp_token_vault pool)) with
        | None => None
        | Some token_liquidity =>
            match balance_or_zero (get_token_balance (vp_sol_vault pool)) with
            | None => None
            | Some sol_liquidity =>
                let liq := (u64_as_f64 sol_liquidity * 200
                            + u64_as_f64 token_liquidity * p * 200)%float in
                Some [(mint pd, sol_mint,
                       mk_edge (vp_pool pool) RaydiumV4 p liq 25 (pd_token_program pd));
                      (sol_mint, mint pd,
                       mk_edge (vp_pool pool) RaydiumV4 (1 / p)%float liq 25 (pd_token_program pd))]
            end
        end
    end) (raydium_pools pd).

(** [process_raydium_cp_pools] and [process_pump_pools]. *)
Definition process_amm_vault_pools (dex : DexType) (fee : Z) (pools : list VaultPool)
  (pd : MintPoolData) (sol_mint : Pubkey) : option (list AddEdge) :=
  for_each_pool (fun pool =>
    match get_amm_price (vp_token_vault pool) (vp_sol_vault pool) with
    | RPanic => None
    | RErr => Some []
    | ROk p =>
        match estimate_amm_liquidity (vp_token_vault pool) (vp_sol_vault pool) p with
        | None => None
        | Some liq =>
            Some [(mint pd, sol_mint, mk_edge (vp_pool pool) dex p liq fee (pd_token_program pd));
                  (sol_mint, mint pd,
                   mk_edge (vp_pool pool) dex (1 / p)%float liq fee (pd_token_program pd))]
        end
    end) pools.

Definition process_raydium_cp_pools (pd : MintPoolData) (sol_mint : Pubkey) :=
  process_amm_vault_pools RaydiumCp 5 (raydium_cp_pools pd) pd sol_mint.
Definition process_pump_pools (pd : MintPoolData) (sol_mint : Pubkey) :=
  process_amm_vault_pools Pump 100 (pump_pools pd) pd sol_mint.

(** [process_meteora_damm_pools], [process_meteora_damm_v2_pools],
    [process_vertigo_pools], [process_futarchy_pools], [process_humidifi_pools]. *)
Definition process_xsol_pools (dex : DexType) (fee : Z) (pools : list XSolPool)
  (pd : MintPoolData) (sol_mint : Pubkey) : option (list AddEdge) :=
  for_each_pool (fun pool =>
    let rx := get_token_balance (xs_token_x_vault pool) in
    let rs := get_token_balance (xs_token_sol_vault pool) in
    match rx, rs with
    | RPanic, _ | _, RPanic => None
    | ROk token_x_balance, ROk sol_balance =>
        if 0 <? sol_balance then
          let p := (u64_as_f64 token_x_balance / u64_as_f64 sol_balance)%float in
          let liq := (u64_as_f64 token_x_balance * p * 200
                      + u64_as_f64 sol_balance * 200)%float in
          Some [(xs_token_mint pool, sol_mint,
                 mk_edge (xs_pool pool) dex p liq fee (pd_token_program pd));
                (sol_mint, xs_token_mint pool,
                 mk_edge (xs_pool pool) dex (1 / p)%float liq fee (pd_token_program pd))]
        else Some []
    | _, _ => Some []
    end) pools.

Definition process_meteora_damm_pools (pd : MintPoolData) (sol_mint : Pubkey) :=
  process_xsol_pools MeteoraDamm 10 (meteora_damm_pools pd) pd sol_mint.
Definition process_meteora_damm_v2_pools (pd : MintPoolData) (sol_mint : Pubkey) :=
  process_xsol_pools MeteoraDammV2 8 (meteora_damm_v2_pools pd) pd sol_mint.
Definition process_vertigo_pools (pd : MintPoolData) (sol_mint : Pubkey) :=
  process_xsol_pools Vertigo 15 (vertigo_pools pd) pd sol_mint.
Definition process_futarchy_pools (pd : MintPoolData) (sol_mint : Pubkey) :=
  process_xsol_pools Futarchy 25 (futarchy_pools pd) pd sol_mint.
Definition process_humidifi_pools (pd : MintPoolData) (sol_mint : Pubkey) :=
  process_xsol_pools Humidifi 12 (humidifi_pools pd) pd sol_mint.

(** The two [add_edge] calls of a concentrated-liquidity pool, oriented by
    [pool.token_mint == mint_0]. *)
Definition clmm_pair_edges (pool : MintedPool) (mint_0 mint_1 : Pubkey) (dex : DexType)
  (fee : Z) (p liq : float) (tp : Pubkey) : list AddEdge :=
  if Z.eqb (mp_token_mint pool) mint_0 then
    [(mp_token_mint pool, mint_1, mk_edge (mp_pool pool) dex p liq fee tp);
     (mint_1, mp_token_mint pool, mk_edge (mp_pool pool) dex (1 / p)%float liq fee tp)]
  else
    [(mp_token_mint pool, mint_0, mk_edge (mp_pool pool) dex (1 / p)%float liq fee tp);
     (mint_0, mp_token_mint pool, mk_edge (mp_pool pool) dex p liq fee tp)].

Definition clmm_state_edges (pool : MintedPool) (dex : DexType) (st : ClmmPoolState)
  (tp : Pubkey) : list AddEdge :=
  clmm_pair_edges pool (token_mint_0 st) (token_mint_1 st) dex 5
    (calculate_clmm_price (sqrt_price_x64 st)) (estimate_clmm_liquidity st) tp.

(** [process_raydium_clmm_pools]: [get_account(..).unwrap()] panics on a failed
    fetch. *)
Definition process_raydium_clmm_pools (pd : MintPoolData) (sol_mint : Pubkey)
  : option (list AddEdge) :=
  for_each_pool (fun pool =>
    match get_account (mp_pool pool) with
    | None => None
    | Some account =>
        match clmm_load_checked (data account) with
        | None => Some []
        | Some st => Some (clmm_state_edges pool RaydiumClmm st (pd_token_program pd))
        end
    end) (raydium_clmm_pools pd).

(** [process_whirlpool_pools]: [get_account(..).unwrap()] panics on a failed
    fetch. *)
Definition process_whirlpool_pools (pd : MintPoolData) (sol_mint : Pubkey)
  : option (list AddEdge) :=
  for_each_pool (fun pool =>
    match get_account (mp_pool pool) with
    | None => None
    | Some account =>
        match whirlpool_try_deserialize (data account) with
        | None => Some []
        | Some wp =>
            let p := calculate_clmm_price (wp_sqrt_price wp) in
            let liq := (u64_as_f64 (wp_liquidity wp) * 200 / 1e9)%float in
            Some (clmm_pair_edges pool (token_mint_a wp) (token_mint_b wp) Whirlpool 2
                    p liq (pd_token_program pd))
        end
    end) (whirlpool_pools pd).

(** [process_pancakeswap_pools] and [process_byreal_pools]: the owner check,
    then the CLMM decoding. *)
Definition process_clmm_fork_pools (dex : DexType) (program_id : Pubkey)
  (pools : list MintedPool) (pd : MintPoolData) (sol_mint : Pubkey)
  : option (list AddEdge) :=
  for_each_pool (fun pool =>
    match get_account (mp_pool pool) with
    | None => Some []
    | Some account =>
        if negb (Z.eqb (owner account) program_id) then Some []
        else match clmm_load_checked (data account) with
             | None => Some []
             | Some st => Some (clmm_state_edges pool dex st (pd_token_program pd))
             end
    end) pools.

Definition process_pancakeswap_pools (pd : MintPoolData) (sol_mint : Pubkey) :=
  process_clmm_fork_pools PancakeSwap pancakeswap_program_id (pancakeswap_pools pd) pd sol_mint.
Definition process_byreal_pools (pd : MintPoolData) (sol_mint : Pubkey) :=
  process_clmm_fork_pools Byreal byreal_program_id (byreal_pools pd) pd sol_mint.

(** [process_dlmm_pools]. *)
Definition process_dlmm_pools (pd : MintPoolData) (sol_mint : Pubkey)
  : option (list AddEdge) :=
  for_each_pool (fun pair =>
    match get_account (mp_pool pair) with
    | None => Some []
    | Some account =>
        match dlmm_load_checked (data account) with
        | None => Some []
        | Some info =>
            let step := (u64_as_f64 (bin_step info) / 10000)%float in
            let p := powi (1 + step)%float (active_id info) in
            let liq := (i32_as_f64 (i32_abs (active_id info)) * 1000)%float in
            let tp := pd_token_program pd in
            let x := token_x_mint info in
            let y := token_y_mint info in
            if Z.eqb (mp_token_mint pair) x then
              Some [(x, y, mk_edge (mp_pool pair) MeteoraDlmm p liq 5 tp);
                    (y, x, mk_edge (mp_pool pair) MeteoraDlmm (1 / p)%float liq 5 tp)]
            else
              Some [(y, x, mk_edge (mp_pool pair) MeteoraDlmm (1 / p)%float liq 5 tp);
                    (x, y, mk_edge (mp_pool pair) MeteoraDlmm p liq 5 tp)]
        end
    end) (dlmm_pairs pd).

(** [process_heaven_pools]. *)
Definition process_heaven_pools (pd : MintPoolData) (sol_mint : Pubkey)
  : option (list AddEdge) :=
  for_each_pool (fun pool =>
    match get_account (hv_pool pool) with
    | None => Some []
    | Some account =>
        match heaven_parse (data account) with
        | None => Some []
        | Some st =>
            if 0 <? reserve_b st then
              let p := (u64_as_f64 (reserve_a st) / u64_as_f64 (reserve_b st))%float in
              let liq := (u64_as_f64 (reserve_a st) * p * 200
                          + u64_as_f64 (reserve_b st) * 200)%float in
              let tp := pd_token_program pd in
              Some [(hv_token_mint pool, hv_base_mint pool,
                     mk_edge (hv_pool pool) Heaven p liq 20 tp);
                    (hv_base_mint pool, hv_token_mint pool,
                     mk_edge (hv_pool pool) Heaven (1 / p)%float liq 20 tp)]
            else Some []
        end
    end) (heaven_pools pd).

(** The [add_edge] calls of [update_from_mint_pool_data], family by family in
    the order of the source. *)
Definition ingestion_calls (pd : MintPoolData) (sol_mint : Pubkey) : option (list AddEdge) :=
  for_each_pool (fun process => process pd sol_mint)
    [process_raydium_pools; process_raydium_cp_pools; process_pump_pools;
     process_dlmm_pools; process_whirlpool_pools; process_raydium_clmm_pools;
     process_meteora_damm_pools; process_meteora_damm_v2_pools; process_vertigo_pools;
     process_heaven_pools; process_futarchy_pools; process_humidifi_pools;
     process_pancakeswap_pools; process_byreal_pools].

Definition apply_add_edges (g : PriceGraph) (calls : list AddEdge) : PriceGraph :=
  fold_left (fun g c => let '(f, t, e) := c in add_edge g f t e) calls g.

(** [PriceGraph::update_from_mint_pool_data]. *)
Definition update_from_mint_pool_data (g : PriceGraph) (pd : MintPoolData)
  (sol_mint : Pubkey) : option PriceGraph :=
  match ingestion_calls pd sol_mint with
  | Some calls => Some (apply_add_edges g calls)
  | None => None
  end.

(** One ingestion tick of [run_bot] (lines 125-127):
    [for (_, pool_data) in mint_pool_data.iter() { price_graph.update_from_mint_pool_data(..) }]
    on the long-lived [price_graph]. *)
Fixpoint ingest_tick (g : PriceGraph) (mint_pool_data : list MintPoolData)
  (sol_mint : Pubkey) : option PriceGraph :=
  match mint_pool_data with
  | [] => Some g
  | pd :: rest =>
      match update_from_mint_pool_data g pd sol_mint with
      | Some g' => ingest_tick g' rest sol_mint
      | None => None
      end
  end.

(** The [add_edge] calls of a whole tick, market by market. *)
Definition tick_calls (mint_pool_data : list MintPoolData) (sol_mint : Pubkey)
  : option (list AddEdge) :=
  for_each_pool (fun pd => ingestion_calls pd sol_mint) mint_pool_data.


End Ingestion.

(** The graphs the ingestion driver builds: the empty graph of [PriceGraph::new],
    then any number of ticks (with any RPC answers and decoders). *)
Inductive ingested : PriceGraph -> Prop :=
| ingested_new : ingested []
| ingested_tick g get_account clmm_load_checked whirlpool_try_deserialize dlmm_load_checked
    heaven_parse powi pancakeswap_program_id byreal_program_id mint_pool_data sol_mint g' :
    ingested g ->
    ingest_tick get_account clmm_load_checked whirlpool_try_deserialize dlmm_load_checked
      heaven_parse powi pancakeswap_program_id byreal_program_id g mint_pool_data sol_mint
      = Some g' ->
    ingested g'.


(** The edge list stored under [k] ([entry.value()], empty when absent). *)
Definition bucket (g : PriceGraph) (k : Pubkey) : list PoolEdge :=
  unwrap_or (edges_of g k) [].

(** The edges of a sequence of [add_edge] calls whose source mint is [k]. *)
Definition edges_from (calls : list AddEdge) (k : Pubkey) : list PoolEdge :=
  map snd (filter (fun c => Z.eqb (fst (fst c)) k) calls).

(** ** The amount optimizer ([src/engine/optimize.rs])

    [AmountOptimizer] holds the shared [PriceGraph]; every method reads it. *)

Module Optimize.

(** [find_edge_in_graph]: the first edge under [leg.from_mint] with the leg's
    pool and dex type. *)
Definition find_edge_in_graph (g : PriceGraph) (leg : SwapLeg) : option PoolEdge :=
  match edges_of g (from_mint leg) with
  | Some es =>
      find (fun e => Z.eqb (pool_pubkey e) (leg_pool_pubkey leg)
                     && DexType_beq (dex_type e) (leg_dex_type leg)) es
  | None => None
  end.

(** The first edge of the whole graph, in iteration order, whose pool is
    [pool]. *)
Definition first_edge_of_pool (g : PriceGraph) (pool : Pubkey) : option PoolEdge :=
  find (fun e => Z.eqb (pool_pubkey e) pool) (concat (map snd g)).

(** The slippage of an edge found for the pool (lines 109-123). *)
Definition slippage_of_edge (amount_in : Z) (edge : PoolEdge) : Z :=
  let trade_size_usd := (u64_as_f64 amount_in / 1e9 * 200)%float in
  let pool_liquidity_usd := f64_max (liquidity_usd edge) 1%float in
  let liquidity_ratio := (trade_size_usd / pool_liquidity_usd)%float in
  let dynamic_slippage := f64_as_u64 (liquidity_ratio * 0.5 * 100)%float in
  let total_slippage := u64_add 10 dynamic_slippage in
  Z.min total_slippage 100.

(** [calculate_slippage_bps]. *)
Definition calculate_slippage_bps (g : PriceGraph) (amount_in : Z) (pool : Pubkey) : Z :=
  match first_edge_of_pool g pool with
  | Some edge => slippage_of_edge amount_in edge
  | None => 50
  end.

(** [fee_multiplier = (10_000 - effective_fee_bps) as f64 / 10_000.0]. *)
Definition fee_multiplier (effective_fee_bps : Z) : float :=
  (u64_as_f64 (u64_sub 10000 effective_fee_bps) / 10000)%float.

(** One leg of the simulation: the new amount. *)
Definition leg_step (g : PriceGraph) (leg : SwapLeg) (edge : PoolEdge) (current : Z) : Z :=
  let slippage_bps := calculate_slippage_bps g current (leg_pool_pubkey leg) in
  let effective_fee_bps := u64_add (fee_bps edge) slippage_bps in
  f64_as_u64 (u64_as_f64 current * price edge * fee_multiplier effective_fee_bps)%float.

(** The loop of [simulate_cycle_with_amount]: [None] on a missing edge or a
    zero amount. *)
Fixpoint simulate_legs (g : PriceGraph) (ls : list SwapLeg) (current : Z) : option Z :=
  match ls with
  | [] => Some current
  | leg :: rest =>
      match find_edge_in_graph g leg with
      | Some edge =>
          let current' := leg_step g leg edge current in
          if current' =? 0 then None else simulate_legs g rest current'
      | None => None
      end
  end.

(** [simulate_cycle_with_amount]. *)
Definition simulate_cycle_with_amount (g : PriceGraph) (cycle : ArbitrageCycle)
  (initial_amount : Z) : option Z :=
  match simulate_legs g (legs cycle) initial_amount with
  | Some current => if initial_amount <? current then Some (current - initial_amount) else None
  | None => None
  end.

(** The loop of [update_leg_amounts]: the updated legs and the final amount. *)
Fixpoint update_legs (g : PriceGraph) (ls : list SwapLeg) (current : Z)
  : list SwapLeg * Z :=
  match ls with
  | [] => ([], current)
  | leg :: rest =>
      let '(out, current') :=
        match find_edge_in_graph g leg with
        | Some edge => let c := leg_step g leg edge current in (c, c)
        | None => (0, current)
        end in
      let leg' := {| from_mint := from_mint leg; to_mint := to_mint leg;
                     leg_pool_pubkey := leg_pool_pubkey leg;
                     leg_dex_type := leg_dex_type leg;
                     amount_in := current; estimated_amount_out := out |} in
      let '(rest', final) := update_legs g rest current' in
      (leg' :: rest', final)
  end.

(** [update_leg_amounts]. *)
Definition update_leg_amounts (g : PriceGraph) (cycle : ArbitrageCycle)
  (initial_amount : Z) : ArbitrageCycle :=
  let '(legs', final) := update_legs g (legs cycle) initial_amount in
  {| legs := legs';
     total_profit_bps := total_profit_bps cycle;
     estimated_profit_lamports := u64_saturating_sub final initial_amount;
     total_hops := total_hops cycle |}.

(** The 20-iteration bisection of [optimize_amount]; the state is
    [(low, high, best_amount, best_profit)]. *)
Fixpoint search (iters : nat) (g : PriceGraph) (cycle : ArbitrageCycle)
  (min_profit_lamports low high best_amount best_profit : Z) : Z * Z :=
  match iters with
  | O => (best_amount, best_profit)
  | S iters' =>
      let mid := u64_add low high / 2 in
      match simulate_cycle_with_amount g cycle mid with
      | Some profit =>
          if (best_profit <? profit) && (min_profit_lamports <? profit)
          then search iters' g cycle min_profit_lamports mid high mid profit
          else search iters' g cycle min_profit_lamports low mid best_amount best_profit
      | None => search iters' g cycle min_profit_lamports low mid best_amount best_profit
      end
  end.

(** [optimize_amount]: the result and the (possibly updated) cycle. *)
Definition optimize_amount (g : PriceGraph) (cycle : ArbitrageCycle)
  (max_capital_lamports capital_per_cycle_percent min_profit_lamports : Z)
  : option Z * ArbitrageCycle :=
  let max_amount := u64_mul max_capital_lamports capital_per_cycle_percent / 100 in
  let low := 1000000 in
  let high := max_amount in
  if high <? low then (None, cycle)
  else
    let '(best_amount, best_profit) :=
      search 20 g cycle min_profit_lamports low high 0 0 in
    if (0 <? best_amount) && (min_profit_lamports <? best_profit)
    then (Some best_amount, update_leg_amounts g cycle best_amount)
    else (None, cycle).

End Optimize.

(** ** The discovery engine ([src/discovery/engine.rs]) *)

Module Discovery.

Local Open Scope string_scope.

Definition SOL_MINT : string := "So11111111111111111111111111111111111111112".
Definition USDC_MINT : string := "EPjFWdd5AufqSSqeM2qN1xzybapC8G4wEGGkZwyTDt1v".
Definition USDT_MINT : string := "Es9vMFrzaCERmJfrF4H2FYD4KCoNkY11McCe8BenwNYB".

Definition RAYDIUM_V4_PROGRAM : string := "675kPX9MHTjS2zt1qfr1NYHuzeLXfQM9H24wFSUt1Mp8".
Definition RAYDIUM_CLMM_PROGRAM : string := "CAMMCzo5YL8w4VFF8KVHrK22GGUsp5VTaW7grrKgrWqK".
Definition RAYDIUM_CP_PROGRAM : string := "CPMMoo8L3F4NbTegBCKVNunggL7H1ZpdTHKxQB5qKP1C".
Definition METEORA_DLMM_PROGRAM : string := "LBUZKhRxPF3XUpBCjp4YzTKgLccjZhTSDM9YuVaPwxo".
Definition METEORA_DAMM_PROGRAM : string := "Eo7WjKq67rjJQSZxS6z3YkapzY3eMj6Xy8X5EQVn5UaB".
Definition ORCA_WHIRLPOOL_PROGRAM : string := "whirLbMiicVdio4qvUfM5KAg6Ct8VwpYzGff3uctyCc".
Definition PUMP_PROGRAM : string := "pAMMBay6oceH9fJKBRHGP5D4bD4sWpmSwMn52FMfXEA".

(** The seven whitelisted program identifiers. *)
Definition whitelisted_programs : list string :=
  [RAYDIUM_V4_PROGRAM; RAYDIUM_CLMM_PROGRAM; RAYDIUM_CP_PROGRAM; METEORA_DLMM_PROGRAM;
   METEORA_DAMM_PROGRAM; ORCA_WHIRLPOOL_PROGRAM; PUMP_PROGRAM].

(** [let ignored_mints = [SOL_MINT, USDC_MINT, "Es9v...NYB"]]. *)
Definition ignored_mints : list string := [SOL_MINT; USDC_MINT; USDT_MINT].

(** [identify_specific_dex_type], on [owner.to_string()]. *)
Definition identify_specific_dex_type (owner_str : string) : option (string * string) :=
  if String.eqb owner_str RAYDIUM_V4_PROGRAM then Some ("raydium-v4", RAYDIUM_V4_PROGRAM)
  else if String.eqb owner_str RAYDIUM_CLMM_PROGRAM then Some ("raydium-clmm", RAYDIUM_CLMM_PROGRAM)
  else if String.eqb owner_str RAYDIUM_CP_PROGRAM then Some ("raydium-cp", RAYDIUM_CP_PROGRAM)
  else if String.eqb owner_str METEORA_DLMM_PROGRAM then Some ("meteora-dlmm", METEORA_DLMM_PROGRAM)
  else if String.eqb owner_str METEORA_DAMM_PROGRAM then Some ("meteora-damm-v2", METEORA_DAMM_PROGRAM)
  else if String.eqb owner_str ORCA_WHIRLPOOL_PROGRAM then Some ("orca-whirlpool", ORCA_WHIRLPOOL_PROGRAM)
  else if String.eqb owner_str PUMP_PROGRAM then Some ("pump", PUMP_PROGRAM)
  else None.

(** [str::replace(pat, rep)] for a non-empty [pat]: every non-overlapping
    occurrence, left to right.  Each step consumes a character, so
    [String.length s] steps of fuel suffice. *)
Fixpoint replace_fuel (fuel : nat) (pat rep s : string) : string :=
  match fuel with
  | O => s
  | S fuel' =>
      match s with
      | EmptyString => EmptyString
      | String c rest =>
          if String.prefix pat s
          then rep ++ replace_fuel fuel' pat rep
                        (substring (String.length pat) (String.length s - String.length pat) s)
          else String c (replace_fuel fuel' pat rep rest)
      end
  end.

Definition str_replace (s pat rep : string) : string :=
  replace_fuel (String.length s) pat rep s.

(** The fields of [GeckoPoolData] that discovery reads: the base-token id of
    [relationships]. *)
Record GeckoPoolData := { gecko_base_token_id : option string }.

Record TokenInfo := {
  ti_address : string; ti_name : option string; ti_symbol : option string }.

Record DexscreenerPair := {
  pair_address : string;
  pair_liquidity : option (option float);
  pair_volume : option (option float);
  base_token : option TokenInfo;
  quote_token : option TokenInfo }.

Record DiscoveryConfig := { min_liquidity_usd : float; min_volume_h24 : float }.

Record DiscoveredPool := {
  pool_address : string; dp_dex_type : string; program_id : string;
  dp_liquidity_usd : float; volume_h24 : float; sol_side : string }.

Record DiscoveredToken := {
  token_address : string; token_name : string; token_symbol : string;
  total_liquidity : float; pools : list DiscoveredPool }.

Record DiscoveredPools := {
  timestamp : Z; token_count : nat; tokens : list DiscoveredToken }.

(** A stable sort, descending in [key], with [partial_cmp(..).unwrap()]: it
    panics ([None]) when it compares a NaN, which with two or more elements
    is exactly when one of the keys is NaN. *)
Fixpoint insert_desc_by {A} (key : A -> float) (x : A) (sorted : list A) : list A :=
  match sorted with
  | [] => [x]
  | y :: rest => if (key y <? key x)%float then x :: y :: rest else y :: insert_desc_by key x rest
  end.

Definition sort_desc_unwrap {A} (key : A -> float) (xs : list A) : option (list A) :=
  match xs with
  | [] | [_] => Some xs
  | _ => if existsb (fun x => is_nan (key x)) xs then None
         else Some (fold_left (fun sorted x => insert_desc_by key x sorted) xs [])
  end.

(** [Iterator<Item = f64>::sum] (from [-0.0]). *)
Definition f64_sum (xs : list float) : float := fold_left (fun acc x => (acc + x)%float) xs (-0)%float.

Section Engine.

(** [Pubkey::from_str], the RPC owner of an account ([None]: the fetch fails),
    [Pubkey::to_string] and the pair-detail feed ([None]: fetch or JSON error). *)
Variable pubkey_from_str : string -> option Pubkey.
Variable get_account_owner : Pubkey -> option Pubkey.
Variable pubkey_to_string : Pubkey -> string.
Variable dexscreener_pairs : string -> option (list DexscreenerPair).

(** [verify_pool_on_chain]. *)
Definition verify_pool_on_chain (pool_addr : string) : Res (option (string * string)) :=
  match pubkey_from_str pool_addr with
  | None => RErr
  | Some pk =>
      match get_account_owner pk with
      | None => ROk None
      | Some o => ROk (identify_specific_dex_type (pubkey_to_string o))
      end
  end.

(** The state of the [for pair in pairs] loop of [process_token]. *)
Record TokenScan := {
  verified_pools : list DiscoveredPool; scan_name : string; scan_symbol : string }.

Definition scan_pair (config : DiscoveryConfig) (st : TokenScan) (dpair : DexscreenerPair)
  : Res TokenScan :=
  match base_token dpair, quote_token dpair with
  | Some base, Some quote =>
      let sol_side :=
        if String.eqb (ti_address base) SOL_MINT then Some "base"
        else if String.eqb (ti_address quote) SOL_MINT then Some "quote" else None in
      match sol_side with
      | None => ROk st
      | Some side =>
          let name := unwrap_or (ti_name base) "" in
          let symbol := unwrap_or (ti_symbol base) "UNK" in
          match verify_pool_on_chain (pair_address dpair) with
          | RErr => RErr
          | RPanic => RPanic
          | ROk None => ROk {| verified_pools := verified_pools st;
                               scan_name := name; scan_symbol := symbol |}
          | ROk (Some (dex, prog)) =>
              let liq := match pair_liquidity dpair with Some (Some l) => l | _ => 0%float end in
              let vol := match pair_volume dpair with Some (Some v) => v | _ => 0%float end in
              let vp := if (min_liquidity_usd config <=? liq)%float
                           && (min_volume_h24 config <=? vol)%float
                        then List.app (verified_pools st)
                               [{| pool_address := pair_address dpair; dp_dex_type := dex;
                                   program_id := prog; dp_liquidity_usd := liq;
                                   volume_h24 := vol; sol_side := side |}]
                        else verified_pools st in
              ROk {| verified_pools := vp; scan_name := name; scan_symbol := symbol |}
          end
      end
  | _, _ => ROk st
  end.

Fixpoint scan_pairs (config : DiscoveryConfig) (st : TokenScan) (pairs : list DexscreenerPair)
  : Res TokenScan :=
  match pairs with
  | [] => ROk st
  | dpair :: rest =>
      match scan_pair config st dpair with
      | ROk st' => scan_pairs config st' rest
      | RErr => RErr
      | RPanic => RPanic
      end
  end.

(** [process_token]; the [&token_addr[..8]] of the error log panics on a
    shorter address. *)
Definition process_token (config : DiscoveryConfig) (token_addr : string)
  : Res (option DiscoveredToken) :=
  match dexscreener_pairs token_addr with
  | None => if (String.length token_addr <? 8)%nat then RPanic else ROk None
  | Some pairs =>
      match scan_pairs config {| verified_pools := []; scan_name := "Unknown";
                                 scan_symbol := "UNK" |} pairs with
      | RErr => RErr
      | RPanic => RPanic
      | ROk st =>
          if (length (verified_pools st) <? 2)%nat then ROk None
          else match sort_desc_unwrap dp_liquidity_usd (verified_pools st) with
               | None => RPanic
               | Some sorted =>
                   ROk (Some {| token_address := token_addr; token_name := scan_name st;
                                token_symbol := scan_symbol st;
                                total_liquidity := f64_sum (map dp_liquidity_usd sorted);
                                pools := sorted |})
               end
      end
  end.

(** The candidate tokens: base-token ids with every [solana_] removed, minus
    the ignored mints, as a set (a duplicate-free list). *)
Fixpoint dedup_strings (xs : list string) : list string :=
  match xs with
  | [] => []
  | x :: rest => let r := dedup_strings rest in if existsb (String.eqb x) r then r else x :: r
  end.

Definition discovered_tokens (initial_pools : list GeckoPoolData) : list string :=
  dedup_strings
    (filter (fun addr => negb (existsb (String.eqb addr) ignored_mints))
       (map (fun id => str_replace id "solana_" "")
          (flat_map (fun p => match gecko_base_token_id p with Some id => [id] | None => [] end)
             initial_pools))).

(** The [while let Some(result) = futures.next().await] loop: the results in
    completion order; an error or a panic of a task is logged and skipped. *)
Definition collect_results (config : DiscoveryConfig) (completion_order : list string)
  : list DiscoveredToken :=
  flat_map (fun tok =>
              match process_token config tok with
              | ROk (Some token_group) =>
                  if (2 <=? length (pools token_group))%nat then [token_group] else []
              | _ => []
              end) completion_order.

(** [run_discovery], from the two harvested feeds ([RErr]: a fetch error) and
    the clock.  [schedule] gives the order in which the spawned tasks complete
    (the set's iteration order and the scheduler's choices). *)
Definition run_discovery (config : DiscoveryConfig)
  (trending top : Res (list GeckoPoolData)) (schedule : list string -> list string)
  (now : option Z) : Res DiscoveredPools :=
  match trending, top with
  | ROk tr, ROk tp =>
      let initial_pools := List.app tr tp in
      let all_results :=
        collect_results config (schedule (discovered_tokens initial_pools)) in
      match sort_desc_unwrap total_liquidity all_results with
      | None => RPanic
      | Some sorted =>
          match now with
          | None => RErr
          | Some ts => ROk {| timestamp := ts; token_count := length sorted; tokens := sorted |}
          end
      end
  | RPanic, _ => RPanic
  | RErr, _ => RErr
  | ROk _, RPanic => RPanic
  | ROk _, RErr => RErr
  end.

(** A pool that passed the on-chain check. *)
Definition pool_verified (p : Discovery.DiscoveredPool) : Prop :=
  exists pk o, pubkey_from_str (Discovery.pool_address p) = Some pk /\
    get_account_owner pk = Some o /\
    In (pubkey_to_string o) Discovery.whitelisted_programs /\
    Discovery.program_id p = pubkey_to_string o.

End Engine.

(** [DiscoveryEngine::convert_to_markets]: the pool addresses, token by token. *)
Definition convert_to_markets (dps : DiscoveredPools) : list string :=
  flat_map (fun token => map pool_address (pools token)) (tokens dps).

End Discovery.

(** ** The simulator ([src/engine/simulate.rs]) *)

Module Simulate.

Record SimulationResult := {
  success : bool; actual_profit_lamports : Z; cu_consumed : Z; error : option string }.

(** [Simulator::simulate_transaction] (it always returns [Ok]). *)
Definition simulate_transaction (cycle : ArbitrageCycle) : SimulationResult :=
  if 0 <? estimated_profit_lamports cycle
  then {| success := true; actual_profit_lamports := estimated_profit_lamports cycle;
          cu_consumed := 400000; error := None |}
  else {| success := false; actual_profit_lamports := 0; cu_consumed := 0;
          error := Some "No profit detected"%string |}.

End Simulate.

(** ** The bot loop ([src/bot.rs]) *)

Module Bot.

(** Lines 130-154 of [run_bot]: [find_negative_cycles(&price_graph, sol_mint(), 2, 5, 50)],
    then [optimize_amount(&mut cycle, 2_000_000_000, 20, 500_000)] on every cycle: the
    cycles it optimizes (after the update of their legs) with their input amounts,
    in order. *)
Definition detection_pass (g : PriceGraph) (sol_mint : Pubkey) : list (ArbitrageCycle * Z) :=
  flat_map (fun cycle =>
              match Optimize.optimize_amount g cycle 2000000000 20 500000 with
              | (Some amount, cycle') => [(cycle', amount)]
              | (None, _) => []
              end)
    (Detect.find_negative_cycles g sol_mint 2 5 50).

(** [profitable_cycles] at the end of an iteration of the main loop. *)
Definition profitable_cycles (g : PriceGraph) (sol_mint : Pubkey) : nat :=
  length (detection_pass g sol_mint).


(** One iteration of [run_background_discovery] (lines 172-193) on the shared
    market list: [save_ok] is the outcome of [save_results]; [None] is a panic
    of the task. *)
Definition background_step (markets : list string) (run : Res Discovery.DiscoveredPools)
  (save_ok : bool) : option (list string) :=
  match run with
  | ROk results => if save_ok then Some (Discovery.convert_to_markets results) else Some markets
  | RErr => Some markets
  | RPanic => None
  end.

(** The [loop] of [run_background_discovery] over a sequence of iterations,
    each given by the result of [run_discovery] and the outcome of
    [save_results]. *)
Fixpoint background_loop (markets : list string)
  (steps : list (Res Discovery.DiscoveredPools * bool)) : option (list string) :=
  match steps with
  | [] => Some markets
  | (run, save_ok) :: rest =>
      match background_step markets run save_ok with
      | Some markets' => background_loop markets' rest
      | None => None
      end
  end.

End Bot.

(** ** The pool indexer ([src/types.rs], [src/graph/engine.rs], [src/main.rs]) *)

Module Indexer.

Inductive DexType := Raydium | Meteora | Orca.

(** [TokenMint(Pubkey)]. *)
Definition TokenMint := Pubkey.

(** [PoolInfo]; the [Instant] of [last_updated] as a number. *)
Record PoolInfo := {
  address : Pubkey; dex : DexType; token_a : TokenMint; token_b : TokenMint;
  price : float; liquidity_usd : float; fee_bps : Z; last_updated : Z }.

(** [PathEdge]. *)
Record PathEdge := {
  pool_address : Pubkey; edge_dex : DexType; edge_price : float;
  edge_liquidity_usd : float; edge_fee_bps : Z }.

(** [DiGraphMap<TokenMint, PathEdge>]: the node set and the edge weights, each
    under the ordered pair [(a, b)] of its directed edge [a -> b]. *)
Record DiGraphMap := {
  nodes : list TokenMint; edges : list ((TokenMint * TokenMint) * PathEdge) }.

Definition key_eqb (x y : TokenMint * TokenMint) : bool :=
  Z.eqb (fst x) (fst y) && Z.eqb (snd x) (snd y).

Fixpoint edge_lookup (es : list ((TokenMint * TokenMint) * PathEdge))
  (k : TokenMint * TokenMint) : option PathEdge :=
  match es with
  | [] => None
  | (k', w) :: rest => if key_eqb k k' then Some w else edge_lookup rest k
  end.

(** [DiGraphMap::edge_weight(a, b)]. *)
Definition edge_weight (g : DiGraphMap) (a b : TokenMint) : option PathEdge :=
  edge_lookup (edges g) (a, b).

(** [DiGraphMap::add_node]: no effect on a node already present. *)
Definition graph_add_node (g : DiGraphMap) (n : TokenMint) : DiGraphMap :=
  if existsb (Z.eqb n) (nodes g) then g
  else {| nodes := nodes g ++ [n]; edges := edges g |}.

Fixpoint edge_update (es : list ((TokenMint * TokenMint) * PathEdge))
  (k : TokenMint * TokenMint) (w : PathEdge) : list ((TokenMint * TokenMint) * PathEdge) :=
  match es with
  | [] => [(k, w)]
  | (k', w') :: rest => if key_eqb k k' then (k', w) :: rest else (k', w') :: edge_update rest k w
  end.

(** [DiGraphMap::add_edge(a, b, weight)]: the weight of an edge [a -> b] already
    present is replaced; otherwise the edge is inserted, with its missing nodes. *)
Definition graph_add_edge (g : DiGraphMap) (a b : TokenMint) (w : PathEdge) : DiGraphMap :=
  let g' := graph_add_node (graph_add_node g a) b in
  {| nodes := nodes g'; edges := edge_update (edges g) (a, b) w |}.

(** [DiGraphMap::remove_edge(a, b)]: the nodes stay. *)
Definition graph_remove_edge (g : DiGraphMap) (a b : TokenMint) : DiGraphMap :=
  {| nodes := nodes g; edges := filter (fun e => negb (key_eqb (a, b) (fst e))) (edges g) |}.

(** [HashMap::remove]. *)
Definition remove_key {V} (m : KeyMap V) (k : Pubkey) : KeyMap V :=
  filter (fun kv => negb (Z.eqb k (fst kv))) m.

Record PetgraphEngine := {
  graph : DiGraphMap;
  pool_index : KeyMap (TokenMint * TokenMint);
  pools : KeyMap PoolInfo }.

(** [PetgraphEngine::new]. *)
Definition PetgraphEngine_new : PetgraphEngine :=
  {| graph := {| nodes := []; edges := [] |}; pool_index := []; pools := [] |}.

(** [add_or_update_pool] (it always returns [Ok(())]). *)
Definition add_or_update_pool (st : PetgraphEngine) (pool : PoolInfo) : PetgraphEngine :=
  let edge := {| pool_address := address pool; edge_dex := dex pool; edge_price := price pool;
                 edge_liquidity_usd := liquidity_usd pool; edge_fee_bps := fee_bps pool |} in
  let g1 := graph_add_node (graph_add_node (graph st) (token_a pool)) (token_b pool) in
  let g2 := graph_add_edge g1 (token_a pool) (token_b pool) edge in
  let reverse_edge :=
    {| pool_address := address pool; edge_dex := dex pool;
       edge_price := if (0 <? price pool)%float then (1 / price pool)%float else 0%float;
       edge_liquidity_usd := liquidity_usd pool; edge_fee_bps := fee_bps pool |} in
  let g3 := graph_add_edge g2 (token_b pool) (token_a pool) reverse_edge in
  {| graph := g3;
     pool_index := insert (pool_index st) (address pool) (token_a pool, token_b pool);
     pools := insert (pools st) (address pool) pool |}.

(** [get_pool]. *)
Definition get_pool (st : PetgraphEngine) (a : Pubkey) : option PoolInfo :=
  lookup (pools st) a.

(** [remove_pool] (it always returns [Ok(())]). *)
Definition remove_pool (st : PetgraphEngine) (a : Pubkey) : PetgraphEngine :=
  match lookup (pool_index st) a with
  | Some (ta, tb) =>
      {| graph := graph_remove_edge (graph_remove_edge (graph st) ta tb) tb ta;
         pool_index := remove_key (pool_index st) a;
         pools := remove_key (pools st) a |}
  | None => st
  end.

(** [get_all_pools]: the values of [pools], in the map's iteration order. *)
Definition get_all_pools (st : PetgraphEngine) : list PoolInfo := map snd (pools st).

(** [clear]. *)
Definition clear (st : PetgraphEngine) : PetgraphEngine :=
  {| graph := {| nodes := []; edges := [] |}; pool_index := []; pools := [] |}.

(** The two weights [add_or_update_pool] installs: [edge] on [token_a -> token_b]
    and [reverse_edge] on [token_b -> token_a]. *)
Definition forward_edge (pool : PoolInfo) : PathEdge :=
  {| pool_address := address pool; edge_dex := dex pool; edge_price := price pool;
     edge_liquidity_usd := liquidity_usd pool; edge_fee_bps := fee_bps pool |}.

Definition reverse_edge (pool : PoolInfo) : PathEdge :=
  {| pool_address := address pool; edge_dex := dex pool;
     edge_price := if (0 <? price pool)%float then (1 / price pool)%float else 0%float;
     edge_liquidity_usd := liquidity_usd pool; edge_fee_bps := fee_bps pool |}.

(** The states that [new] and the public operations [add_or_update_pool],
    [remove_pool] and [clear] reach. *)
Inductive reachable : PetgraphEngine -> Prop :=
| reachable_new : reachable PetgraphEngine_new
| reachable_add st pool : reachable st -> reachable (add_or_update_pool st pool)
| reachable_remove st a : reachable st -> reachable (remove_pool st a)
| reachable_clear st : reachable st -> reachable (clear st).

(** Each stored pool is indexed under its own pair. *)
Definition index_consistent (st : PetgraphEngine) : Prop :=
  forall a, lookup (pool_index st) a =
            option_map (fun p => (token_a p, token_b p)) (lookup (pools st) a).

(** One tick of the update loop of [main] (lines 195-213) on the pools that
    [fetch_all_pools] returned: the pools with
    [p.liquidity_usd >= app_config.min_liquidity_usd], added one by one. *)
Definition update_tick (st : PetgraphEngine) (fetched : list PoolInfo)
  (min_liquidity_usd : float) : PetgraphEngine :=
  fold_left add_or_update_pool
    (filter (fun p => (min_liquidity_usd <=? liquidity_usd p)%float) fetched) st.

End Indexer.

(** ** The on-chain pool fetchers ([src/market/raydium.rs], [src/market/meteora.rs]) *)

Module Markets.

(** The fields of Raydium's CLMM [PoolState] that [parse_pool] reads. *)
Record ClmmInfo := {
  ci_sqrt_price_x64 : Z; ci_token_mint_0 : Pubkey; ci_token_mint_1 : Pubkey;
  tick_spacing : Z }.

(** The fields of Meteora's [DlmmInfo] that [parse_dlmm_pool] reads. *)
Record DlmmPool := {
  dl_bin_step : Z; dl_active_id : Z; dl_token_x_mint : Pubkey; dl_token_y_mint : Pubkey;
  base_factor : Z }.

Definition mk_pool (address : Pubkey) (dex : Indexer.DexType) (a b : Pubkey) (p liq : float)
  (fee : Z) (now : Z) : Indexer.PoolInfo :=
  {| Indexer.address := address; Indexer.dex := dex; Indexer.token_a := a; Indexer.token_b := b;
     Indexer.price := p; Indexer.liquidity_usd := liq; Indexer.fee_bps := fee;
     Indexer.last_updated := now |}.

Section Fetchers.

(** [clmm_info::PoolState::load_checked] and [DlmmInfo::load_checked] ([None]:
    an error), [f64::powi]. *)
Variable clmm_load_checked : list Byte.byte -> option ClmmInfo.
Variable dlmm_load_checked : list Byte.byte -> option DlmmPool.
Variable powi : float -> Z -> float.
(** [get_program_accounts_with_config] and [get_account] ([None]: an RPC error). *)
Variable get_program_accounts : Pubkey -> option (list (Pubkey * list Byte.byte)).
Variable get_account_data : Pubkey -> option (list Byte.byte).
Variable raydium_program_id raydium_cp_program_id raydium_clmm_program_id : Pubkey.
Variable dlmm_program_id damm_v2_program_id : Pubkey.
(** [Instant::now()]. *)
Variable now : Z.

(** [RaydiumOnchainFetcher::parse_pool] ([RErr]: an [Err], [RPanic]: a panic).
    [calculate_price_from_vaults] and [calculate_price_from_vaults_cp] return
    [1.0], the three [get_tvl_from_rpc*] [100000.0], [get_fee_rate] [25];
    [calculate_price_clmm] is the formula of [calculate_clmm_price]. *)
Definition raydium_parse_pool (address : Pubkey) (data : list Byte.byte)
  : Res (option Indexer.PoolInfo) :=
  match RaydiumAmmInfo_load_checked data with
  | DecPanic => RPanic
  | DecOk amm =>
      ROk (Some (mk_pool address Indexer.Raydium (amm_coin_mint amm) (amm_pc_mint amm)
                   1 100000 25 now))
  | DecErr _ =>
      match RaydiumCpAmmInfo_load_checked data with
      | DecPanic => RPanic
      | DecOk cp =>
          ROk (Some (mk_pool address Indexer.Raydium (cp_token_0_mint cp) (cp_token_1_mint cp)
                       1 100000 25 now))
      | DecErr _ =>
          match clmm_load_checked data with
          | Some ci =>
              ROk (Some (mk_pool address Indexer.Raydium (ci_token_mint_0 ci) (ci_token_mint_1 ci)
                           (calculate_clmm_price (ci_sqrt_price_x64 ci)) 100000
                           (tick_spacing ci mod 2 ^ 16) now))
          | None => ROk None
          end
      end
  end.





(** [RaydiumOnchainFetcher::fetch_pool_by_address]. *)
Definition raydium_fetch_pool_by_address (address : Pubkey) : Res (option Indexer.PoolInfo) :=
  match get_account_data address with
  | Some d => raydium_parse_pool address d
  | None => ROk None
  end.

(** [MeteoraOnchainFetcher::parse_dammv2_pool]; [calculate_price_dammv2] returns
    [1.0] and [get_tvl_dammv2] [100000.0]. *)
Definition meteora_parse_dammv2_pool (address : Pubkey) (data : list Byte.byte)
  : Res (option Indexer.PoolInfo) :=
  match MeteoraDAmmV2Info_load_checked data with
  | DecPanic => RPanic
  | DecOk info =>
      ROk (Some (mk_pool address Indexer.Meteora (damm_base_mint info) (damm_quote_mint info)
                   1 100000 10 now))
  | DecErr _ => ROk None
  end.

(** [calculate_price_dlmm]: [(1.0 + bin_step as f64 / 10000.0).powi(active_id)]. *)
Definition calculate_price_dlmm (info : DlmmPool) : float :=
  powi (1 + u64_as_f64 (dl_bin_step info) / 10000)%float (dl_active_id info).

(** [MeteoraOnchainFetcher::parse_dlmm_pool]; [get_tvl_dlmm] returns [100000.0]. *)
Definition meteora_parse_dlmm_pool (address : Pubkey) (data : list Byte.byte)
  : Res (option Indexer.PoolInfo) :=
  match dlmm_load_checked data with
  | Some info =>
      ROk (Some (mk_pool address Indexer.Meteora (dl_token_x_mint info) (dl_token_y_mint info)
                   (calculate_price_dlmm info) 100000 (base_factor info) now))
  | None => ROk None
  end.


(** [MeteoraOnchainFetcher::fetch_pool_by_address]: [if let Ok(pool) = ..
    { return Ok(pool); }] on the DLMM parser, then on the DAMM v2 parser. *)
Definition meteora_fetch_pool_by_address (address : Pubkey) : Res (option Indexer.PoolInfo) :=
  match get_account_data address with
  | None => ROk None
  | Some d =>
      match meteora_parse_dlmm_pool address d with
      | ROk pool => ROk pool
      | RPanic => RPanic
      | RErr =>
          match meteora_parse_dammv2_pool address d with
          | ROk pool => ROk pool
          | RPanic => RPanic
          | RErr => ROk None
          end
      end
  end.

End Fetchers.

End Markets.

(** ** Sample inputs *)

(** The eight little-endian bytes of a [u64]. *)
Definition u64_le_bytes (n : Z) : list Byte.byte :=
  map (fun i => unwrap_or (Byte.of_N (Z.to_N ((n / 2 ^ (8 * i)) mod 256))) Byte.x00)
    [0; 1; 2; 3; 4; 5; 6; 7].

(** An SPL token account holding [amount]. *)
Definition token_account (amount : Z) : Account :=
  {| owner := 0; data := repeat Byte.x00 64 ++ u64_le_bytes amount |}.

(** An RPC node that knows the two vaults 100 (token side) and 101 (SOL side). *)
Definition sample_get_account (token_amount sol_amount : Pubkey) (k : Pubkey)
  : option Account :=
  if k =? 100 then Some (token_account token_amount)
  else if k =? 101 then Some (token_account sol_amount)
  else None.

(** The market of mint 7 with the one Raydium AMM pool 50. *)
Definition sample_pool_data : MintPoolData :=
  {| mint := 7; pd_token_program := 0;
     raydium_pools := [{| vp_pool := 50; vp_token_vault := 100; vp_sol_vault := 101 |}];
     raydium_cp_pools := []; pump_pools := []; dlmm_pairs := []; whirlpool_pools := [];
     raydium_clmm_pools := []; meteora_damm_pools := []; meteora_damm_v2_pools := [];
     vertigo_pools := []; heaven_pools := []; futarchy_pools := []; humidifi_pools := [];
     pancakeswap_pools := []; byreal_pools := [] |}.

(** One tick over [sample_pool_data] (SOL is mint 1); the families that are
    not exercised get decoders that always fail. *)
Definition sample_tick (token_amount sol_amount : Z) (g : PriceGraph) : option PriceGraph :=
  ingest_tick (sample_get_account token_amount sol_amount)
    (fun _ => None) (fun _ => None) (fun _ => None) (fun _ => None) (fun x _ => x) 0 0
    g [sample_pool_data] 1.

Definition sample_tick_calls (token_amount sol_amount : Z) : option (list AddEdge) :=
  tick_calls (sample_get_account token_amount sol_amount)
    (fun _ => None) (fun _ => None) (fun _ => None) (fun _ => None) (fun x _ => x) 0 0
    [sample_pool_data] 1.

(** A discovery run over one trending pool of token [TOK], whose two SOL pairs
    [P1] and [P2] are owned by the Raydium AMM program. *)
Definition sample_pair (addr : string) : Discovery.DexscreenerPair :=
  {| Discovery.pair_address := addr;
     Discovery.pair_liquidity := Some (Some 100%float);
     Discovery.pair_volume := Some (Some 10%float);
     Discovery.base_token := Some {| Discovery.ti_address := "TOK"%string;
                                     Discovery.ti_name := Some "Token"%string;
                                     Discovery.ti_symbol := Some "TOK"%string |};
     Discovery.quote_token := Some {| Discovery.ti_address := Discovery.SOL_MINT;
                                      Discovery.ti_name := None;
                                      Discovery.ti_symbol := None |} |}.

Definition sample_pubkey_from_str (s : string) : option Pubkey :=
  if String.eqb s "P1" then Some 1 else if String.eqb s "P2" then Some 2 else None.

Definition sample_run_discovery : Res Discovery.DiscoveredPools :=
  Discovery.run_discovery sample_pubkey_from_str (fun _ => Some 9)
    (fun _ => Discovery.RAYDIUM_V4_PROGRAM)
    (fun _ => Some [sample_pair "P1"; sample_pair "P2"])
    {| Discovery.min_liquidity_usd := 0; Discovery.min_volume_h24 := 0 |}
    (ROk [{| Discovery.gecko_base_token_id := Some "solana_TOK"%string |}]) (ROk [])
    (fun l => l) (Some 0).

(** A one-leg cycle through pool 11 at price 2, with deep liquidity. *)
Definition sample_opt_graph : PriceGraph := [(11, [mk_edge 11 RaydiumV4 2 1e12 0 0])].

Definition sample_opt_cycle : ArbitrageCycle :=
  {| legs := [Detect.leg_of_edge (1, mk_edge 11 RaydiumV4 2 1e12 0 0)];
     total_profit_bps := 9999; estimated_profit_lamports := 0; total_hops := 1 |}.

(** Three pools for the indexer: 900 and 901 on the pair (1, 2), and a later
    version of 900 on the pair (3, 4). *)
Definition sample_index_pool (addr a b : Pubkey) (p : float) : Indexer.PoolInfo :=
  {| Indexer.address := addr; Indexer.dex := Indexer.Raydium; Indexer.token_a := a;
     Indexer.token_b := b; Indexer.price := p; Indexer.liquidity_usd := 100000;
     Indexer.fee_bps := 25; Indexer.last_updated := 0 |}.

Definition sample_pool_P := sample_index_pool 900 1 2 2.
Definition sample_pool_Q := sample_index_pool 901 1 2 4.
Definition sample_pool_P' := sample_index_pool 900 3 4 2.

Definition sample_indexer : Indexer.PetgraphEngine :=
  Indexer.add_or_update_pool
    (Indexer.add_or_update_pool Indexer.PetgraphEngine_new sample_pool_P) sample_pool_Q.

(** A 2800-byte buffer of [0x01] bytes. *)
Definition sample_buffer : list Byte.byte := repeat Byte.x01 2800.

(** The DAMM v2 reading of [sample_buffer] at address 77. *)
Definition meteora_parse_dammv2_pool_sample : Res (option Indexer.PoolInfo) :=
  Markets.meteora_parse_dammv2_pool 0 77 sample_buffer.

(** [sample_pool_data] with one more pool whose account the sample RPC node
    does not know: a DLMM pair (for [with_dlmm]) or a Whirlpool pool. *)
Definition sample_pool_data_with (dlmm whirl : list MintedPool) : MintPoolData :=
  {| mint := 7; pd_token_program := 0;
     raydium_pools := [{| vp_pool := 50; vp_token_vault := 100; vp_sol_vault := 101 |}];
     raydium_cp_pools := []; pump_pools := []; dlmm_pairs := dlmm; whirlpool_pools := whirl;
     raydium_clmm_pools := []; meteora_damm_pools := []; meteora_damm_v2_pools := [];
     vertigo_pools := []; heaven_pools := []; futarchy_pools := []; humidifi_pools := [];
     pancakeswap_pools := []; byreal_pools := [] |}.

Definition sample_unknown_pool : MintedPool := {| mp_pool := 60; mp_token_mint := 7 |}.

(** A market with its DLMM, Heaven, PancakeSwap and Byreal pool lists
    emptied: the four families whose pool-account fetch failure
    [update_from_mint_pool_data] skips. *)
Definition without_fetched_pools (pd : MintPoolData) : MintPoolData :=
  {| mint := mint pd; pd_token_program := pd_token_program pd;
     raydium_pools := raydium_pools pd; raydium_cp_pools := raydium_cp_pools pd;
     pump_pools := pump_pools pd; dlmm_pairs := []; whirlpool_pools := whirlpool_pools pd;
     raydium_clmm_pools := raydium_clmm_pools pd; meteora_damm_pools := meteora_damm_pools pd;
     meteora_damm_v2_pools := meteora_damm_v2_pools pd; vertigo_pools := vertigo_pools pd;
     heaven_pools := []; futarchy_pools := futarchy_pools pd;
     humidifi_pools := humidifi_pools pd; pancakeswap_pools := []; byreal_pools := [] |}.

(** The fee, in basis points, of the edges each family installs in
    [graph.rs]. *)
Definition dex_fee_bps (d : DexType) : Z :=
  match d with
  | Pump => 100 | RaydiumV4 => 25 | RaydiumCp => 5 | RaydiumClmm => 5
  | MeteoraDlmm => 5 | MeteoraDamm => 10 | MeteoraDammV2 => 8 | Whirlpool => 2
  | Vertigo => 15 | Heaven => 20 | Futarchy => 25 | Humidifi => 12
  | PancakeSwap => 5 | Byreal => 5
  end.

(** A graph whose pool addresses are mints of the graph, on which the
    detection pass of the bot optimizes one cycle. *)
Definition sample_bot_graph : PriceGraph :=
  [(1, [mk_edge 1 RaydiumV4 1.25 1e9 25 0; mk_edge 2 RaydiumV4 0.875 1e9 25 0]);
   (2, [mk_edge 1 RaydiumV4 1.25 1e9 25 0; mk_edge 2 RaydiumV4 0.875 1e9 25 0])].

(** A discovery result with one token and its two pools, and one with no
    token. *)
Definition sample_discovered : Discovery.DiscoveredPools :=
  {| Discovery.timestamp := 0; Discovery.token_count := 1;
     Discovery.tokens :=
       [{| Discovery.token_address := "TOK"; Discovery.token_name := "Token";
           Discovery.token_symbol := "TK"; Discovery.total_liquidity := 2;
           Discovery.pools :=
             [{| Discovery.pool_address := "P1"; Discovery.dp_dex_type := "raydium-v4";
                 Discovery.program_id := Discovery.RAYDIUM_V4_PROGRAM;
                 Discovery.dp_liquidity_usd := 1; Discovery.volume_h24 := 1;
                 Discovery.sol_side := "quote" |};
              {| Discovery.pool_address := "P2"; Discovery.dp_dex_type := "raydium-v4";
                 Discovery.program_id := Discovery.RAYDIUM_V4_PROGRAM;
                 Discovery.dp_liquidity_usd := 1; Discovery.volume_h24 := 1;
                 Discovery.sol_side := "quote" |}] |}] |}%string.


(** The hop bounds of a returned cycle. *)
Definition hops_ok (min_hops max_hops : nat) (c : ArbitrageCycle) : Prop :=
  total_hops c = length (legs c) /\ (min_hops <= total_hops c <= max_hops)%nat.



(** Closes the goal of a pool body about every call: split on every
    [match], then check the calls one by one. *)
Ltac pool_body_forall :=
  cbv zeta;
  repeat match goal with
  | |- context [match ?x with _ => _ end] => destruct x
  end;
  intros Hc; cbv zeta in Hc; try discriminate; injection Hc as <-;
  repeat constructor; simpl.

(** ** Magnitudes of binary64 values

    Real-valued bounds on the [spec_float]s the primitive operations return:
    [fval m e] is the real number [m * 2^e], and [sf_le x B] says that [x] is
    a zero or a positive finite value of magnitude at most [B]. *)
Definition bpow (e : Z) : R := powerRZ 2 e.
Definition fval (m e : Z) : R := (IZR m * bpow e)%R.

Definition sf_le (x : spec_float) (B : R) : Prop :=
  match x with
  | S754_zero _ => True
  | S754_finite false m e => (fval (Zpos m) e <= B)%R
  | _ => False
  end.

(** * Properties *)

(** ** Relaxation keys *)

(** C1 (code bug).  The relaxation of [find_negative_cycles] stores the new
    distance and the predecessor under [edge.pool_pubkey], not under the
    destination mint of the edge ([PoolEdge] does not record it, and
    [add_edge] drops [to_mint]).  On the one-edge graph [1 -> 2] through pool
    11 at price 0.5, relaxing from mint 1 leaves the destination mint 2
    without a distance and without a predecessor, and records both under the
    pool key 11. *)
Theorem relax_rounds_keys_by_pool :
  let edge := mk_edge 11 RaydiumV4 0.5 1e9 25 0 in
  let '(distances, predecessors) :=
    Detect.relax_rounds 5 (add_edge [] 1 2 edge) [(1, 1%float)] [] in
  lookup distances 2 = None /\ lookup predecessors 2 = None /\
  lookup distances 11 = Some 0.5%float /\ lookup predecessors 11 = Some (1, edge).
Proof. vm_compute. repeat split. Qed.

(** ** Token-vault reserves *)

(** C3 (code bug).  [parse_token_amount] returns zero only below 64 bytes: a
    buffer of 64 to 71 bytes passes the [len < 64] guard and the slice
    [data[64..72]] panics. *)
Theorem parse_token_amount_panics_64_to_71 :
  forall data : list Byte.byte,
  (64 <= length data < 72)%nat -> parse_token_amount data = None.
Proof.
  intros data Hlen. unfold parse_token_amount, slice.
  replace (length data <? 64)%nat with false by (symmetry; apply Nat.ltb_ge; lia).
  replace (72 <=? length data)%nat with false by (symmetry; apply Nat.leb_gt; lia).
  rewrite andb_false_r. reflexivity.
Qed.

Lemma parse_token_amount_panics_64_to_71_witness :
  (64 <= length (repeat Byte.x00 64) < 72)%nat /\
  parse_token_amount (repeat Byte.x00 64) = None.
Proof.
  split.
  - rewrite repeat_length. lia.
  - apply parse_token_amount_panics_64_to_71. rewrite repeat_length. lia.
Defined.

(** ** Decoders on short buffers *)

Lemma slice_past_end (data : list Byte.byte) (start stop : nat) :
  (length data < stop)%nat -> slice data start stop = None.
Proof.
  intros H. unfold slice.
  replace (stop <=? length data)%nat with false by (symmetry; apply Nat.leb_gt; lia).
  rewrite andb_false_r. reflexivity.
Qed.

Lemma slice_to_pubkey_past_end (data : list Byte.byte) (start stop : nat) :
  (length data < stop)%nat -> slice_to_pubkey data start stop = None.
Proof. intros H. unfold slice_to_pubkey. rewrite slice_past_end by exact H. reflexivity. Qed.

(** C4 (code bug).  On a buffer shorter than 296 bytes the Solfi and Meteora
    DAMM v2 decoders panic (their slices run past the end: they test no
    length), while on the same buffer the Raydium AMM and CP decoders return
    their malformed-layout errors. *)
Theorem short_buffer_decoders_panic :
  forall data : list Byte.byte, (length data < 296)%nat ->
  SolfiInfo_load_checked data = DecPanic /\
  MeteoraDAmmV2Info_load_checked data = DecPanic /\
  RaydiumAmmInfo_load_checked data = DecErr "Invalid data length for RaydiumAmmInfo" /\
  RaydiumCpAmmInfo_load_checked data = DecErr "Invalid data length for RaydiumCpAmmInfo".
Proof.
  intros data H. repeat split.
  - unfold SolfiInfo_load_checked.
    rewrite (slice_to_pubkey_past_end data 2664 2696) by lia. reflexivity.
  - unfold MeteoraDAmmV2Info_load_checked.
    rewrite (slice_to_pubkey_past_end data 264 296) by lia.
    destruct (slice_to_pubkey data 168 200), (slice_to_pubkey data 200 232),
      (slice_to_pubkey data 232 264); reflexivity.
  - unfold RaydiumAmmInfo_load_checked.
    replace (length data <? PC_MINT_OFFSET + 32)%nat with true
      by (symmetry; apply Nat.ltb_lt; unfold PC_MINT_OFFSET; lia).
    reflexivity.
  - unfold RaydiumCpAmmInfo_load_checked.
    replace (length data <? OBSERVATION_KEY_OFFSET + 32)%nat with true
      by (symmetry; apply Nat.ltb_lt; unfold OBSERVATION_KEY_OFFSET; lia).
    reflexivity.
Qed.

Lemma short_buffer_decoders_panic_witness :
  (length (@nil Byte.byte) < 296)%nat /\
  SolfiInfo_load_checked [] = DecPanic /\
  MeteoraDAmmV2Info_load_checked [] = DecPanic /\
  RaydiumAmmInfo_load_checked [] = DecErr "Invalid data length for RaydiumAmmInfo" /\
  RaydiumCpAmmInfo_load_checked [] = DecErr "Invalid data length for RaydiumCpAmmInfo".
Proof. split; [simpl; lia | apply short_buffer_decoders_panic; simpl; lia]. Defined.

(** ** Accumulation of edges across ticks *)

Lemma add_edge_bucket (g : PriceGraph) (f t : Pubkey) (e : PoolEdge) (k : Pubkey) :
  bucket (add_edge g f t e) k = bucket g k ++ (if Z.eqb f k then [e] else []).
Proof.
  unfold bucket. induction g as [| [k0 es] rest IH]; simpl.
  - destruct (Z.eqb_spec k f), (Z.eqb_spec f k); subst; simpl; congruence.
  - destruct (Z.eqb_spec k0 f) as [-> | Hne]; simpl.
    + destruct (Z.eqb_spec k f), (Z.eqb_spec f k); subst; simpl;
        try congruence; rewrite app_nil_r; reflexivity.
    + destruct (Z.eqb_spec k k0) as [-> | Hk]; simpl.
      * destruct (Z.eqb_spec f k0); [congruence | rewrite app_nil_r; reflexivity].
      * exact IH.
Qed.

Lemma apply_add_edges_bucket (calls : list AddEdge) :
  forall (g : PriceGraph) (k : Pubkey),
  bucket (apply_add_edges g calls) k = bucket g k ++ edges_from calls k.
Proof.
  unfold apply_add_edges, edges_from.
  induction calls as [| [[f t] e] rest IH]; intros g k; simpl.
  - rewrite app_nil_r. reflexivity.
  - rewrite IH, add_edge_bucket, <- app_assoc.
    destruct (Z.eqb f k); reflexivity.
Qed.

Lemma edges_from_app (c1 c2 : list AddEdge) (k : Pubkey) :
  edges_from (c1 ++ c2) k = edges_from c1 k ++ edges_from c2 k.
Proof. unfold edges_from. rewrite filter_app, map_app. reflexivity. Qed.

(** C2 (counterexample).  The graph is never cleared between ticks: running
    the same tick twice over the one-pool market [sample_pool_data] leaves two
    copies of its edge under mint 7, although the tick produces one. *)
Lemma ingest_tick_accumulates :
  match sample_tick 5 1 [] with
  | Some g1 =>
      match sample_tick 5 1 g1 with
      | Some g2 =>
          edges_from (unwrap_or (sample_tick_calls 5 1) []) 7
            = [mk_edge 50 RaydiumV4 5 5200 25 0] /\
          bucket g1 7 = [mk_edge 50 RaydiumV4 5 5200 25 0] /\
          bucket g2 7 = [mk_edge 50 RaydiumV4 5 5200 25 0; mk_edge 50 RaydiumV4 5 5200 25 0]
      | None => False
      end
  | None => False
  end.
Proof. vm_compute. repeat split. Qed.

(** C2 (amended).  An ingestion tick appends: when the tick's [add_edge]
    calls are [calls] (no pool panics), it delivers a graph in which the edge
    list of every source mint [k] is the list [k] had before the tick,
    followed by the edges that the tick adds from [k]; nothing is removed. *)
Theorem ingest_tick_appends_edges :
  forall get_account clmm_load_checked whirlpool_try_deserialize dlmm_load_checked
    heaven_parse powi pancakeswap_program_id byreal_program_id
    (g : PriceGraph) (mint_pool_data : list MintPoolData) (sol_mint : Pubkey)
    (calls : list AddEdge),
  tick_calls get_account clmm_load_checked whirlpool_try_deserialize dlmm_load_checked
    heaven_parse powi pancakeswap_program_id byreal_program_id mint_pool_data sol_mint
    = Some calls ->
  exists g',
    ingest_tick get_account clmm_load_checked whirlpool_try_deserialize dlmm_load_checked
      heaven_parse powi pancakeswap_program_id byreal_program_id g mint_pool_data sol_mint
      = Some g' /\
    forall k, bucket g' k = bucket g k ++ edges_from calls k.
Proof.
  intros ga cl wd dl hp pw pid bid g mpds sol.
  revert g. unfold tick_calls.
  induction mpds as [| pd rest IH]; intros g calls Hcalls; simpl in *.
  - injection Hcalls as <-. exists g. split; [reflexivity |].
    intros k. unfold edges_from. simpl. rewrite app_nil_r. reflexivity.
  - unfold update_from_mint_pool_data.
    destruct (ingestion_calls ga cl wd dl hp pw pid bid pd sol) as [c |]; [| discriminate].
    destruct (for_each_pool _ rest) as [c' |] eqn:Hrest; [| discriminate].
    injection Hcalls as <-.
    destruct (IH (apply_add_edges g c) c' eq_refl) as [g' [Htick Hb]].
    exists g'. split; [exact Htick |].
    intros k. rewrite Hb, apply_add_edges_bucket, edges_from_app, app_assoc. reflexivity.
Qed.

Lemma ingest_tick_appends_edges_witness :
  sample_tick_calls 5 1 =
    Some [(7, 1, mk_edge 50 RaydiumV4 5 5200 25 0); (1, 7, mk_edge 50 RaydiumV4 (1 / 5) 5200 25 0)] /\
  exists g',
    sample_tick 5 1 [] = Some g' /\
    forall k, bucket g' k = bucket [] k ++
      edges_from [(7, 1, mk_edge 50 RaydiumV4 5 5200 25 0);
                  (1, 7, mk_edge 50 RaydiumV4 (1 / 5) 5200 25 0)] k.
Proof.
  split.
  - vm_compute. reflexivity.
  - apply ingest_tick_appends_edges. vm_compute. reflexivity.
Defined.

(** ** Acceptance of a reconstructed path *)

Lemma cycle_of_path_some (min_hops max_hops : nat) (path : list (Pubkey * PoolEdge))
  (c : ArbitrageCycle) :
  Detect.cycle_of_path min_hops max_hops path = Some c ->
  (min_hops <= length path <= max_hops)%nat /\
  c = {| legs := map Detect.leg_of_edge path;
         total_profit_bps := f64_as_i64 ((Detect.path_price path - 1) * 10000)%float;
         estimated_profit_lamports := 0;
         total_hops := length path |}.
Proof.
  unfold Detect.cycle_of_path.
  destruct (length path <? min_hops)%nat eqn:Hmin; simpl; [discriminate |].
  destruct (max_hops <? length path)%nat eqn:Hmax; simpl; [discriminate |].
  intros Hc. injection Hc as <-.
  apply Nat.ltb_ge in Hmin. apply Nat.ltb_ge in Hmax. split; [lia | reflexivity].
Qed.

Lemma cycle_of_path_in_bounds (min_hops max_hops : nat) (path : list (Pubkey * PoolEdge)) :
  (min_hops <= length path <= max_hops)%nat ->
  Detect.cycle_of_path min_hops max_hops path =
  Some {| legs := map Detect.leg_of_edge path;
          total_profit_bps := f64_as_i64 ((Detect.path_price path - 1) * 10000)%float;
          estimated_profit_lamports := 0;
          total_hops := length path |}.
Proof.
  intros H. unfold Detect.cycle_of_path.
  replace (length path <? min_hops)%nat with false by (symmetry; apply Nat.ltb_ge; lia).
  replace (max_hops <? length path)%nat with false by (symmetry; apply Nat.ltb_ge; lia).
  reflexivity.
Qed.

(** C5 (counterexample).  A path whose price product is at most 1 is
    accepted when [min_profit_bps] is negative: prices 1 and 0.5 give
    [profit_bps = -5000 > -6000].  And the profit is truncated toward zero, not
    floored: prices 1 and [1 - 2^-15] give [(P - 1) * 10000 = -0.305...],
    whose floor [-1] is not above [-1], yet the cycle gets [profit_bps = 0]
    and is accepted with [min_profit_bps = -1]. *)
Lemma cycle_accepted_without_gain :
  let path1 := [(1, mk_edge 11 RaydiumV4 1 1e9 25 0); (2, mk_edge 12 RaydiumV4 0.5 1e9 25 0)] in
  let path2 := [(1, mk_edge 11 RaydiumV4 1 1e9 25 0);
                (2, mk_edge 12 RaydiumV4 0.999969482421875 1e9 25 0)] in
  (Detect.path_price path1 <=? 1)%float = true /\
  match Detect.cycle_of_path 2 5 path1 with
  | Some c => total_profit_bps c = -5000 /\ (-6000 <? total_profit_bps c) = true
  | None => False
  end /\
  ((Detect.path_price path2 - 1) * 10000)%float = (-0.30517578125)%float /\
  match Detect.cycle_of_path 2 5 path2 with
  | Some c => total_profit_bps c = 0 /\ (-1 <? total_profit_bps c) = true
  | None => False
  end.
Proof. vm_compute. repeat split. Qed.

(** C5 (amended).  A reconstructed path is accepted, i.e. [reconstruct_cycle]
    builds a cycle from it and the cycle passes [total_profit_bps >
    min_profit_bps], if and only if [min_hops <= length <= max_hops] and
    [((P - 1) * 10000) as i64 > min_profit_bps], where [P] is the product of
    the leg prices and [as i64] truncates toward zero (saturating, NaN to 0);
    there is no separate test that [P] exceeds 1. *)
Theorem cycle_acceptance_iff :
  forall (min_hops max_hops : nat) (min_profit_bps : Z) (path : list (Pubkey * PoolEdge)),
  match Detect.cycle_of_path min_hops max_hops path with
  | Some c => (min_profit_bps <? total_profit_bps c) = true
  | None => False
  end <->
  (min_hops <= length path <= max_hops)%nat /\
  min_profit_bps < f64_as_i64 ((Detect.path_price path - 1) * 10000)%float.
Proof.
  intros mn mx mp path. split.
  - destruct (Detect.cycle_of_path mn mx path) as [c |] eqn:Hc; [| contradiction].
    destruct (cycle_of_path_some mn mx path c Hc) as [Hb ->]. simpl.
    intros H. apply Z.ltb_lt in H. split; assumption.
  - intros [Hb Hp]. rewrite cycle_of_path_in_bounds by exact Hb. simpl.
    apply Z.ltb_lt. exact Hp.
Qed.

Lemma cycle_acceptance_iff_witness :
  let path := [(1, mk_edge 11 RaydiumV4 1 1e9 25 0); (2, mk_edge 12 RaydiumV4 0.5 1e9 25 0)] in
  match Detect.cycle_of_path 2 5 path with
  | Some c => (-6000 <? total_profit_bps c) = true
  | None => False
  end.
Proof.
  intros path. apply (proj2 (cycle_acceptance_iff 2 5 (-6000) path)).
  split; [simpl; lia | vm_compute; reflexivity].
Defined.

(** ** Hop bounds of the returned cycles *)

Lemma fold_left_invariant {A B} (f : B -> A -> B) (Inv : B -> Prop) :
  (forall b a, Inv b -> Inv (f b a)) ->
  forall l b, Inv b -> Inv (fold_left f l b).
Proof. intros Hf l. induction l as [| a l IH]; intros b Hb; simpl; auto. Qed.

Lemma insert_desc_in (c x : ArbitrageCycle) (sorted : list ArbitrageCycle) :
  In x (Detect.insert_desc c sorted) -> x = c \/ In x sorted.
Proof.
  induction sorted as [| c' rest IH]; simpl.
  - intros [H | []]. left. symmetry. exact H.
  - destruct (total_profit_bps c' <? total_profit_bps c); simpl.
    + intros [H | [H | H]]; auto.
    + intros [H | H]; auto. destruct (IH H); auto.
Qed.

Lemma sort_by_profit_desc_in (cycles : list ArbitrageCycle) (x : ArbitrageCycle) :
  In x (Detect.sort_by_profit_desc cycles) -> In x cycles.
Proof.
  unfold Detect.sort_by_profit_desc.
  assert (H : forall acc, In x (fold_left (fun s c => Detect.insert_desc c s) cycles acc) ->
              In x acc \/ In x cycles).
  { induction cycles as [| c rest IH]; intros acc Hin; simpl in *; auto.
    destruct (IH _ Hin) as [H | H]; auto.
    destruct (insert_desc_in c x acc H) as [-> | H']; auto. }
  intros Hin. destruct (H [] Hin) as [[] | H']. exact H'.
Qed.

Lemma reconstruct_cycle_hops (preds : Detect.Predecessors) (start end_ : Pubkey)
  (min_hops max_hops : nat) (c : ArbitrageCycle) :
  Detect.reconstruct_cycle preds start end_ min_hops max_hops = Some c ->
  hops_ok min_hops max_hops c.
Proof.
  unfold Detect.reconstruct_cycle.
  destruct (Detect.walk _ _ _ _ _ _ _ _) as [path |]; [| discriminate].
  intros Hc. destruct (cycle_of_path_some _ _ _ _ Hc) as [Hb ->].
  unfold hops_ok. simpl. rewrite length_map. split; [reflexivity | exact Hb].
Qed.

Lemma scan_edge_hops dist preds min_hops max_hops min_profit_bps from_mint cycles edge :
  (forall c, In c cycles -> hops_ok min_hops max_hops c) ->
  forall c, In c (Detect.scan_edge dist preds min_hops max_hops min_profit_bps from_mint
                    cycles edge) -> hops_ok min_hops max_hops c.
Proof.
  intros Hall c. unfold Detect.scan_edge.
  destruct (lookup dist from_mint); [| apply Hall].
  destruct (_ <? _)%float; [| apply Hall].
  destruct (Detect.reconstruct_cycle preds from_mint (pool_pubkey edge) min_hops max_hops)
    as [cy |] eqn:Hr; [| apply Hall].
  destruct (min_profit_bps <? total_profit_bps cy); [| apply Hall].
  intros Hin. apply in_app_or in Hin. destruct Hin as [H | [<- | []]].
  - apply Hall. exact H.
  - exact (reconstruct_cycle_hops _ _ _ _ _ _ Hr).
Qed.

(** C6.  Every cycle returned by [find_negative_cycles] has [total_hops]
    equal to its number of legs, and [min_hops <= total_hops <= max_hops]. *)
Theorem find_negative_cycles_hop_bounds :
  forall (g : PriceGraph) (start_mint : Pubkey) (min_hops max_hops : nat)
    (min_profit_bps : Z) (c : ArbitrageCycle),
  In c (Detect.find_negative_cycles g start_mint min_hops max_hops min_profit_bps) ->
  total_hops c = length (legs c) /\ (min_hops <= total_hops c <= max_hops)%nat.
Proof.
  intros g s mn mx mp c. unfold Detect.find_negative_cycles.
  destruct (Detect.relax_rounds mx g [(s, 1%float)] []) as [dist preds].
  intros Hin. apply sort_by_profit_desc_in in Hin. revert c Hin.
  apply (fold_left_invariant _ (fun cs => forall c, In c cs -> hops_ok mn mx c)).
  - intros cs entry Hcs.
    apply (fold_left_invariant _ (fun cs => forall c, In c cs -> hops_ok mn mx c)).
    + intros cs' edge Hcs'. apply scan_edge_hops. exact Hcs'.
    + exact Hcs.
  - intros c [].
Qed.

Lemma find_negative_cycles_hop_bounds_witness :
  let g : PriceGraph := [(1, [mk_edge 2 RaydiumV4 0.5 1e9 25 0]);
                         (2, [mk_edge 1 RaydiumV4 0.5 1e9 25 0])] in
  let c := {| legs := [Detect.leg_of_edge (1, mk_edge 2 RaydiumV4 0.5 1e9 25 0);
                       Detect.leg_of_edge (2, mk_edge 1 RaydiumV4 0.5 1e9 25 0)];
              total_profit_bps := -7500; estimated_profit_lamports := 0; total_hops := 2 |} in
  In c (Detect.find_negative_cycles g 1 2 5 (-10000)) /\
  total_hops c = length (legs c) /\ (2 <= total_hops c <= 5)%nat.
Proof.
  intros g c.
  assert (Hin : In c (Detect.find_negative_cycles g 1 2 5 (-10000))).
  { vm_compute. left. reflexivity. }
  split; [exact Hin | exact (find_negative_cycles_hop_bounds g 1 2 5 (-10000) c Hin)].
Defined.

(** ** Forward and inverse edges *)










(** ** Discovery admission *)

Lemma identify_specific_dex_type_whitelisted (s dex prog : string) :
  Discovery.identify_specific_dex_type s = Some (dex, prog) ->
  In s Discovery.whitelisted_programs /\ prog = s.
Proof.
  unfold Discovery.identify_specific_dex_type, Discovery.whitelisted_programs.
  repeat match goal with
  | |- context [String.eqb ?a ?b] => destruct (String.eqb_spec a b) as [-> | ?]
  end;
  intros H; try discriminate; injection H as _ <-; simpl; tauto.
Qed.

Lemma insert_desc_by_in {A} (key : A -> float) (x y : A) (sorted : list A) :
  In y (Discovery.insert_desc_by key x sorted) -> y = x \/ In y sorted.
Proof.
  induction sorted as [| z rest IH]; simpl.
  - intros [H | []]. left. symmetry. exact H.
  - destruct (key z <? key x)%float; simpl.
    + intros [H | [H | H]]; auto.
    + intros [H | H]; auto. destruct (IH H); auto.
Qed.

Lemma sort_desc_unwrap_in {A} (key : A -> float) (xs ys : list A) (y : A) :
  Discovery.sort_desc_unwrap key xs = Some ys -> In y ys -> In y xs.
Proof.
  assert (Hfold : forall l acc, In y (fold_left (fun s x => Discovery.insert_desc_by key x s) l acc) ->
                  In y acc \/ In y l).
  { induction l as [| x rest IH]; intros acc Hin; simpl in *; auto.
    destruct (IH _ Hin) as [H | H]; auto.
    destruct (insert_desc_by_in key x y acc H) as [-> | H']; auto. }
  unfold Discovery.sort_desc_unwrap.
  destruct xs as [| a [| b rest]]; try (intros H; injection H as <-; tauto).
  destruct (existsb _ _); [discriminate |].
  intros H Hin. injection H as <-. destruct (Hfold (a :: b :: rest) [] Hin) as [[] | H]. exact H.
Qed.

Lemma dedup_strings_in (xs : list string) (x : string) :
  In x (Discovery.dedup_strings xs) -> In x xs.
Proof.
  induction xs as [| a rest IH]; simpl; [tauto |].
  destruct (existsb _ _); simpl; intuition.
Qed.

Lemma discovered_tokens_not_ignored (initial_pools : list Discovery.GeckoPoolData) (tok : string) :
  In tok (Discovery.discovered_tokens initial_pools) -> ~ In tok Discovery.ignored_mints.
Proof.
  unfold Discovery.discovered_tokens. intros Hin Hig.
  apply dedup_strings_in, filter_In in Hin. destruct Hin as [_ Hneg].
  apply negb_true_iff in Hneg.
  assert (Hex : existsb (String.eqb tok) Discovery.ignored_mints = true).
  { apply existsb_exists. exists tok. split; [exact Hig | apply String.eqb_refl]. }
  congruence.
Qed.

Section DiscoveryProofs.

Variable pubkey_from_str : string -> option Pubkey.
Variable get_account_owner : Pubkey -> option Pubkey.
Variable pubkey_to_string : Pubkey -> string.
Variable dexscreener_pairs : string -> option (list Discovery.DexscreenerPair).

Lemma scan_pair_verified config st dpair st' :
  (forall p, In p (Discovery.verified_pools st) ->
    Discovery.pool_verified pubkey_from_str get_account_owner pubkey_to_string p) ->
  Discovery.scan_pair pubkey_from_str get_account_owner pubkey_to_string config st dpair
    = ROk st' ->
  forall p, In p (Discovery.verified_pools st') ->
    Discovery.pool_verified pubkey_from_str get_account_owner pubkey_to_string p.
Proof.
  intros Hst. unfold Discovery.scan_pair.
  destruct (Discovery.base_token dpair) as [base |]; [| intros H; injection H as <-; exact Hst].
  destruct (Discovery.quote_token dpair) as [quote |]; [| intros H; injection H as <-; exact Hst].
  cbv zeta.
  destruct (if String.eqb _ _ then _ else _) as [side |];
    [| intros H; injection H as <-; exact Hst].
  unfold Discovery.verify_pool_on_chain.
  destruct (pubkey_from_str (Discovery.pair_address dpair)) as [pk |] eqn:Hpk; [| discriminate].
  destruct (get_account_owner pk) as [o |] eqn:Ho;
    [| intros H; injection H as <-; exact Hst].
  destruct (Discovery.identify_specific_dex_type (pubkey_to_string o))
    as [[dex prog] |] eqn:Hid; [| intros H; injection H as <-; exact Hst].
  destruct (identify_specific_dex_type_whitelisted _ _ _ Hid) as [Hwl Hprog].
  intros H. injection H as <-. simpl.
  destruct (_ && _); [| exact Hst].
  intros p Hin. apply in_app_or in Hin. destruct Hin as [Hin | [<- | []]].
  - exact (Hst p Hin).
  - exists pk, o. simpl. rewrite Hprog. repeat split; assumption.
Qed.

Lemma scan_pairs_verified config pairs :
  forall st st',
  (forall p, In p (Discovery.verified_pools st) ->
    Discovery.pool_verified pubkey_from_str get_account_owner pubkey_to_string p) ->
  Discovery.scan_pairs pubkey_from_str get_account_owner pubkey_to_string config st pairs
    = ROk st' ->
  forall p, In p (Discovery.verified_pools st') ->
    Discovery.pool_verified pubkey_from_str get_account_owner pubkey_to_string p.
Proof.
  induction pairs as [| dpair rest IH]; intros st st' Hst H; simpl in H.
  - injection H as <-. exact Hst.
  - destruct (Discovery.scan_pair _ _ _ config st dpair) as [st1 | |] eqn:H1;
      try discriminate.
    exact (IH st1 st' (scan_pair_verified config st dpair st1 Hst H1) H).
Qed.

Lemma process_token_admitted config tok tg :
  Discovery.process_token pubkey_from_str get_account_owner pubkey_to_string
    dexscreener_pairs config tok = ROk (Some tg) ->
  Discovery.token_address tg = tok /\
  forall p, In p (Discovery.pools tg) ->
    Discovery.pool_verified pubkey_from_str get_account_owner pubkey_to_string p.
Proof.
  unfold Discovery.process_token.
  destruct (dexscreener_pairs tok) as [pairs |].
  2: { destruct (_ <? _)%nat; discriminate. }
  destruct (Discovery.scan_pairs _ _ _ config _ pairs) as [st | |] eqn:Hscan; try discriminate.
  destruct (_ <? _)%nat; [discriminate |].
  destruct (Discovery.sort_desc_unwrap _ _) as [sorted |] eqn:Hsort; [| discriminate].
  intros H. injection H as <-. simpl. split; [reflexivity |].
  intros p Hin.
  refine (scan_pairs_verified config pairs _ st _ Hscan _ _); [intros q [] |].
  exact (sort_desc_unwrap_in _ _ _ _ Hsort Hin).
Qed.

Lemma collect_results_in config order tg :
  In tg (Discovery.collect_results pubkey_from_str get_account_owner pubkey_to_string
           dexscreener_pairs config order) ->
  exists tok, In tok order /\
    Discovery.process_token pubkey_from_str get_account_owner pubkey_to_string
      dexscreener_pairs config tok = ROk (Some tg).
Proof.
  unfold Discovery.collect_results. intros Hin.
  apply in_flat_map in Hin. destruct Hin as [tok [Htok Hin]].
  exists tok. split; [exact Htok |].
  destruct (Discovery.process_token _ _ _ _ config tok) as [[tg' |] | |];
    try contradiction.
  destruct (2 <=? _)%nat; [| contradiction].
  destruct Hin as [<- | []]. reflexivity.
Qed.

End DiscoveryProofs.

(** C9.  Whatever the order in which the per-token tasks complete (any
    [schedule] that only returns candidates it was given), every token of a
    snapshot that [run_discovery] emits has an address outside the three
    denylisted mints, and every pool of it was checked on chain: its address
    parses to a key whose fetched owner is one of the seven whitelisted
    programs, and its [program_id] is that owner. *)
Theorem run_discovery_admission :
  forall pubkey_from_str get_account_owner pubkey_to_string dexscreener_pairs config
    trending top (schedule : list string -> list string) now out,
  (forall l x, In x (schedule l) -> In x l) ->
  Discovery.run_discovery pubkey_from_str get_account_owner pubkey_to_string
    dexscreener_pairs config trending top schedule now = ROk out ->
  forall tg, In tg (Discovery.tokens out) ->
  ~ In (Discovery.token_address tg) Discovery.ignored_mints /\
  forall p, In p (Discovery.pools tg) ->
  exists pk o, pubkey_from_str (Discovery.pool_address p) = Some pk /\
    get_account_owner pk = Some o /\
    In (pubkey_to_string o) Discovery.whitelisted_programs /\
    Discovery.program_id p = pubkey_to_string o.
Proof.
  intros pfs gao pts dsp config trending top schedule now out Hsched Hrun tg Htg.
  unfold Discovery.run_discovery in Hrun.
  destruct trending as [tr | |]; [| discriminate | discriminate].
  destruct top as [tp | |]; [| discriminate | discriminate].
  cbv zeta in Hrun.
  destruct (Discovery.sort_desc_unwrap _ _) as [sorted |] eqn:Hsort; [| discriminate].
  destruct now as [ts |]; [| discriminate].
  injection Hrun as <-. simpl in Htg.
  pose proof (sort_desc_unwrap_in _ _ _ _ Hsort Htg) as Hin.
  destruct (collect_results_in pfs gao pts dsp config _ tg Hin) as [tok [Htok Hproc]].
  destruct (process_token_admitted pfs gao pts dsp config tok tg Hproc) as [Haddr Hpools].
  split.
  - rewrite Haddr. exact (discovered_tokens_not_ignored _ _ (Hsched _ _ Htok)).
  - exact Hpools.
Qed.

Lemma run_discovery_admission_witness :
  match sample_run_discovery with
  | ROk out =>
      match Discovery.tokens out with
      | tg :: _ =>
          ~ In (Discovery.token_address tg) Discovery.ignored_mints /\
          forall p, In p (Discovery.pools tg) ->
          exists pk o, sample_pubkey_from_str (Discovery.pool_address p) = Some pk /\
            Some 9 = Some o /\
            In Discovery.RAYDIUM_V4_PROGRAM Discovery.whitelisted_programs /\
            Discovery.program_id p = Discovery.RAYDIUM_V4_PROGRAM
      | [] => False
      end
  | _ => False
  end.
Proof.
  destruct sample_run_discovery as [out | |] eqn:Hrun; [| discriminate | discriminate].
  destruct (Discovery.tokens out) as [| tg rest] eqn:Htok.
  - vm_compute in Hrun. injection Hrun as <-. discriminate.
  - exact (run_discovery_admission sample_pubkey_from_str (fun _ => Some 9)
             (fun _ => Discovery.RAYDIUM_V4_PROGRAM)
             (fun _ => Some [sample_pair "P1"; sample_pair "P2"])
             {| Discovery.min_liquidity_usd := 0; Discovery.min_volume_h24 := 0 |}
             (ROk [{| Discovery.gecko_base_token_id := Some "solana_TOK"%string |}]) (ROk [])
             (fun l => l) (Some 0) out (fun l x H => H) Hrun tg
             (ltac:(rewrite Htok; left; reflexivity))).
Defined.

(** ** The amount search *)

Lemma update_legs_final (g : PriceGraph) (ls : list SwapLeg) :
  forall current final,
  Optimize.simulate_legs g ls current = Some final ->
  snd (Optimize.update_legs g ls current) = final.
Proof.
  induction ls as [| leg rest IH]; intros current final H; simpl in *.
  - injection H as <-. reflexivity.
  - destruct (Optimize.find_edge_in_graph g leg) as [edge |]; [| discriminate].
    destruct (Optimize.leg_step g leg edge current =? 0); [discriminate |].
    specialize (IH _ _ H).
    destruct (Optimize.update_legs g rest _) as [rest' fin]. simpl in *. exact IH.
Qed.

Lemma update_leg_amounts_profit (g : PriceGraph) (cycle : ArbitrageCycle) (amount profit : Z) :
  Optimize.simulate_cycle_with_amount g cycle amount = Some profit ->
  estimated_profit_lamports (Optimize.update_leg_amounts g cycle amount) = profit.
Proof.
  unfold Optimize.simulate_cycle_with_amount, Optimize.update_leg_amounts.
  destruct (Optimize.simulate_legs g (legs cycle) amount) as [final |] eqn:Hs; [| discriminate].
  destruct (amount <? final) eqn:Hlt; [| discriminate].
  intros Hp. injection Hp as <-. apply Z.ltb_lt in Hlt.
  pose proof (update_legs_final g (legs cycle) amount final Hs) as Hf.
  destruct (Optimize.update_legs g (legs cycle) amount) as [legs' fin]. simpl in *. subst fin.
  unfold u64_saturating_sub. lia.
Qed.

Lemma search_invariant (g : PriceGraph) (cycle : ArbitrageCycle) (minp H : Z) :
  0 <= H < 9223372036854775808 ->
  forall iters low high best bp,
  1000000 <= low <= high /\ high <= H ->
  (best = 0 /\ bp = 0) \/
  (1000000 <= best <= H /\ Optimize.simulate_cycle_with_amount g cycle best = Some bp /\
   0 < bp /\ minp < bp) ->
  let '(best', bp') := Optimize.search iters g cycle minp low high best bp in
  (best' = 0 /\ bp' = 0) \/
  (1000000 <= best' <= H /\ Optimize.simulate_cycle_with_amount g cycle best' = Some bp' /\
   0 < bp' /\ minp < bp').
Proof.
  intros HH iters. induction iters as [| iters IH]; intros low high best bp Hb Hbest; simpl.
  - exact Hbest.
  - assert (Hmid : u64_add low high / 2 = (low + high) / 2).
    { unfold u64_add. replace u64_modulus with 18446744073709551616 by reflexivity.
      rewrite Z.mod_small; [reflexivity | lia]. }
    rewrite Hmid.
    assert (Hm : low <= (low + high) / 2 <= high).
    { split; [apply Z.div_le_lower_bound | apply Z.div_le_upper_bound]; lia. }
    assert (Hnn : 0 <= bp) by (destruct Hbest as [[_ ->] | (_ & _ & ? & _)]; lia).
    destruct (Optimize.simulate_cycle_with_amount g cycle ((low + high) / 2)) as [profit |] eqn:Hs.
    + destruct (bp <? profit) eqn:H1; destruct (minp <? profit) eqn:H2; simpl;
        try (apply IH; [lia | exact Hbest]).
      apply Z.ltb_lt in H1. apply Z.ltb_lt in H2.
      apply IH; [lia |]. right. repeat split; try lia. exact Hs.
    + apply IH; [lia | exact Hbest].
Qed.

(** C7.  With [high = max_capital * capital_pct / 100] (the [u64] product, as
    the code computes it): if [high < 1_000_000], [optimize_amount] returns
    none; and whenever it returns [Some amount], then [1_000_000 <= amount <=
    high], re-simulating the cycle at [amount] gives a profit [p] with [0 < p]
    and [min_profit < p], and the returned cycle is the cycle with updated leg
    amounts, whose [estimated_profit_lamports] is [p], i.e. the final amount
    minus the initial one. *)
Theorem optimize_amount_bracket :
  forall (g : PriceGraph) (cycle : ArbitrageCycle)
    (max_capital_lamports capital_per_cycle_percent min_profit_lamports : Z),
  let high := u64_mul max_capital_lamports capital_per_cycle_percent / 100 in
  let result := Optimize.optimize_amount g cycle max_capital_lamports
                  capital_per_cycle_percent min_profit_lamports in
  (high < 1000000 -> fst result = None) /\
  (forall amount, fst result = Some amount ->
   1000000 <= amount <= high /\
   exists profit,
     Optimize.simulate_cycle_with_amount g cycle amount = Some profit /\
     0 < profit /\ min_profit_lamports < profit /\
     snd result = Optimize.update_leg_amounts g cycle amount /\
     estimated_profit_lamports (snd result) = profit).
Proof.
  intros g cycle maxc pct minp high result.
  assert (HH : 0 <= high < 9223372036854775808).
  { subst high. unfold u64_mul. replace u64_modulus with 18446744073709551616 by reflexivity.
    pose proof (Z.mod_pos_bound (maxc * pct) 18446744073709551616 ltac:(lia)).
    split; [apply Z.div_pos; lia |].
    apply Z.div_lt_upper_bound; lia. }
  subst result. unfold Optimize.optimize_amount. fold high.
  destruct (high <? 1000000) eqn:Hlow.
  - split; [reflexivity | intros amount H; discriminate].
  - apply Z.ltb_ge in Hlow.
    pose proof (search_invariant g cycle minp high HH 20 1000000 high 0 0
                  ltac:(lia) (or_introl (conj eq_refl eq_refl))) as Hinv.
    destruct (Optimize.search 20 g cycle minp 1000000 high 0 0) as [best bp].
    split; [intros H; lia |].
    destruct (0 <? best) eqn:H1; destruct (minp <? bp) eqn:H2; simpl;
      try (intros amount H; discriminate).
    intros amount H. injection H as <-.
    apply Z.ltb_lt in H1.
    destruct Hinv as [[-> _] | (Hr & Hs & Hp & Hm)]; [lia |].
    split; [exact Hr |]. exists bp. repeat split; try assumption.
    exact (update_leg_amounts_profit g cycle best bp Hs).
Qed.

Lemma optimize_amount_bracket_witness :
  (u64_mul 1000 20 / 100 < 1000000 /\
   fst (Optimize.optimize_amount sample_opt_graph sample_opt_cycle 1000 20 0) = None) /\
  (fst (Optimize.optimize_amount sample_opt_graph sample_opt_cycle 2000000000 20 0)
     = Some 399999619 /\
   1000000 <= 399999619 <= u64_mul 2000000000 20 / 100 /\
   exists profit,
     Optimize.simulate_cycle_with_amount sample_opt_graph sample_opt_cycle 399999619
       = Some profit /\ 0 < profit /\ 0 < profit /\
     snd (Optimize.optimize_amount sample_opt_graph sample_opt_cycle 2000000000 20 0)
       = Optimize.update_leg_amounts sample_opt_graph sample_opt_cycle 399999619 /\
     estimated_profit_lamports
       (snd (Optimize.optimize_amount sample_opt_graph sample_opt_cycle 2000000000 20 0))
       = profit).
Proof.
  split.
  - assert (H : u64_mul 1000 20 / 100 < 1000000) by (vm_compute; reflexivity).
    split; [exact H | exact (proj1 (optimize_amount_bracket _ _ 1000 20 0) H)].
  - assert (H : fst (Optimize.optimize_amount sample_opt_graph sample_opt_cycle 2000000000 20 0)
                  = Some 399999619) by (vm_compute; reflexivity).
    split; [exact H | exact (proj2 (optimize_amount_bracket _ _ 2000000000 20 0) _ H)].
Defined.

(** ** Fees and slippage of the simulation *)

Lemma for_each_pool_Forall {P} (Q : AddEdge -> Prop) (body : P -> option (list AddEdge)) :
  forall pools, (forall p calls, In p pools -> body p = Some calls -> Forall Q calls) ->
  forall calls, for_each_pool body pools = Some calls -> Forall Q calls.
Proof.
  intros pools. induction pools as [| p rest IH]; intros Hbody calls H; simpl in H.
  - injection H as <-. constructor.
  - destruct (body p) as [c |] eqn:Hp; [| discriminate].
    destruct (for_each_pool body rest) as [c' |]; [| discriminate].
    injection H as <-. apply Forall_app. split.
    + exact (Hbody _ _ (or_introl eq_refl) Hp).
    + apply (IH (fun q cs Hq => Hbody q cs (or_intror Hq))). reflexivity.
Qed.

Definition fee_ok (c : AddEdge) : Prop := 0 <= fee_bps (snd c) <= 100.

Lemma ingestion_calls_fee_ok get_account clmm_load_checked whirlpool_try_deserialize
  dlmm_load_checked heaven_parse powi pancakeswap_program_id byreal_program_id pd sol_mint calls :
  ingestion_calls get_account clmm_load_checked whirlpool_try_deserialize dlmm_load_checked
    heaven_parse powi pancakeswap_program_id byreal_program_id pd sol_mint = Some calls ->
  Forall fee_ok calls.
Proof.
  unfold ingestion_calls. apply for_each_pool_Forall. simpl.
  intros process cs Hin.
  repeat destruct Hin as [<- | Hin]; try contradiction;
    unfold process_raydium_pools, process_raydium_cp_pools, process_pump_pools,
      process_amm_vault_pools, process_dlmm_pools, process_whirlpool_pools,
      process_raydium_clmm_pools, process_meteora_damm_pools,
      process_meteora_damm_v2_pools, process_vertigo_pools, process_heaven_pools,
      process_futarchy_pools, process_humidifi_pools, process_xsol_pools,
      process_pancakeswap_pools, process_byreal_pools, process_clmm_fork_pools;
    apply for_each_pool_Forall; intros pool c _;
    unfold clmm_state_edges, clmm_pair_edges; pool_body_forall;
    unfold fee_ok; simpl; lia.
Qed.

Definition edge_fee_ok (e : PoolEdge) : Prop := 0 <= fee_bps e <= 100.

Lemma add_edge_in (g : PriceGraph) (f t : Pubkey) (e : PoolEdge) (k : Pubkey) (es : list PoolEdge) :
  In (k, es) (add_edge g f t e) ->
  In (k, es) g \/ (exists es0, In (k, es0) g /\ es = es0 ++ [e]) \/ es = [e].
Proof.
  induction g as [| [k0 es0] rest IH]; simpl.
  - intros [H | []]. injection H as _ <-. auto.
  - destruct (Z.eqb k0 f); simpl.
    + intros [H | H].
      * injection H as -> <-. right. left. exists es0. auto.
      * auto.
    + intros [H | H]; [auto |].
      destruct (IH H) as [H' | [[es1 [H1 H2]] | H']]; auto.
      right. left. exists es1. auto.
Qed.

Lemma ingested_fees (g : PriceGraph) :
  ingested g -> forall k es, In (k, es) g -> Forall edge_fee_ok es.
Proof.
  induction 1 as [| g ga cl wd dl hp pw pid bid mpds sol g' Hg IH Htick].
  - intros k es [].
  - clear Hg. revert g IH Htick. induction mpds as [| pd rest IHm]; intros g IH Htick; simpl in Htick.
    + injection Htick as <-. exact IH.
    + unfold update_from_mint_pool_data in Htick.
      destruct (ingestion_calls ga cl wd dl hp pw pid bid pd sol) as [calls |] eqn:Hc;
        [| discriminate].
      apply (IHm (apply_add_edges g calls)); [| exact Htick].
      pose proof (ingestion_calls_fee_ok _ _ _ _ _ _ _ _ _ _ _ Hc) as Hf.
      clear Hc Htick IHm. revert g IH.
      unfold apply_add_edges. induction calls as [| [[f t] e] cs IHc]; intros g IH; simpl.
      * exact IH.
      * inversion Hf as [| ? ? He Hcs]; subst. apply IHc; [exact Hcs |].
        intros k es Hin.
        destruct (add_edge_in g f t e k es Hin) as [H | [[es0 [H ->]] | ->]].
        -- exact (IH _ _ H).
        -- apply Forall_app. split; [exact (IH _ _ H) | constructor; [exact He | constructor]].
        -- constructor; [exact He | constructor].
Qed.

Lemma edges_of_in (g : PriceGraph) (k : Pubkey) (es : list PoolEdge) :
  edges_of g k = Some es -> In (k, es) g.
Proof.
  induction g as [| [k0 es0] rest IH]; simpl; [discriminate |].
  destruct (Z.eqb_spec k k0) as [-> | _]; [intros H; injection H as <-; auto | auto].
Qed.

Lemma find_edge_in_graph_fee (g : PriceGraph) (leg : SwapLeg) (edge : PoolEdge) :
  ingested g -> Optimize.find_edge_in_graph g leg = Some edge -> edge_fee_ok edge.
Proof.
  intros Hg. unfold Optimize.find_edge_in_graph.
  destruct (edges_of g (from_mint leg)) as [es |] eqn:He; [| discriminate].
  intros Hf. apply find_some in Hf. destruct Hf as [Hin _].
  pose proof (ingested_fees g Hg _ _ (edges_of_in _ _ _ He)) as Hall.
  rewrite Forall_forall in Hall. exact (Hall _ Hin).
Qed.

Lemma fee_multiplier_positive_all :
  forallb (fun n => (0 <? Optimize.fee_multiplier (Z.of_nat n))%float) (seq 0 201) = true.
Proof. vm_compute. reflexivity. Qed.

Lemma fee_multiplier_positive (eff : Z) :
  0 <= eff <= 200 -> (0 <? Optimize.fee_multiplier eff)%float = true.
Proof.
  intros H. pose proof fee_multiplier_positive_all as Hall.
  rewrite forallb_forall in Hall.
  specialize (Hall (Z.to_nat eff)). rewrite Z2Nat.id in Hall by lia.
  apply Hall. apply in_seq. lia.
Qed.

Lemma u64_add_small (a b : Z) : 0 <= a -> 0 <= b -> a + b < u64_modulus -> u64_add a b = a + b.
Proof. intros. unfold u64_add. apply Z.mod_small. lia. Qed.

Lemma u64_add_nonneg (a b : Z) : 0 <= u64_add a b.
Proof. unfold u64_add, u64_modulus. apply Z.mod_pos_bound. lia. Qed.

Lemma digits2_pos_size (p : positive) : digits2_pos p = Pos.size p.
Proof. induction p; simpl; congruence. Qed.

Lemma shr_1_m (mrs : shr_record) : 0 <= shr_m mrs -> shr_m (shr_1 mrs) = shr_m mrs / 2.
Proof.
  destruct mrs as [m r s]. simpl. intros H.
  destruct m as [| [p | p |] | p]; simpl; try reflexivity; try lia.
  - rewrite Pos2Z.inj_xI. rewrite Z.add_comm, Z.mul_comm, Z.div_add by lia. reflexivity.
  - rewrite Pos2Z.inj_xO, Z.mul_comm, Z.div_mul by lia. reflexivity.
Qed.

Lemma iter_shr_1_m (p : positive) (mrs : shr_record) :
  0 <= shr_m mrs -> shr_m (SpecFloat.iter_pos shr_1 p mrs) = shr_m mrs / 2 ^ Zpos p.
Proof.
  revert mrs. induction p as [p IH | p IH |]; intros mrs H; cbn [SpecFloat.iter_pos].
  - assert (H1 : 0 <= shr_m (shr_1 mrs)) by (rewrite shr_1_m by lia; apply Z.div_pos; lia).
    assert (H2 : 0 <= shr_m (SpecFloat.iter_pos shr_1 p (shr_1 mrs)))
      by (rewrite IH by lia; apply Z.div_pos; [lia | apply Z.pow_pos_nonneg; lia]).
    rewrite IH, IH, shr_1_m by lia.
    assert (0 < 2 ^ Zpos p) by (apply Z.pow_pos_nonneg; lia).
    rewrite !Z.div_div by lia.
    replace (Zpos p~1) with (Zpos p + Zpos p + 1) by lia.
    rewrite !Z.pow_add_r by lia. f_equal. ring.
  - assert (H2 : 0 <= shr_m (SpecFloat.iter_pos shr_1 p mrs))
      by (rewrite IH by lia; apply Z.div_pos; [lia | apply Z.pow_pos_nonneg; lia]).
    assert (0 < 2 ^ Zpos p) by (apply Z.pow_pos_nonneg; lia).
    rewrite IH, IH by lia. rewrite Z.div_div by lia.
    replace (Zpos p~0) with (Zpos p + Zpos p) by lia.
    rewrite Z.pow_add_r by lia. reflexivity.
  - rewrite shr_1_m by lia. reflexivity.
Qed.

Lemma bpow_pos (e : Z) : (0 < bpow e)%R.
Proof. apply powerRZ_lt. lra. Qed.

Lemma bpow_add (a b : Z) : bpow (a + b) = (bpow a * bpow b)%R.
Proof. apply powerRZ_add. lra. Qed.

Lemma bpow_nonneg_IZR (k : Z) : 0 <= k -> bpow k = IZR (2 ^ k).
Proof.
  intros Hk. destruct k as [| p | p]; [reflexivity | | lia].
  unfold bpow. rewrite <- Zpower_pos_powerRZ. reflexivity.
Qed.

Lemma bpow_le (a b : Z) : a <= b -> (bpow a <= bpow b)%R.
Proof.
  intros H. replace b with (a + (b - a)) by lia. rewrite bpow_add, (bpow_nonneg_IZR (b - a)) by lia.
  pose proof (bpow_pos a). assert (1 <= 2 ^ (b - a)) by (pose proof (Z.pow_pos_nonneg 2 (b - a)); lia).
  apply IZR_le in H1. nra.
Qed.

Lemma fval_le (m m' e : Z) : m <= m' -> (fval m e <= fval m' e)%R.
Proof. intros H. unfold fval. apply IZR_le in H. pose proof (bpow_pos e). nra. Qed.

Lemma fval_shift (m e k : Z) : 0 <= k -> fval m (e + k) = fval (m * 2 ^ k) e.
Proof.
  intros Hk. unfold fval. rewrite bpow_add, (bpow_nonneg_IZR k), mult_IZR by lia. ring.
Qed.

Lemma fval_add (m m' e : Z) : fval (m + m') e = (fval m e + fval m' e)%R.
Proof. unfold fval. rewrite plus_IZR. ring. Qed.

Lemma fval_one (e : Z) : fval 1 e = bpow e.
Proof. unfold fval. ring. Qed.

Lemma fval_div_le (m e k : Z) : 0 <= m -> 0 <= k -> (fval (m / 2 ^ k) (e + k) <= fval m e)%R.
Proof.
  intros Hm Hk. rewrite fval_shift by lia. apply fval_le.
  assert (0 < 2 ^ k) by (apply Z.pow_pos_nonneg; lia).
  pose proof (Z.mul_div_le m (2 ^ k) H). lia.
Qed.

Lemma shr_record_of_loc_m (m : Z) (l : location) : shr_m (shr_record_of_loc m l) = m.
Proof. destruct l as [| []]; reflexivity. Qed.

Lemma shr_fexp_spec (mx ex : Z) (lx : location) :
  0 <= mx ->
  let k := Z.max 0 (fexp prec emax (Zdigits2 mx + ex) - ex) in
  shr_m (fst (shr_fexp prec emax mx ex lx)) = mx / 2 ^ k /\ snd (shr_fexp prec emax mx ex lx) = ex + k.
Proof.
  intros Hm k. unfold shr_fexp, shr. subst k.
  destruct (fexp prec emax (Zdigits2 mx + ex) - ex) as [| p | p] eqn:E; simpl.
  - rewrite shr_record_of_loc_m, Z.div_1_r. lia.
  - rewrite iter_shr_1_m; rewrite shr_record_of_loc_m; [| lia]. split; [reflexivity | lia].
  - rewrite shr_record_of_loc_m, Z.div_1_r. lia.
Qed.

Lemma round_nearest_even_range (m : Z) (l : location) :
  m <= round_nearest_even m l <= m + 1.
Proof. destruct l as [| []]; simpl; try lia. destruct (Z.even m); lia. Qed.

Lemma round_aux_le (mx ex : Z) (lx : location) :
  0 <= mx ->
  (fval mx ex + bpow (Z.max ex (fexp prec emax (Zdigits2 mx + ex))) < bpow 972)%R ->
  sf_le (binary_round_aux prec emax false mx ex lx)
        (fval mx ex + bpow (Z.max ex (fexp prec emax (Zdigits2 mx + ex)))).
Proof.
  set (B := (fval mx ex + bpow (Z.max ex (fexp prec emax (Zdigits2 mx + ex))))%R).
  intros Hm HB. unfold binary_round_aux.
  pose proof (shr_fexp_spec mx ex lx Hm) as Hs1. cbv zeta in Hs1. destruct Hs1 as [E1 E1'].
  destruct (shr_fexp prec emax mx ex lx) as [mrs1 e1]. simpl in E1, E1'.
  set (k1 := Z.max 0 (fexp prec emax (Zdigits2 mx + ex) - ex)) in *.
  assert (Hk1 : 0 <= k1) by lia.
  assert (Hp1 : 0 < 2 ^ k1) by (apply Z.pow_pos_nonneg; lia).
  assert (Hm1 : 0 <= shr_m mrs1) by (rewrite E1; apply Z.div_pos; lia).
  set (m2 := round_nearest_even (shr_m mrs1) (loc_of_shr_record mrs1)).
  pose proof (round_nearest_even_range (shr_m mrs1) (loc_of_shr_record mrs1)) as Hr.
  fold m2 in Hr.
  pose proof (shr_fexp_spec m2 e1 loc_Exact ltac:(lia)) as Hs2. cbv zeta in Hs2. destruct Hs2 as [E2 E2'].
  destruct (shr_fexp prec emax m2 e1 loc_Exact) as [mrs2 e2]. simpl in E2, E2'.
  set (k2 := Z.max 0 (fexp prec emax (Zdigits2 m2 + e1) - e1)) in *.
  assert (Hk2 : 0 <= k2) by lia.
  assert (Hp2 : 0 < 2 ^ k2) by (apply Z.pow_pos_nonneg; lia).
  assert (Hbound : (fval (shr_m mrs2) e2 <= B)%R).
  { rewrite E2, E2'. eapply Rle_trans; [apply fval_div_le; lia |].
    eapply Rle_trans; [apply fval_le; exact (proj2 Hr) |]. rewrite fval_add, fval_one.
    unfold B. apply Rplus_le_compat.
    - rewrite E1, E1'. apply fval_div_le; lia.
    - right. f_equal. rewrite E1'. unfold k1. lia. }
  assert (Hm2 : 0 <= shr_m mrs2) by (rewrite E2; apply Z.div_pos; lia).
  destruct (shr_m mrs2) as [| m | m] eqn:Em; [exact I | | lia].
  destruct (e2 <=? emax - prec) eqn:Ee; simpl; [exact Hbound |].
  apply Z.leb_gt in Ee. change (emax - prec) with 971 in Ee.
  assert (H1 : (fval 1 e2 <= fval (Zpos m) e2)%R) by (apply fval_le; lia).
  rewrite fval_one in H1. pose proof (bpow_le 972 e2 ltac:(lia)). lra.
Qed.

Lemma digits2_bounds (p : positive) :
  2 ^ (Zdigits2 (Zpos p) - 1) <= Zpos p < 2 ^ Zdigits2 (Zpos p).
Proof.
  simpl Zdigits2. rewrite digits2_pos_size.
  pose proof (Pos.size_le p) as H1. pose proof (Pos.size_gt p) as H2.
  apply Pos2Z.pos_le_pos in H1. apply Pos2Z.pos_lt_pos in H2.
  rewrite Pos2Z.inj_pow in H1, H2. rewrite (Pos2Z.inj_xO p) in H1.
  split; [| exact H2].
  assert (E : 2 ^ Zpos (Pos.size p) = 2 * 2 ^ (Zpos (Pos.size p) - 1)).
  { rewrite <- Z.pow_succ_r by lia. f_equal. lia. }
  lia.
Qed.

Lemma round_excess_le (p : positive) (e : Z) :
  (bpow (Z.max e (fexp prec emax (Zdigits2 (Zpos p) + e))) <= fval (Zpos p) e + bpow (-1074))%R.
Proof.
  pose proof (digits2_bounds p) as [Hd _].
  assert (Hfe : (bpow e <= fval (Zpos p) e)%R) by (rewrite <- fval_one; apply fval_le; lia).
  assert (Hfd : (bpow (Zdigits2 (Zpos p) + e - 53) <= fval (Zpos p) e)%R).
  { assert (Hd1 : 1 <= Zdigits2 (Zpos p)) by (simpl; lia).
    eapply Rle_trans; [apply bpow_le with (b := Zdigits2 (Zpos p) - 1 + e) |].
    - lia.
    - rewrite bpow_add, (bpow_nonneg_IZR (Zdigits2 (Zpos p) - 1)) by lia. unfold fval.
      pose proof (bpow_pos e). apply IZR_le in Hd. nra. }
  pose proof (bpow_pos e). pose proof (bpow_pos (-1074)).
  unfold fexp, emin. change (3 - emax - prec) with (-1074). change prec with 53.
  destruct (Z.max_spec (Zdigits2 (Zpos p) + e - 53) (-1074)) as [[_ ->] | [_ ->]];
  match goal with |- context [Z.max ?a ?b] =>
    destruct (Z.max_spec a b) as [[_ ->] | [_ ->]] end; lra.
Qed.

Lemma sf_le_mono (x : spec_float) (B B' : R) : sf_le x B -> (B <= B')%R -> sf_le x B'.
Proof. destruct x as [| | | [] m e]; simpl; auto; lra. Qed.

Lemma fval_mul (a b e f : Z) : fval (a * b) (e + f) = (fval a e * fval b f)%R.
Proof. unfold fval. rewrite mult_IZR, bpow_add. ring. Qed.

Lemma fval_pos_nonneg (p : positive) (e : Z) : (0 <= fval (Zpos p) e)%R.
Proof. unfold fval. pose proof (bpow_pos e). assert (0 < IZR (Zpos p))%R by (apply IZR_lt; lia). nra. Qed.

Lemma SFmul_le (x : spec_float) (my : positive) (ey : Z) (Bx : R) :
  sf_le x Bx -> (0 <= Bx)%R ->
  (2 * Bx * fval (Zpos my) ey + bpow (-1074) < bpow 972)%R ->
  sf_le (SFmul prec emax x (S754_finite false my ey)) (2 * Bx * fval (Zpos my) ey + bpow (-1074)).
Proof.
  intros Hx HB Hlt. destruct x as [s | s | | s mx ex]; cbn [sf_le SFmul] in Hx |- *; try contradiction; auto.
  destruct s; [contradiction |]. simpl xorb.
  pose proof (round_excess_le (mx * my) (ex + ey)) as Hex.
  pose proof (fval_pos_nonneg my ey). pose proof (fval_pos_nonneg mx ex).
  assert (Hp : (fval (Zpos (mx * my)) (ex + ey) <= Bx * fval (Zpos my) ey)%R).
  { rewrite Pos2Z.inj_mul, fval_mul. nra. }
  eapply sf_le_mono; [apply round_aux_le; [lia |] | ]; lra.
Qed.

Lemma SFdiv_le (x : spec_float) (my : positive) (ey : Z) (Bx L : R) :
  sf_le x Bx -> (0 <= Bx)%R -> (0 < L)%R -> (L <= fval (Zpos my) ey)%R ->
  (2 * (Bx / L) + 2 * bpow (-1074) < bpow 972)%R ->
  sf_le (SFdiv prec emax x (S754_finite false my ey)) (2 * (Bx / L) + 2 * bpow (-1074)).
Proof.
  intros Hx HB HL HLy Hlt. destruct x as [s | s | | s mx ex]; cbn [sf_le SFdiv] in Hx |- *; try contradiction; auto.
  destruct s; [contradiction |]. simpl xorb.
  set (X := fval (Zpos mx) ex) in *. set (Y := fval (Zpos my) ey) in *.
  assert (HXB : (X / Y <= Bx / L)%R).
  { assert (H0X : (0 <= X)%R) by apply fval_pos_nonneg. unfold Rdiv.
    apply Rmult_le_compat; [exact H0X | left; apply Rinv_0_lt_compat; lra | exact Hx |].
    apply Rinv_le_contravar; lra. }
  assert (HY : (0 < Y)%R) by lra.
  unfold SFdiv_core_binary.
  set (d1 := Zdigits2 (Zpos mx)). set (d2 := Zdigits2 (Zpos my)).
  set (e' := Z.min (fexp prec emax (d1 + ex - (d2 + ey))) (ex - ey)).
  assert (Hs : 0 <= ex - ey - e') by lia.
  set (m' := match ex - ey - e' with Zpos _ => Z.shiftl (Zpos mx) (ex - ey - e') | Z0 => Zpos mx | Zneg _ => 0 end).
  assert (Hm' : m' = Zpos mx * 2 ^ (ex - ey - e')).
  { unfold m'. destruct (ex - ey - e'); [lia | | lia]. apply Z.shiftl_mul_pow2. lia. }
  pose proof (Z_div_mod m' (Zpos my) ltac:(lia)) as Hdm.
  destruct (Z.div_eucl m' (Zpos my)) as [q r]. destruct Hdm as [Hq Hr].
  assert (Hq0 : 0 <= q).
  { assert (0 < 2 ^ (ex - ey - e')) by (apply Z.pow_pos_nonneg; lia). nia. }
  (* The quotient, scaled back, is at most X / Y. *)
  assert (HqY : (fval q e' * Y <= X)%R).
  { unfold Y, X. rewrite <- fval_mul.
    assert (E : fval (Zpos mx) ex = fval (Zpos mx * 2 ^ (ex - ey - e')) (e' + ey))
      by (rewrite <- fval_shift by lia; f_equal; lia).
    rewrite E. apply fval_le. nia. }
  assert (HqXY : (fval q e' <= X / Y)%R).
  { apply (Rmult_le_reg_r Y); [exact HY |]. unfold Rdiv.
    rewrite Rmult_assoc, Rinv_l by lra. lra. }
  pose proof (bpow_pos (-1074)) as Ht.
  assert (Hexc : (bpow (Z.max e' (fexp prec emax (Zdigits2 q + e'))) <= X / Y + bpow (-1074))%R).
  { destruct q as [| pq | pq]; [| | lia].
    - (* A zero quotient: the exponent [e'] is small. *)
      assert (HeY : (bpow e' * Y <= X)%R \/ e' <= -1074).
      { unfold e', fexp, emin. change (3 - emax - prec) with (-1074). change prec with 53.
        destruct (Z.max_spec (d1 + ex - (d2 + ey) - 53) (-1074)) as [[_ E] | [_ E]]; rewrite E.
        - right. lia.
        - left. pose proof (digits2_bounds mx) as [Hd1 _]. pose proof (digits2_bounds my) as [_ Hd2].
          fold d1 in Hd1. fold d2 in Hd2.
          assert (HY2 : (Y <= bpow (d2 + ey))%R).
          { unfold Y. rewrite bpow_add, (bpow_nonneg_IZR d2) by (unfold d2; simpl; lia).
            unfold fval. pose proof (bpow_pos ey).
            assert (Hd2' : Zpos my <= 2 ^ d2) by lia. apply IZR_le in Hd2'. nra. }
          assert (HX1 : (bpow (d1 - 1 + ex) <= X)%R).
          { unfold X. assert (1 <= d1) by (unfold d1; simpl; lia).
            rewrite bpow_add, (bpow_nonneg_IZR (d1 - 1)) by lia.
            unfold fval. pose proof (bpow_pos ex). apply IZR_le in Hd1. nra. }
          pose proof (bpow_pos (Z.min (d1 + ex - (d2 + ey) - 53) (ex - ey))).
          assert (bpow (Z.min (d1 + ex - (d2 + ey) - 53) (ex - ey) + (d2 + ey)) <= bpow (d1 - 1 + ex))%R
            by (apply bpow_le; lia).
          rewrite bpow_add in H0. nra. }
      assert (HbX : (bpow e' <= X / Y + bpow (-1074))%R).
      { destruct HeY as [HeY | HeY].
        - assert (bpow e' <= X / Y)%R.
          { apply (Rmult_le_reg_r Y); [exact HY |]. unfold Rdiv.
            rewrite Rmult_assoc, Rinv_l by lra. lra. }
          lra.
        - pose proof (bpow_le _ _ HeY). assert (0 <= X)%R by apply fval_pos_nonneg.
          assert (0 <= X / Y)%R by (unfold Rdiv; apply Rmult_le_pos; [lra | apply Rlt_le, Rinv_0_lt_compat; lra]).
          lra. }
      simpl Zdigits2. unfold fexp, emin. change (3 - emax - prec) with (-1074). change prec with 53.
      rewrite Z.add_0_l.
      pose proof (bpow_le (e' - 53) e' ltac:(lia)).
      assert (0 <= X)%R by apply fval_pos_nonneg.
      assert (0 <= X / Y)%R by (unfold Rdiv; apply Rmult_le_pos; [lra | apply Rlt_le, Rinv_0_lt_compat; lra]).
      repeat match goal with |- context [Z.max ?a ?b] =>
        destruct (Z.max_spec a b) as [[_ E] | [_ E]]; rewrite E; clear E end; lra.
    - pose proof (round_excess_le pq e'). lra. }
  assert (0 <= X)%R by apply fval_pos_nonneg.
  eapply sf_le_mono; [apply round_aux_le; [lia |] |]; lra.
Qed.

Lemma Zdigits2_unique (m d : Z) : 1 <= d -> 2 ^ (d - 1) <= m < 2 ^ d -> Zdigits2 m = d.
Proof.
  intros Hd Hm. assert (Hm0 : 0 < m) by (pose proof (Z.pow_pos_nonneg 2 (d - 1)); lia).
  destruct m as [| p | p]; try lia.
  pose proof (digits2_bounds p) as [Hl Hu].
  assert (HD : 1 <= Zdigits2 (Zpos p)) by (simpl; lia).
  destruct (Z.lt_trichotomy (Zdigits2 (Zpos p)) d) as [Hlt | [Heq | Hgt]]; [| exact Heq |].
  - pose proof (Z.pow_le_mono_r 2 (Zdigits2 (Zpos p)) (d - 1) ltac:(lia) ltac:(lia)). lia.
  - pose proof (Z.pow_le_mono_r 2 d (Zdigits2 (Zpos p) - 1) ltac:(lia) ltac:(lia)). lia.
Qed.

Lemma binary_normalize_valid_high (n : Z) :
  2 ^ 63 <= n < 2 ^ 64 -> valid_binary (binary_normalize prec emax n 0 false) = true.
Proof.
  intros Hn. destruct n as [| p | p]; try lia.
  assert (Hd : Zdigits2 (Zpos p) = 64) by (apply Zdigits2_unique; lia).
  unfold binary_normalize, binary_round.
  change (Zpos (digits2_pos p)) with (Zdigits2 (Zpos p)). rewrite Hd.
  change (shl_align p 0 (fexp prec emax (64 + 0))) with (p, 0).
  unfold binary_round_aux.
  pose proof (shr_fexp_spec (Zpos p) 0 loc_Exact ltac:(lia)) as Hs1. cbv zeta in Hs1.
  rewrite Hd in Hs1. change (Z.max 0 (fexp prec emax (64 + 0) - 0)) with 11 in Hs1.
  destruct Hs1 as [E1 E1'].
  destruct (shr_fexp prec emax (Zpos p) 0 loc_Exact) as [mrs1 e1]. simpl in E1, E1'. subst e1.
  assert (Hm1 : 2 ^ 52 <= shr_m mrs1 < 2 ^ 53).
  { rewrite E1. split.
    - apply Z.div_le_lower_bound; lia.
    - apply Z.div_lt_upper_bound; lia. }
  set (m2 := round_nearest_even (shr_m mrs1) (loc_of_shr_record mrs1)).
  pose proof (round_nearest_even_range (shr_m mrs1) (loc_of_shr_record mrs1)) as Hr. fold m2 in Hr.
  pose proof (shr_fexp_spec m2 11 loc_Exact ltac:(lia)) as Hs2. cbv zeta in Hs2.
  destruct Hs2 as [E2 E2'].
  destruct (shr_fexp prec emax m2 11 loc_Exact) as [mrs2 e2]. cbn [fst snd] in E2, E2'.
  assert (Hfin : exists m e, shr_m mrs2 = Zpos m /\ e2 = e /\ Zdigits2 (Zpos m) = 53 /\ (e = 11 \/ e = 12)).
  { destruct (Z.eq_dec m2 (2 ^ 53)) as [Heq | Hne].
    - rewrite Heq in E2, E2'. rewrite (Zdigits2_unique (2 ^ 53) 54) in E2, E2' by lia.
      change (Z.max 0 (fexp prec emax (54 + 11) - 11)) with 1 in E2, E2'.
      exists (2 ^ 52)%positive, 12. rewrite E2. split; [reflexivity |]. split; [lia |].
      split; [apply Zdigits2_unique; simpl; lia | lia].
    - rewrite (Zdigits2_unique m2 53) in E2, E2' by lia.
      change (Z.max 0 (fexp prec emax (53 + 11) - 11)) with 0 in E2, E2'.
      rewrite Z.div_1_r in E2. destruct m2 as [| q | q]; try lia.
      exists q, 11. split; [exact E2 |]. split; [lia |].
      split; [apply Zdigits2_unique; lia | lia]. }
  destruct Hfin as [m [e [Em [-> [Hdm He]]]]]. rewrite Em.
  assert (Hle : (e <=? emax - prec) = true) by (destruct He as [-> | ->]; reflexivity).
  rewrite Hle. unfold SpecFloat.valid_binary, bounded, canonical_mantissa.
  unfold SpecFloat.bounded, SpecFloat.canonical_mantissa.
  assert (Hdp : Zpos (digits2_pos m) = 53) by exact Hdm. rewrite Hdp, Hle.
  destruct He as [-> | ->]; reflexivity.
Qed.

Lemma u64_as_f64_Prim2SF (n : Z) :
  0 <= n < 2 ^ 64 -> Prim2SF (u64_as_f64 n) = binary_normalize prec emax n 0 false.
Proof.
  intros Hn. unfold u64_as_f64.
  destruct (Z.lt_ge_cases n (2 ^ 63)) as [Hlo | Hhi].
  - assert (Ht : Uint63.to_Z (Uint63.of_Z n) = n).
    { rewrite Uint63.of_Z_spec. apply Z.mod_small. change Uint63.wB with (2 ^ 63). lia. }
    rewrite <- Ht at 1. rewrite <- of_uint63_spec, SF2Prim_Prim2SF. rewrite of_uint63_spec, Ht.
    reflexivity.
  - apply Prim2SF_SF2Prim. apply binary_normalize_valid_high. lia.
Qed.

Lemma shl_align_fval (p : positive) (e e' : Z) :
  fval (Zpos (fst (shl_align p e e'))) (snd (shl_align p e e')) = fval (Zpos p) e.
Proof.
  unfold shl_align. destruct (e' - e) as [| d | d] eqn:E; try reflexivity. simpl.
  change (Pos.iter xO p d) with (Zpower.shift_pos d p). rewrite Zpower.shift_pos_correct.
  replace e with (e' + Zpos d) by lia. rewrite fval_shift by lia. f_equal.
  change (Z.pow_pos 2 d) with (2 ^ Zpos d). ring.
Qed.

Lemma binary_normalize_le (n : Z) :
  0 <= n -> (2 * IZR n + bpow (-1074) < bpow 972)%R ->
  sf_le (binary_normalize prec emax n 0 false) (2 * IZR n + bpow (-1074)).
Proof.
  intros Hn Hlt. destruct n as [| p | p]; [exact I | | lia].
  unfold binary_normalize, binary_round.
  pose proof (shl_align_fval p 0 (fexp prec emax (Zpos (digits2_pos p) + 0))) as Hv.
  destruct (shl_align p 0 (fexp prec emax (Zpos (digits2_pos p) + 0))) as [mz ez]. simpl in Hv.
  assert (Hp : fval (Zpos p) 0 = IZR (Zpos p)) by (unfold fval; simpl; ring).
  rewrite Hp in Hv.
  pose proof (round_excess_le mz ez).
  eapply sf_le_mono; [apply round_aux_le; [lia |] |]; lra.
Qed.

Lemma u64_as_f64_le (n : Z) :
  0 <= n < 2 ^ 64 -> sf_le (Prim2SF (u64_as_f64 n)) (2 * IZR n + bpow (-1074)).
Proof.
  intros Hn. rewrite u64_as_f64_Prim2SF by exact Hn. apply binary_normalize_le; [lia |].
  pose proof (bpow_le 65 972 ltac:(lia)). rewrite (bpow_nonneg_IZR 65) in H by lia.
  assert (Hb : (bpow (-1074) <= bpow 0)%R) by (apply bpow_le; lia).
  change (bpow 0) with 1%R in Hb.
  assert (IZR n + 1 <= IZR (2 ^ 64))%R by (rewrite <- plus_IZR; apply IZR_le; lia).
  change (2 ^ 65) with (2 * 2 ^ 64) in H. rewrite mult_IZR in H. lra.
Qed.

Lemma bpow_opp (e : Z) : bpow (- e) = (/ bpow e)%R.
Proof. apply powerRZ_neg'. Qed.

Lemma fval_neg_div (m : Z) (k : Z) : 0 <= k -> fval m (- k) = (IZR m / IZR (2 ^ k))%R.
Proof. intros Hk. unfold fval. rewrite bpow_opp, bpow_nonneg_IZR by exact Hk. reflexivity. Qed.

Lemma Prim2SF_not_nan (x : float) : is_nan x = false -> Prim2SF x <> S754_nan.
Proof.
  intros Hn. unfold Prim2SF. rewrite Hn.
  destruct (is_zero x); [discriminate |]. destruct (is_infinity x); [discriminate |].
  destruct (Z.frexp x) as [r ex].
  destruct (shr_fexp prec emax (Uint63.to_Z (normfr_mantissa r)) (ex - prec) loc_Exact) as [mrs e'].
  destruct (shr_m mrs); discriminate.
Qed.

Lemma f64_max_one (x : float) :
  Prim2SF (f64_max x 1) = S754_infinity false \/
  exists m e, Prim2SF (f64_max x 1) = S754_finite false m e /\ (1 <= fval (Zpos m) e)%R.
Proof.
  assert (Hone : Prim2SF 1 = S754_finite false 4503599627370496 (-52)) by reflexivity.
  assert (Hv1 : fval 4503599627370496 (-52) = 1%R).
  { change (-52) with (- (52)). rewrite fval_neg_div by lia.
    change (2 ^ 52) with 4503599627370496. field. }
  unfold f64_max. destruct (is_nan x) eqn:Hn.
  { right. exists 4503599627370496%positive, (-52). rewrite Hone, Hv1. split; [reflexivity | lra]. }
  change (is_nan 1) with false. cbv iota.
  destruct (x <? 1)%float eqn:Hl.
  { right. exists 4503599627370496%positive, (-52). rewrite Hone, Hv1. split; [reflexivity | lra]. }
  rewrite ltb_spec, Hone in Hl. pose proof (Prim2SF_not_nan x Hn) as Hnn.
  pose proof (Prim2SF_valid x) as Hval.
  destruct (Prim2SF x) as [s | [] | | [] m e] eqn:Ex; try discriminate; try contradiction; auto.
  right. exists m, e. split; [reflexivity |].
  unfold SFltb, SFcompare in Hl.
  unfold SpecFloat.valid_binary, SpecFloat.bounded, SpecFloat.canonical_mantissa in Hval.
  apply andb_prop in Hval. destruct Hval as [Hc _]. apply Z.eqb_eq in Hc.
  unfold fexp, emin in Hc. change (3 - emax - prec) with (-1074) in Hc. change prec with 53 in Hc.
  assert (Hm : 2 ^ 52 <= Zpos m /\ -52 <= e).
  { destruct (Z.compare_spec e (-52)) as [He | He | He]; try discriminate.
    - subst e. split; [| lia].
      set (L := 4503599627370496%positive) in Hl.
      assert (HL : Zpos L = 2 ^ 52) by reflexivity. clearbody L.
      rewrite Pos.compare_cont_spec in Hl.
      destruct (Pos.compare_spec m L) as [Hcc | Hcc | Hcc]; cbn [Pos.switch_Eq] in Hl.
      + subst m. lia.
      + discriminate Hl.
      + apply Pos2Z.pos_lt_pos in Hcc. lia.
    - split; [| lia]. pose proof (digits2_bounds m) as [Hd _]. simpl Zdigits2 in Hd.
      destruct (Z.max_spec (Zpos (digits2_pos m) + e - 53) (-1074)) as [[_ E] | [_ E]];
        rewrite E in Hc; [lia |].
      assert (Zpos (digits2_pos m) = 53) by lia. rewrite H in Hd. exact Hd. }
  destruct Hm as [Hm He]. rewrite <- Hv1.
  unfold fval. pose proof (bpow_le (-52) e He). pose proof (bpow_pos (-52)).
  change (2 ^ 52) with 4503599627370496 in Hm. apply IZR_le in Hm. nra.
Qed.

Lemma sf_trunc_le (m : positive) (e : Z) :
  0 <= sf_trunc false m e /\ (IZR (sf_trunc false m e) <= fval (Zpos m) e)%R.
Proof.
  unfold sf_trunc. destruct (0 <=? e) eqn:He.
  - apply Z.leb_le in He. assert (0 < 2 ^ e) by (apply Z.pow_pos_nonneg; lia).
    split; [lia |]. right.
    replace e with (0 + e) at 2 by lia. rewrite fval_shift by lia. unfold fval. simpl bpow. ring.
  - apply Z.leb_gt in He. assert (Hd : 0 < 2 ^ (- e)) by (apply Z.pow_pos_nonneg; lia).
    split; [apply Z.div_pos; lia |].
    replace e with (- (- e)) at 2 by lia. rewrite fval_neg_div by lia.
    pose proof (Z.mul_div_le (Zpos m) (2 ^ (- e)) Hd) as Hq.
    assert (HR : (IZR (2 ^ (- e) * (Zpos m / 2 ^ (- e))) <= IZR (Zpos m))%R) by (apply IZR_le; lia).
    rewrite mult_IZR in HR. apply IZR_lt in Hd.
    apply (Rmult_le_reg_l (IZR (2 ^ (- e)))); [exact Hd |].
    unfold Rdiv. rewrite (Rmult_comm (IZR (Zpos m))), <- Rmult_assoc, Rinv_r by lra. lra.
Qed.

Lemma f64_as_u64_le (v : float) (B : R) :
  sf_le (Prim2SF v) B -> (0 <= B)%R -> 0 <= f64_as_u64 v /\ (IZR (f64_as_u64 v) <= B)%R.
Proof.
  intros Hv HB. unfold f64_as_u64.
  destruct (Prim2SF v) as [s | s | | [] m e]; cbn [sf_le] in Hv; try contradiction.
  - split; [lia | exact HB].
  - destruct (sf_trunc_le m e) as [H0 H1].
    assert (Hmin : Z.min u64_max (sf_trunc false m e) <= sf_trunc false m e) by lia.
    assert (0 <= Z.min u64_max (sf_trunc false m e)) by (unfold u64_max, u64_modulus in *; lia).
    rewrite Z.max_r by lia. split; [lia |].
    apply IZR_le in Hmin. lra.
Qed.

Lemma fval_const_1e9 : fval 8388608000000000 (-23) = 1000000000%R.
Proof.
  change (-23) with (- (23)). rewrite fval_neg_div by lia.
  change (2 ^ 23) with 8388608. field.
Qed.

Lemma fval_const_200 : fval 7036874417766400 (-45) = 200%R.
Proof.
  change (-45) with (- (45)). rewrite fval_neg_div by lia.
  change (2 ^ 45) with 35184372088832. field.
Qed.

Lemma fval_const_half : fval 4503599627370496 (-53) = (1 / 2)%R.
Proof.
  change (-53) with (- (53)). rewrite fval_neg_div by lia.
  change (2 ^ 53) with 9007199254740992. field.
Qed.

Lemma fval_const_100 : fval 7036874417766400 (-46) = 100%R.
Proof.
  change (-46) with (- (46)). rewrite fval_neg_div by lia.
  change (2 ^ 46) with 70368744177664. field.
Qed.

Lemma bpow_small : (0 < bpow (-1074) <= 1)%R.
Proof. split; [apply bpow_pos | change 1%R with (bpow 0); apply bpow_le; lia]. Qed.

Lemma bpow_972_large : (IZR (2 ^ 100) <= bpow 972)%R.
Proof. rewrite <- bpow_nonneg_IZR by lia. apply bpow_le. lia. Qed.

Lemma sf_le_div_inf (x : spec_float) (B B' : R) :
  sf_le x B -> (0 <= B')%R -> sf_le (SFdiv prec emax x (S754_infinity false)) B'.
Proof. intros Hx HB. destruct x as [s | s | | [] m e]; cbn [sf_le] in Hx; try contradiction; exact I. Qed.

Lemma slippage_of_edge_range (amount : Z) (edge : PoolEdge) :
  0 <= amount < 2 ^ 64 -> 10 <= Optimize.slippage_of_edge amount edge <= 100.
Proof.
  intros Hn. unfold Optimize.slippage_of_edge.
  pose proof bpow_small as [Ht0 Ht1]. pose proof bpow_972_large as Hbig.
  change (2 ^ 100) with 1267650600228229401496703205376 in Hbig.
  set (t := bpow (-1074)) in *.
  assert (HA := u64_as_f64_le amount Hn). fold t in HA.
  assert (HnR : (0 <= IZR amount <= 18446744073709551616)%R)
    by (split; apply IZR_le; lia).
  (* [trade_size_usd] *)
  assert (H1 : sf_le (Prim2SF (u64_as_f64 amount / 1e9)%float)
                 (2 * ((2 * IZR amount + t) / 1000000000) + 2 * t)).
  { rewrite div_spec. change (Prim2SF 1e9) with (S754_finite false 8388608000000000 (-23)).
    apply SFdiv_le; [exact HA | lra | lra | rewrite fval_const_1e9; lra | fold t; lra]. }
  assert (H2 : sf_le (Prim2SF (u64_as_f64 amount / 1e9 * 200)%float)
                 (2 * (2 * ((2 * IZR amount + t) / 1000000000) + 2 * t) * 200 + t)).
  { rewrite mul_spec. change (Prim2SF 200) with (S754_finite false 7036874417766400 (-45)).
    rewrite <- fval_const_200. apply SFmul_le; [exact H1 | lra |]. rewrite fval_const_200. fold t. lra. }
  set (T := (2 * (2 * ((2 * IZR amount + t) / 1000000000) + 2 * t) * 200 + t)%R) in H2.
  assert (HT : (0 <= T <= 1000000000000000)%R) by (unfold T; lra).
  set (tr := (u64_as_f64 amount / 1e9 * 200)%float) in H2 |- *.
  (* [liquidity_ratio] *)
  assert (H3 : sf_le (Prim2SF (tr / f64_max (liquidity_usd edge) 1)%float) (2 * (T / 1) + 2 * t)).
  { rewrite div_spec. destruct (f64_max_one (liquidity_usd edge)) as [-> | [m [e [-> He]]]].
    - apply (sf_le_div_inf _ T); [exact H2 | lra].
    - apply SFdiv_le with (L := 1%R); [exact H2 | lra | lra | exact He | fold t; lra]. }
  set (ratio := (tr / f64_max (liquidity_usd edge) 1)%float) in H3 |- *.
  assert (H4 : sf_le (Prim2SF (ratio * 0.5)%float) (2 * (2 * (T / 1) + 2 * t) * (1 / 2) + t)).
  { rewrite mul_spec. change (Prim2SF 0.5) with (S754_finite false 4503599627370496 (-53)).
    rewrite <- fval_const_half. apply SFmul_le; [exact H3 | lra |]. rewrite fval_const_half. fold t. lra. }
  assert (H5 : sf_le (Prim2SF (ratio * 0.5 * 100)%float)
                 (2 * (2 * (2 * (T / 1) + 2 * t) * (1 / 2) + t) * 100 + t)).
  { rewrite mul_spec. change (Prim2SF 100) with (S754_finite false 7036874417766400 (-46)).
    rewrite <- fval_const_100. apply SFmul_le; [exact H4 | lra |]. rewrite fval_const_100. fold t. lra. }
  destruct (f64_as_u64_le _ _ H5 ltac:(lra)) as [Hd0 Hd1].
  assert (Hd : f64_as_u64 (ratio * 0.5 * 100)%float <= 1000000000000000000).
  { apply le_IZR. lra. }
  unfold u64_add. rewrite Z.mod_small by (unfold u64_modulus; lia). lia.
Qed.

Lemma first_edge_of_pool_found (g : PriceGraph) (leg : SwapLeg) (edge : PoolEdge) :
  Optimize.find_edge_in_graph g leg = Some edge ->
  Optimize.first_edge_of_pool g (leg_pool_pubkey leg) <> None.
Proof.
  unfold Optimize.find_edge_in_graph, Optimize.first_edge_of_pool.
  destruct (edges_of g (from_mint leg)) as [es |] eqn:He; [| discriminate].
  intros Hf Hn. apply find_some in Hf. destruct Hf as [Hin Hp].
  apply andb_prop in Hp. destruct Hp as [Hp _].
  assert (Hc : In edge (concat (map snd g))).
  { apply in_concat. exists es. split; [| exact Hin].
    apply in_map_iff. exists (from_mint leg, es). split; [reflexivity |].
    apply edges_of_in. exact He. }
  pose proof (find_none _ _ Hn _ Hc) as Hc'. cbv beta in Hc'. rewrite Hp in Hc'. discriminate.
Qed.

Lemma calculate_slippage_bps_range (g : PriceGraph) (amount : Z) (pool : Pubkey) :
  0 <= amount <= u64_max ->
  (Optimize.first_edge_of_pool g pool = None -> Optimize.calculate_slippage_bps g amount pool = 50) /\
  (Optimize.first_edge_of_pool g pool <> None ->
     10 <= Optimize.calculate_slippage_bps g amount pool <= 100).
Proof.
  intros Ha. unfold Optimize.calculate_slippage_bps.
  destruct (Optimize.first_edge_of_pool g pool) as [e |].
  - split; [discriminate | intros _]. apply slippage_of_edge_range.
    unfold u64_max, u64_modulus in Ha. lia.
  - split; [reflexivity | contradiction].
Qed.

(** C10.  For a graph built by the ingestion driver, a leg whose edge the
    simulation finds, and any [u64] amount [current]: the edge's [fee_bps] is
    at most 100; [calculate_slippage_bps] is between 10 and 100 for a pool
    that has an edge in the graph and exactly 50 for one that has none (the
    liquidity divisor is [f64::max(liquidity_usd, 1.0)] and the [f64] chain is
    bounded, so [10 + dynamic_slippage_bps] does not wrap); hence
    [effective_fee_bps] is at most 200, [10_000 - effective_fee_bps] does not
    wrap, and the fee multiplier is strictly positive. *)
Theorem simulate_leg_fee_bounds (g : PriceGraph) (leg : SwapLeg) (edge : PoolEdge) (current : Z) :
  ingested g -> 0 <= current <= u64_max ->
  Optimize.find_edge_in_graph g leg = Some edge ->
  let slippage_bps := Optimize.calculate_slippage_bps g current (leg_pool_pubkey leg) in
  let effective_fee_bps := u64_add (fee_bps edge) slippage_bps in
  0 <= fee_bps edge <= 100 /\
  (forall pool,
     (Optimize.first_edge_of_pool g pool = None ->
        Optimize.calculate_slippage_bps g current pool = 50) /\
     (Optimize.first_edge_of_pool g pool <> None ->
        10 <= Optimize.calculate_slippage_bps g current pool <= 100)) /\
  10 <= slippage_bps <= 100 /\
  effective_fee_bps <= 200 /\
  u64_sub 10000 effective_fee_bps = 10000 - effective_fee_bps /\
  (0 <? Optimize.fee_multiplier effective_fee_bps)%float = true.
Proof.
  intros Hg Hc Hf slippage_bps effective_fee_bps.
  pose proof (find_edge_in_graph_fee g leg edge Hg Hf) as Hfee. unfold edge_fee_ok in Hfee.
  assert (Hs : 10 <= slippage_bps <= 100).
  { apply (proj2 (calculate_slippage_bps_range g current _ Hc)).
    exact (first_edge_of_pool_found g leg edge Hf). }
  assert (He : effective_fee_bps = fee_bps edge + slippage_bps).
  { apply u64_add_small; unfold u64_modulus; lia. }
  assert (He' : effective_fee_bps <= 200) by lia.
  split; [exact Hfee |]. split; [intros pool; exact (calculate_slippage_bps_range g current pool Hc) |].
  split; [exact Hs |]. split; [exact He' |]. split.
  - unfold u64_sub. apply Z.mod_small. unfold u64_modulus. lia.
  - apply fee_multiplier_positive. lia.
Qed.

(** A graph ingested from the sample Raydium pool (key 50, token 7 against
    SOL key 1), and a leg 7 -> 1 through that pool. *)
Lemma simulate_leg_fee_bounds_witness :
  let g := [(7, [mk_edge 50 RaydiumV4 5 5200 25 0]); (1, [mk_edge 50 RaydiumV4 (1 / 5) 5200 25 0])] in
  let leg := {| from_mint := 7; to_mint := 1; leg_pool_pubkey := 50; leg_dex_type := RaydiumV4;
                amount_in := 0; estimated_amount_out := 0 |} in
  ingested g /\ 0 <= 1000000000 <= u64_max /\
  Optimize.find_edge_in_graph g leg = Some (mk_edge 50 RaydiumV4 5 5200 25 0) /\
  Optimize.calculate_slippage_bps g 1000000000 50 = 11 /\
  u64_add 25 (Optimize.calculate_slippage_bps g 1000000000 50) <= 200 /\
  (0 <? Optimize.fee_multiplier (u64_add 25%Z (Optimize.calculate_slippage_bps g 1000000000%Z 50%Z)))%float
    = true.
Proof.
  intros g leg.
  assert (Hg : ingested g).
  { apply (ingested_tick [] (sample_get_account 5 1) (fun _ => None) (fun _ => None)
             (fun _ => None) (fun _ => None) (fun x _ => x) 0 0 [sample_pool_data] 1 g).
    - apply ingested_new.
    - vm_compute. reflexivity. }
  assert (Hc : 0 <= 1000000000 <= u64_max) by (unfold u64_max, u64_modulus; lia).
  assert (Hf : Optimize.find_edge_in_graph g leg = Some (mk_edge 50 RaydiumV4 5 5200 25 0))
    by (vm_compute; reflexivity).
  pose proof (simulate_leg_fee_bounds g leg _ 1000000000 Hg Hc Hf) as H.
  cbv zeta in H. destruct H as [_ [_ [_ [H1 [_ H2]]]]].
  split; [exact Hg |]. split; [exact Hc |]. split; [exact Hf |].
  split; [vm_compute; reflexivity |]. split; [exact H1 | exact H2].
Defined.

(** ** The pool indexer *)

Lemma lookup_insert {V} (m : KeyMap V) (k k' : Pubkey) (v : V) :
  lookup (insert m k v) k' = if Z.eqb k' k then Some v else lookup m k'.
Proof.
  induction m as [| [k0 v0] rest IH]; simpl.
  - reflexivity.
  - destruct (Z.eqb_spec k k0) as [-> | Hne]; simpl.
    + destruct (Z.eqb k' k0); reflexivity.
    + destruct (Z.eqb_spec k' k0) as [-> | Hne'].
      * destruct (Z.eqb_spec k0 k); [congruence | reflexivity].
      * exact IH.
Qed.

Lemma lookup_remove_key {V} (m : KeyMap V) (k k' : Pubkey) :
  lookup (Indexer.remove_key m k) k' = if Z.eqb k' k then None else lookup m k'.
Proof.
  unfold Indexer.remove_key. induction m as [| [k0 v0] rest IH]; simpl.
  - destruct (Z.eqb k' k); reflexivity.
  - destruct (Z.eqb_spec k k0) as [-> | Hne]; simpl.
    + rewrite IH. destruct (Z.eqb_spec k' k0); reflexivity.
    + destruct (Z.eqb_spec k' k0) as [-> | Hne'].
      * destruct (Z.eqb_spec k0 k); [congruence | reflexivity].
      * exact IH.
Qed.

Lemma key_eqb_spec (x y : Indexer.TokenMint * Indexer.TokenMint) :
  reflect (x = y) (Indexer.key_eqb x y).
Proof.
  destruct x as [x1 x2], y as [y1 y2]. unfold Indexer.key_eqb; simpl.
  destruct (Z.eqb_spec x1 y1), (Z.eqb_spec x2 y2); simpl; constructor; congruence.
Qed.

Lemma edge_lookup_update es k k' w :
  Indexer.edge_lookup (Indexer.edge_update es k w) k' =
  if Indexer.key_eqb k' k then Some w else Indexer.edge_lookup es k'.
Proof.
  induction es as [| [k0 w0] rest IH]; simpl.
  - reflexivity.
  - destruct (key_eqb_spec k k0) as [-> | Hne]; simpl.
    + destruct (Indexer.key_eqb k' k0); reflexivity.
    + destruct (key_eqb_spec k' k0) as [-> | Hne'].
      * destruct (key_eqb_spec k0 k); [congruence | reflexivity].
      * exact IH.
Qed.

Lemma edge_lookup_filter es k k' :
  Indexer.edge_lookup (filter (fun e => negb (Indexer.key_eqb k (fst e))) es) k' =
  if Indexer.key_eqb k' k then None else Indexer.edge_lookup es k'.
Proof.
  induction es as [| [k0 w0] rest IH]; simpl.
  - destruct (Indexer.key_eqb k' k); reflexivity.
  - destruct (key_eqb_spec k k0) as [-> | Hne]; simpl.
    + rewrite IH. destruct (key_eqb_spec k' k0); reflexivity.
    + destruct (key_eqb_spec k' k0) as [-> | Hne'].
      * destruct (key_eqb_spec k0 k); [congruence | reflexivity].
      * exact IH.
Qed.

Lemma graph_add_node_edges g n : Indexer.edges (Indexer.graph_add_node g n) = Indexer.edges g.
Proof. unfold Indexer.graph_add_node. destruct existsb; reflexivity. Qed.

Lemma edge_weight_add_edge g a b w x y :
  Indexer.edge_weight (Indexer.graph_add_edge g a b w) x y =
  if Indexer.key_eqb (x, y) (a, b) then Some w else Indexer.edge_weight g x y.
Proof. unfold Indexer.edge_weight, Indexer.graph_add_edge; simpl. apply edge_lookup_update. Qed.

Lemma edge_weight_remove_edge g a b x y :
  Indexer.edge_weight (Indexer.graph_remove_edge g a b) x y =
  if Indexer.key_eqb (x, y) (a, b) then None else Indexer.edge_weight g x y.
Proof. unfold Indexer.edge_weight, Indexer.graph_remove_edge; simpl. apply edge_lookup_filter. Qed.

Lemma edge_weight_add_node g n x y :
  Indexer.edge_weight (Indexer.graph_add_node g n) x y = Indexer.edge_weight g x y.
Proof. unfold Indexer.edge_weight. rewrite graph_add_node_edges. reflexivity. Qed.

Lemma edge_weight_add_or_update_pool st pool x y :
  Indexer.edge_weight (Indexer.graph (Indexer.add_or_update_pool st pool)) x y =
  if Indexer.key_eqb (x, y) (Indexer.token_b pool, Indexer.token_a pool) then Some (Indexer.reverse_edge pool)
  else if Indexer.key_eqb (x, y) (Indexer.token_a pool, Indexer.token_b pool) then Some (Indexer.forward_edge pool)
  else Indexer.edge_weight (Indexer.graph st) x y.
Proof.
  unfold Indexer.add_or_update_pool; simpl.
  rewrite !edge_weight_add_edge, !edge_weight_add_node. reflexivity.
Qed.

Lemma get_pool_add_or_update_pool st pool a :
  Indexer.get_pool (Indexer.add_or_update_pool st pool) a =
  if Z.eqb a (Indexer.address pool) then Some pool else Indexer.get_pool st a.
Proof. unfold Indexer.get_pool, Indexer.add_or_update_pool; simpl. apply lookup_insert. Qed.


Lemma reachable_consistent st : Indexer.reachable st -> Indexer.index_consistent st.
Proof.
  induction 1 as [| st pool _ IH | st a _ IH | st _ IH]; unfold Indexer.index_consistent in *.
  - reflexivity.
  - intros k. simpl. rewrite !lookup_insert. destruct (Z.eqb k (Indexer.address pool)); [reflexivity | apply IH].
  - intros k. unfold Indexer.remove_pool.
    destruct (lookup (Indexer.pool_index st) a) as [[ta tb] |] eqn:E; [| apply IH].
    simpl. rewrite !lookup_remove_key. destruct (Z.eqb k a); [reflexivity | apply IH].
  - reflexivity.
Qed.

Lemma remove_pool_known st a p :
  Indexer.index_consistent st -> Indexer.get_pool st a = Some p ->
  (forall a', Indexer.get_pool (Indexer.remove_pool st a) a' =
              if Z.eqb a' a then None else Indexer.get_pool st a') /\
  (forall x y, Indexer.edge_weight (Indexer.graph (Indexer.remove_pool st a)) x y =
     if Indexer.key_eqb (x, y) (Indexer.token_b p, Indexer.token_a p) then None
     else if Indexer.key_eqb (x, y) (Indexer.token_a p, Indexer.token_b p) then None
     else Indexer.edge_weight (Indexer.graph st) x y).
Proof.
  intros Hc Hp. unfold Indexer.get_pool in *. unfold Indexer.remove_pool.
  rewrite (Hc a), Hp. simpl. split.
  - intros a'. apply lookup_remove_key.
  - intros x y. rewrite !edge_weight_remove_edge. reflexivity.
Qed.

Lemma remove_pool_unknown st a :
  Indexer.index_consistent st -> Indexer.get_pool st a = None -> Indexer.remove_pool st a = st.
Proof.
  intros Hc Hp. unfold Indexer.get_pool in Hp. unfold Indexer.remove_pool.
  rewrite (Hc a), Hp. reflexivity.
Qed.

(** X19.  After [add_or_update_pool st pool], [get_pool] returns [pool] at its
    address and the old result elsewhere; the edge [token_b -> token_a] carries
    the reverse weight (price [1/price], or [0] when the price is not
    positive), the edge [token_a -> token_b] the pool's own weight when the two
    mints differ, and every other edge keeps its weight.  On a pool whose two
    mints are equal the reverse weight overwrites the forward one. *)
Theorem add_or_update_pool_spec (st : Indexer.PetgraphEngine) (pool : Indexer.PoolInfo) :
  let st' := Indexer.add_or_update_pool st pool in
  let a := Indexer.token_a pool in
  let b := Indexer.token_b pool in
  Indexer.get_pool st' (Indexer.address pool) = Some pool /\
  (forall addr, addr <> Indexer.address pool -> Indexer.get_pool st' addr = Indexer.get_pool st addr) /\
  Indexer.edge_weight (Indexer.graph st') b a = Some (Indexer.reverse_edge pool) /\
  (a <> b -> Indexer.edge_weight (Indexer.graph st') a b = Some (Indexer.forward_edge pool)) /\
  (forall x y, (x, y) <> (a, b) -> (x, y) <> (b, a) ->
     Indexer.edge_weight (Indexer.graph st') x y = Indexer.edge_weight (Indexer.graph st) x y).
Proof.
  cbv zeta. repeat split.
  - rewrite get_pool_add_or_update_pool, Z.eqb_refl. reflexivity.
  - intros addr Hne. rewrite get_pool_add_or_update_pool.
    destruct (Z.eqb_spec addr (Indexer.address pool)); congruence.
  - rewrite edge_weight_add_or_update_pool.
    destruct (key_eqb_spec (Indexer.token_b pool, Indexer.token_a pool)
                (Indexer.token_b pool, Indexer.token_a pool)); congruence.
  - intros Hne. rewrite edge_weight_add_or_update_pool.
    destruct (key_eqb_spec (Indexer.token_a pool, Indexer.token_b pool)
                (Indexer.token_b pool, Indexer.token_a pool)) as [E |]; [congruence |].
    destruct (key_eqb_spec (Indexer.token_a pool, Indexer.token_b pool)
                (Indexer.token_a pool, Indexer.token_b pool)); congruence.
  - intros x y H1 H2. rewrite edge_weight_add_or_update_pool.
    destruct (key_eqb_spec (x, y) (Indexer.token_b pool, Indexer.token_a pool)); [congruence |].
    destruct (key_eqb_spec (x, y) (Indexer.token_a pool, Indexer.token_b pool)); congruence.
Qed.

Lemma add_or_update_pool_spec_witness :
  (1 <> 2 -> Indexer.edge_weight (Indexer.graph (Indexer.add_or_update_pool Indexer.PetgraphEngine_new sample_pool_P)) 1 2
             = Some (Indexer.forward_edge sample_pool_P)) /\
  Indexer.edge_weight (Indexer.graph (Indexer.add_or_update_pool Indexer.PetgraphEngine_new sample_pool_P)) 1 2
    = Some (Indexer.forward_edge sample_pool_P).
Proof.
  destruct (add_or_update_pool_spec Indexer.PetgraphEngine_new sample_pool_P) as [_ [_ [_ [H _]]]].
  split; [exact H | apply H; discriminate].
Defined.

(** X20.  On every state the indexer reaches, [remove_pool st a] of a stored
    pool [p] makes [get_pool] return [None] at [a] (other addresses untouched)
    and deletes both directed edges between [p]'s mints, leaving every other
    edge; on an address with no stored pool it changes nothing. *)
Theorem remove_pool_spec (st : Indexer.PetgraphEngine) (a : Pubkey) :
  Indexer.reachable st ->
  (Indexer.get_pool st a = None -> Indexer.remove_pool st a = st) /\
  (forall p, Indexer.get_pool st a = Some p ->
     let st' := Indexer.remove_pool st a in
     Indexer.get_pool st' a = None /\
     (forall a', a' <> a -> Indexer.get_pool st' a' = Indexer.get_pool st a') /\
     Indexer.edge_weight (Indexer.graph st') (Indexer.token_a p) (Indexer.token_b p) = None /\
     Indexer.edge_weight (Indexer.graph st') (Indexer.token_b p) (Indexer.token_a p) = None /\
     (forall x y, (x, y) <> (Indexer.token_a p, Indexer.token_b p) ->
                  (x, y) <> (Indexer.token_b p, Indexer.token_a p) ->
        Indexer.edge_weight (Indexer.graph st') x y = Indexer.edge_weight (Indexer.graph st) x y)).
Proof.
  intros Hr. pose proof (reachable_consistent st Hr) as Hc. split.
  - apply remove_pool_unknown; exact Hc.
  - intros p Hp. destruct (remove_pool_known st a p Hc Hp) as [Hg He]. cbv zeta.
    repeat split.
    + rewrite Hg, Z.eqb_refl. reflexivity.
    + intros a' Hne. rewrite Hg. destruct (Z.eqb_spec a' a); congruence.
    + rewrite He.
      destruct (key_eqb_spec (Indexer.token_a p, Indexer.token_b p) (Indexer.token_b p, Indexer.token_a p));
        [reflexivity |].
      destruct (key_eqb_spec (Indexer.token_a p, Indexer.token_b p) (Indexer.token_a p, Indexer.token_b p));
        [reflexivity | congruence].
    + rewrite He.
      destruct (key_eqb_spec (Indexer.token_b p, Indexer.token_a p) (Indexer.token_b p, Indexer.token_a p));
        [reflexivity | congruence].
    + intros x y H1 H2. rewrite He.
      destruct (key_eqb_spec (x, y) (Indexer.token_b p, Indexer.token_a p)); [congruence |].
      destruct (key_eqb_spec (x, y) (Indexer.token_a p, Indexer.token_b p)); congruence.
Qed.

Lemma remove_pool_spec_witness :
  Indexer.reachable sample_indexer /\
  Indexer.get_pool (Indexer.remove_pool sample_indexer 900) 900 = None.
Proof.
  assert (Hr : Indexer.reachable sample_indexer)
    by (apply Indexer.reachable_add, Indexer.reachable_add, Indexer.reachable_new).
  split; [exact Hr |].
  destruct (remove_pool_spec sample_indexer 900 Hr) as [_ H].
  exact (proj1 (H sample_pool_P eq_refl)).
Defined.

(** X21.  Edges are keyed by mint pair, not by pool: on a reachable state
    holding two pools [p] and [q] on the same pair, removing [p] deletes both
    edges between the pair although [q] is still stored. *)
Theorem remove_pool_drops_shared_pair (st : Indexer.PetgraphEngine) (a b : Pubkey)
  (p q : Indexer.PoolInfo) :
  Indexer.reachable st ->
  Indexer.get_pool st a = Some p -> Indexer.get_pool st b = Some q -> b <> a ->
  Indexer.token_a q = Indexer.token_a p -> Indexer.token_b q = Indexer.token_b p ->
  let st' := Indexer.remove_pool st a in
  Indexer.get_pool st' b = Some q /\
  Indexer.edge_weight (Indexer.graph st') (Indexer.token_a q) (Indexer.token_b q) = None /\
  Indexer.edge_weight (Indexer.graph st') (Indexer.token_b q) (Indexer.token_a q) = None.
Proof.
  intros Hr Hp Hq Hne Ea Eb. pose proof (reachable_consistent st Hr) as Hc.
  destruct (remove_pool_known st a p Hc Hp) as [Hg He]. cbv zeta. rewrite Ea, Eb.
  repeat split.
  - rewrite Hg. destruct (Z.eqb_spec b a); congruence.
  - rewrite He.
    destruct (key_eqb_spec (Indexer.token_a p, Indexer.token_b p) (Indexer.token_b p, Indexer.token_a p));
      [reflexivity |].
    destruct (key_eqb_spec (Indexer.token_a p, Indexer.token_b p) (Indexer.token_a p, Indexer.token_b p));
      [reflexivity | congruence].
  - rewrite He.
    destruct (key_eqb_spec (Indexer.token_b p, Indexer.token_a p) (Indexer.token_b p, Indexer.token_a p));
      [reflexivity | congruence].
Qed.

Lemma remove_pool_drops_shared_pair_witness :
  Indexer.get_pool (Indexer.remove_pool sample_indexer 900) 901 = Some sample_pool_Q /\
  Indexer.edge_weight (Indexer.graph (Indexer.remove_pool sample_indexer 900)) 1 2 = None.
Proof.
  assert (Hr : Indexer.reachable sample_indexer)
    by (apply Indexer.reachable_add, Indexer.reachable_add, Indexer.reachable_new).
  destruct (remove_pool_drops_shared_pair sample_indexer 900 901 sample_pool_P sample_pool_Q Hr
              eq_refl eq_refl ltac:(discriminate) eq_refl eq_refl) as [H1 [H2 _]].
  split; [exact H1 | exact H2].
Defined.

(** X22.  Re-adding a pool address on a new mint pair replaces its index entry
    but leaves the edges of the old pair: after [add_or_update_pool] of [p],
    then of [p'] (same address, a pair disjoint from [p]'s in both
    orientations), then [remove_pool] of that address, no pool is stored
    there but both edges of [p]'s pair still carry [p]'s weights. *)
Theorem readded_pool_leaves_stale_edges (st : Indexer.PetgraphEngine) (p p' : Indexer.PoolInfo) :
  Indexer.address p' = Indexer.address p ->
  Indexer.token_a p <> Indexer.token_b p ->
  (Indexer.token_a p, Indexer.token_b p) <> (Indexer.token_a p', Indexer.token_b p') ->
  (Indexer.token_a p, Indexer.token_b p) <> (Indexer.token_b p', Indexer.token_a p') ->
  let st' := Indexer.remove_pool
               (Indexer.add_or_update_pool (Indexer.add_or_update_pool st p) p') (Indexer.address p) in
  Indexer.get_pool st' (Indexer.address p) = None /\
  Indexer.edge_weight (Indexer.graph st') (Indexer.token_a p) (Indexer.token_b p)
    = Some (Indexer.forward_edge p) /\
  Indexer.edge_weight (Indexer.graph st') (Indexer.token_b p) (Indexer.token_a p)
    = Some (Indexer.reverse_edge p).
Proof.
  intros Ha Hab H1 H2. cbv zeta.
  set (s1 := Indexer.add_or_update_pool (Indexer.add_or_update_pool st p) p').
  assert (Hidx : lookup (Indexer.pool_index s1) (Indexer.address p)
                 = Some (Indexer.token_a p', Indexer.token_b p')).
  { unfold s1; simpl. rewrite lookup_insert, Ha, Z.eqb_refl. reflexivity. }
  unfold Indexer.remove_pool. rewrite Hidx. unfold Indexer.get_pool.
  cbn [Indexer.graph Indexer.pools].
  rewrite lookup_remove_key, Z.eqb_refl, !edge_weight_remove_edge.
  unfold s1. rewrite !edge_weight_add_or_update_pool.
  repeat split;
    repeat match goal with
    | |- context [Indexer.key_eqb ?x ?y] => destruct (key_eqb_spec x y)
    end; try congruence;
    exfalso; match goal with H : (_, _) = (_, _) |- _ => injection H; intros; subst end;
    congruence.
Qed.

Lemma readded_pool_leaves_stale_edges_witness :
  Indexer.edge_weight
    (Indexer.graph (Indexer.remove_pool
       (Indexer.add_or_update_pool (Indexer.add_or_update_pool Indexer.PetgraphEngine_new sample_pool_P)
          sample_pool_P') 900)) 1 2 = Some (Indexer.forward_edge sample_pool_P).
Proof.
  exact (proj1 (proj2 (readded_pool_leaves_stale_edges Indexer.PetgraphEngine_new sample_pool_P sample_pool_P'
    eq_refl ltac:(discriminate) ltac:(discriminate) ltac:(discriminate)))).
Defined.

Lemma find_app {A} (f : A -> bool) (l1 l2 : list A) :
  find f (l1 ++ l2) = match find f l1 with Some x => Some x | None => find f l2 end.
Proof. induction l1 as [| x l1 IH]; simpl; [reflexivity | destruct (f x); [reflexivity | exact IH]]. Qed.

(** X23.  A tick of [main]'s update loop never removes a pool: after it,
    [get_pool] at an address returns the last fetched pool with that address
    whose [liquidity_usd >= min_liquidity_usd] holds, and otherwise what it
    returned before the tick. *)
Theorem update_tick_get_pool (st : Indexer.PetgraphEngine) (fetched : list Indexer.PoolInfo)
  (min_liquidity_usd : float) (a : Pubkey) :
  Indexer.get_pool (Indexer.update_tick st fetched min_liquidity_usd) a =
  match find (fun p => Z.eqb (Indexer.address p) a && (min_liquidity_usd <=? Indexer.liquidity_usd p)%float)
             (rev fetched) with
  | Some p => Some p
  | None => Indexer.get_pool st a
  end.
Proof.
  unfold Indexer.update_tick. revert st.
  induction fetched as [| p rest IH]; intros st; simpl.
  - reflexivity.
  - rewrite find_app. simpl.
    destruct (min_liquidity_usd <=? Indexer.liquidity_usd p)%float eqn:Hl; simpl.
    + rewrite IH, get_pool_add_or_update_pool.
      destruct find; [reflexivity |].
      destruct (Z.eqb_spec a (Indexer.address p)), (Z.eqb_spec (Indexer.address p) a);
        simpl; rewrite ?Hl; congruence.
    + rewrite IH. destruct find; [reflexivity |].
      destruct (Z.eqb (Indexer.address p) a); simpl; rewrite ?Hl; reflexivity.
Qed.

(** ** Decoders on full-length buffers and the on-chain fetchers *)

Lemma slice_to_pubkey_within (data : list Byte.byte) (start stop : nat) :
  stop = (start + 32)%nat -> (stop <= length data)%nat ->
  slice_to_pubkey data start stop = Some (pubkey_of_bytes (firstn 32 (skipn start data))).
Proof.
  intros -> H. unfold slice_to_pubkey, slice.
  replace ((start <=? start + 32)%nat && (start + 32 <=? length data)%nat) with true
    by (symmetry; apply andb_true_intro; split; apply Nat.leb_le; lia).
  replace (start + 32 - start)%nat with 32%nat by lia.
  rewrite length_firstn, length_skipn.
  replace (Nat.min 32 (length data - start)) with 32%nat by lia. reflexivity.
Qed.

Lemma RaydiumAmmInfo_load_checked_full (data : list Byte.byte) :
  (464 <= length data)%nat ->
  RaydiumAmmInfo_load_checked data =
  DecOk {| amm_coin_mint := pubkey_of_bytes (firstn 32 (skipn 400 data));
           amm_pc_mint := pubkey_of_bytes (firstn 32 (skipn 432 data));
           amm_coin_vault := pubkey_of_bytes (firstn 32 (skipn 336 data));
           amm_pc_vault := pubkey_of_bytes (firstn 32 (skipn 368 data)) |}.
Proof.
  intros H. unfold RaydiumAmmInfo_load_checked.
  replace (length data <? PC_MINT_OFFSET + 32)%nat with false
    by (symmetry; apply Nat.ltb_ge; unfold PC_MINT_OFFSET; lia).
  unfold COIN_VAULT_OFFSET, PC_VAULT_OFFSET, COIN_MINT_OFFSET, PC_MINT_OFFSET.
  rewrite !slice_to_pubkey_within by lia. reflexivity.
Qed.

Lemma RaydiumCpAmmInfo_load_checked_full (data : list Byte.byte) :
  (328 <= length data)%nat ->
  RaydiumCpAmmInfo_load_checked data =
  DecOk {| cp_token_0_mint := pubkey_of_bytes (firstn 32 (skipn 168 data));
           cp_token_1_mint := pubkey_of_bytes (firstn 32 (skipn 200 data));
           cp_token_0_vault := pubkey_of_bytes (firstn 32 (skipn 72 data));
           cp_token_1_vault := pubkey_of_bytes (firstn 32 (skipn 104 data));
           cp_amm_config := pubkey_of_bytes (firstn 32 (skipn 8 data));
           cp_observation_key := pubkey_of_bytes (firstn 32 (skipn 296 data)) |}.
Proof.
  intros H. unfold RaydiumCpAmmInfo_load_checked.
  replace (length data <? OBSERVATION_KEY_OFFSET + 32)%nat with false
    by (symmetry; apply Nat.ltb_ge; unfold OBSERVATION_KEY_OFFSET; lia).
  unfold TOKEN_0_VAULT_OFFSET, TOKEN_1_VAULT_OFFSET, TOKEN_0_MINT_OFFSET, TOKEN_1_MINT_OFFSET,
    AMM_CONFIG_OFFSET, OBSERVATION_KEY_OFFSET.
  rewrite !slice_to_pubkey_within by lia. reflexivity.
Qed.

Lemma MeteoraDAmmV2Info_load_checked_full (data : list Byte.byte) :
  (296 <= length data)%nat ->
  MeteoraDAmmV2Info_load_checked data =
  DecOk {| damm_base_mint := pubkey_of_bytes (firstn 32 (skipn 168 data));
           damm_quote_mint := pubkey_of_bytes (firstn 32 (skipn 200 data));
           damm_base_vault := pubkey_of_bytes (firstn 32 (skipn 232 data));
           damm_quote_vault := pubkey_of_bytes (firstn 32 (skipn 264 data)) |}.
Proof.
  intros H. unfold MeteoraDAmmV2Info_load_checked.
  rewrite !slice_to_pubkey_within by lia.
  reflexivity.
Qed.

Lemma SolfiInfo_load_checked_full (data : list Byte.byte) :
  (2800 <= length data)%nat ->
  SolfiInfo_load_checked data =
  DecOk {| solfi_base_mint := pubkey_of_bytes (firstn 32 (skipn 2664 data));
           solfi_quote_mint := pubkey_of_bytes (firstn 32 (skipn 2696 data));
           solfi_base_vault := pubkey_of_bytes (firstn 32 (skipn 2736 data));
           solfi_quote_vault := pubkey_of_bytes (firstn 32 (skipn 2768 data)) |}.
Proof.
  intros H. unfold SolfiInfo_load_checked.
  rewrite !slice_to_pubkey_within by lia.
  reflexivity.
Qed.



Lemma MeteoraDAmmV2Info_load_checked_panic_iff (data : list Byte.byte) :
  MeteoraDAmmV2Info_load_checked data = DecPanic <-> (length data < 296)%nat.
Proof.
  split.
  - intros H. destruct (Nat.lt_ge_cases (length data) 296) as [Hl | Hl]; [exact Hl |].
    rewrite MeteoraDAmmV2Info_load_checked_full in H by exact Hl. discriminate.
  - intros H. unfold MeteoraDAmmV2Info_load_checked.
    rewrite (slice_to_pubkey_past_end data 264 296) by lia.
    destruct (slice_to_pubkey data 168 200), (slice_to_pubkey data 200 232),
      (slice_to_pubkey data 232 264); reflexivity.
Qed.

Lemma SolfiInfo_load_checked_panic_iff (data : list Byte.byte) :
  SolfiInfo_load_checked data = DecPanic <-> (length data < 2800)%nat.
Proof.
  split.
  - intros H. destruct (Nat.lt_ge_cases (length data) 2800) as [Hl | Hl]; [exact Hl |].
    rewrite SolfiInfo_load_checked_full in H by exact Hl. discriminate.
  - intros H. unfold SolfiInfo_load_checked.
    rewrite (slice_to_pubkey_past_end data 2768 2800) by lia.
    destruct (slice_to_pubkey data 2664 2696), (slice_to_pubkey data 2696 2728),
      (slice_to_pubkey data 2736 2768); reflexivity.
Qed.

(** X1.  Each pool-layout decoder returns its record once the buffer reaches
    its last offset + 32 (Raydium AMM 464 bytes, Raydium CP 328, Meteora
    DAMM v2 296, Solfi 2800), every field being the 32 bytes at its fixed
    offset read as a big-endian key. *)
Theorem pool_decoders_full_length (data : list Byte.byte) :
  ((464 <= length data)%nat ->
   RaydiumAmmInfo_load_checked data =
   DecOk {| amm_coin_mint := pubkey_of_bytes (firstn 32 (skipn 400 data));
            amm_pc_mint := pubkey_of_bytes (firstn 32 (skipn 432 data));
            amm_coin_vault := pubkey_of_bytes (firstn 32 (skipn 336 data));
            amm_pc_vault := pubkey_of_bytes (firstn 32 (skipn 368 data)) |}) /\
  ((328 <= length data)%nat ->
   RaydiumCpAmmInfo_load_checked data =
   DecOk {| cp_token_0_mint := pubkey_of_bytes (firstn 32 (skipn 168 data));
            cp_token_1_mint := pubkey_of_bytes (firstn 32 (skipn 200 data));
            cp_token_0_vault := pubkey_of_bytes (firstn 32 (skipn 72 data));
            cp_token_1_vault := pubkey_of_bytes (firstn 32 (skipn 104 data));
            cp_amm_config := pubkey_of_bytes (firstn 32 (skipn 8 data));
            cp_observation_key := pubkey_of_bytes (firstn 32 (skipn 296 data)) |}) /\
  ((296 <= length data)%nat ->
   MeteoraDAmmV2Info_load_checked data =
   DecOk {| damm_base_mint := pubkey_of_bytes (firstn 32 (skipn 168 data));
            damm_quote_mint := pubkey_of_bytes (firstn 32 (skipn 200 data));
            damm_base_vault := pubkey_of_bytes (firstn 32 (skipn 232 data));
            damm_quote_vault := pubkey_of_bytes (firstn 32 (skipn 264 data)) |}) /\
  ((2800 <= length data)%nat ->
   SolfiInfo_load_checked data =
   DecOk {| solfi_base_mint := pubkey_of_bytes (firstn 32 (skipn 2664 data));
            solfi_quote_mint := pubkey_of_bytes (firstn 32 (skipn 2696 data));
            solfi_base_vault := pubkey_of_bytes (firstn 32 (skipn 2736 data));
            solfi_quote_vault := pubkey_of_bytes (firstn 32 (skipn 2768 data)) |}).
Proof.
  split; [apply RaydiumAmmInfo_load_checked_full |].
  split; [apply RaydiumCpAmmInfo_load_checked_full |].
  split; [apply MeteoraDAmmV2Info_load_checked_full | apply SolfiInfo_load_checked_full].
Qed.

Lemma pool_decoders_full_length_witness :
  (2800 <= length sample_buffer)%nat /\
  exists r, SolfiInfo_load_checked sample_buffer = DecOk r.
Proof.
  assert (H : (2800 <= length sample_buffer)%nat) by (apply Nat.leb_le; vm_compute; reflexivity).
  split; [exact H |]. eexists.
  exact (proj2 (proj2 (proj2 (pool_decoders_full_length sample_buffer))) H).
Defined.

(** X2.  The Solfi and Meteora DAMM v2 decoders panic exactly on the buffers
    shorter than their last offset + 32: Solfi on every buffer under 2800
    bytes, DAMM v2 on every buffer under 296 bytes. *)
Theorem unchecked_decoders_panic_iff (data : list Byte.byte) :
  (SolfiInfo_load_checked data = DecPanic <-> (length data < 2800)%nat) /\
  (MeteoraDAmmV2Info_load_checked data = DecPanic <-> (length data < 296)%nat).
Proof. split; [apply SolfiInfo_load_checked_panic_iff | apply MeteoraDAmmV2Info_load_checked_panic_iff]. Qed.

Lemma unchecked_decoders_panic_iff_witness :
  SolfiInfo_load_checked (firstn 2799 sample_buffer) = DecPanic.
Proof.
  apply (proj2 (proj1 (unchecked_decoders_panic_iff (firstn 2799 sample_buffer)))).
  apply Nat.ltb_lt; vm_compute; reflexivity.
Defined.











Lemma meteora_parse_dlmm_pool_ok dlmm_load_checked powi now address data :
  exists r, Markets.meteora_parse_dlmm_pool dlmm_load_checked powi now address data = ROk r.
Proof. unfold Markets.meteora_parse_dlmm_pool. destruct dlmm_load_checked; eexists; reflexivity. Qed.


(** X5.  [MeteoraOnchainFetcher::fetch_pool_by_address] returns the DLMM
    parser's result on every fetched account (that parser always returns
    [Ok]), so the DAMM v2 parser is never reached: an account the DLMM
    decoder rejects yields [Ok(None)] even when it is a readable DAMM v2
    pool. *)
Theorem meteora_fetch_pool_by_address_dlmm_only dlmm_load_checked powi get_account_data now address :
  Markets.meteora_fetch_pool_by_address dlmm_load_checked powi get_account_data now address =
  match get_account_data address with
  | Some d => Markets.meteora_parse_dlmm_pool dlmm_load_checked powi now address d
  | None => ROk None
  end /\
  (forall d, get_account_data address = Some d -> dlmm_load_checked d = None ->
   Markets.meteora_fetch_pool_by_address dlmm_load_checked powi get_account_data now address = ROk None).
Proof.
  assert (E : Markets.meteora_fetch_pool_by_address dlmm_load_checked powi get_account_data now address =
              match get_account_data address with
              | Some d => Markets.meteora_parse_dlmm_pool dlmm_load_checked powi now address d
              | None => ROk None
              end).
  { unfold Markets.meteora_fetch_pool_by_address. destruct (get_account_data address) as [d |]; [| reflexivity].
    destruct (meteora_parse_dlmm_pool_ok dlmm_load_checked powi now address d) as [r Er].
    rewrite Er. reflexivity. }
  split; [exact E |]. intros d Hd Hn. rewrite E, Hd.
  unfold Markets.meteora_parse_dlmm_pool. rewrite Hn. reflexivity.
Qed.

Lemma meteora_fetch_pool_by_address_dlmm_only_witness :
  meteora_parse_dammv2_pool_sample <> ROk None /\
  Markets.meteora_fetch_pool_by_address (fun _ => None) (fun x _ => x) (fun _ => Some sample_buffer) 0 77
    = ROk None.
Proof.
  split; [vm_compute; discriminate |].
  exact (proj2 (meteora_fetch_pool_by_address_dlmm_only (fun _ => None) (fun x _ => x)
                  (fun _ => Some sample_buffer) 0 77) sample_buffer eq_refl eq_refl).
Defined.


(** ** Token amounts, graph keys and fees of the ingestion driver *)

Lemma byte_val_digit (x : Z) :
  0 <= x < 256 -> byte_val (unwrap_or (Byte.of_N (Z.to_N x)) Byte.x00) = x.
Proof.
  intros H. destruct (Byte.of_N (Z.to_N x)) as [b |] eqn:E; simpl.
  - apply Byte.to_of_N in E. unfold byte_val. rewrite E. apply Z2N.id. lia.
  - apply Byte.of_N_None_iff in E. lia.
Qed.

Lemma le_value_u64_le_bytes (n : Z) : 0 <= n < 2 ^ 64 -> le_value (u64_le_bytes n) = n.
Proof.
  intros Hn. unfold u64_le_bytes. cbn [map le_value].
  rewrite !byte_val_digit by (apply Z.mod_pos_bound; lia).
  change (8 * 0) with 0. change (8 * 1) with 8. change (8 * 2) with 16. change (8 * 3) with 24.
  change (8 * 4) with 32. change (8 * 5) with 40. change (8 * 6) with 48. change (8 * 7) with 56.
  change (2 ^ 0) with 1. rewrite Z.div_1_r.
  assert (E0 : n / 256 = n / 2 ^ 8) by reflexivity.
  assert (E1 : n / 2 ^ 8 / 256 = n / 2 ^ 16) by (rewrite Z.div_div by lia; reflexivity).
  assert (E2 : n / 2 ^ 16 / 256 = n / 2 ^ 24) by (rewrite Z.div_div by lia; reflexivity).
  assert (E3 : n / 2 ^ 24 / 256 = n / 2 ^ 32) by (rewrite Z.div_div by lia; reflexivity).
  assert (E4 : n / 2 ^ 32 / 256 = n / 2 ^ 40) by (rewrite Z.div_div by lia; reflexivity).
  assert (E5 : n / 2 ^ 40 / 256 = n / 2 ^ 48) by (rewrite Z.div_div by lia; reflexivity).
  assert (E6 : n / 2 ^ 48 / 256 = n / 2 ^ 56) by (rewrite Z.div_div by lia; reflexivity).
  assert (E7 : n / 2 ^ 56 < 256).
  { apply Z.div_lt_upper_bound; [lia |]. change (2 ^ 56 * 256) with (2 ^ 64). lia. }
  assert (E7' : 0 <= n / 2 ^ 56) by (apply Z.div_pos; lia).
  rewrite (Z.mod_small (n / 2 ^ 56)) by lia.
  pose proof (Z.div_mod n 256 ltac:(lia)).
  pose proof (Z.div_mod (n / 2 ^ 8) 256 ltac:(lia)).
  pose proof (Z.div_mod (n / 2 ^ 16) 256 ltac:(lia)).
  pose proof (Z.div_mod (n / 2 ^ 24) 256 ltac:(lia)).
  pose proof (Z.div_mod (n / 2 ^ 32) 256 ltac:(lia)).
  pose proof (Z.div_mod (n / 2 ^ 40) 256 ltac:(lia)).
  pose proof (Z.div_mod (n / 2 ^ 48) 256 ltac:(lia)).
  lia.
Qed.

Lemma u64_le_bytes_length (n : Z) : length (u64_le_bytes n) = 8%nat.
Proof. reflexivity. Qed.

(** X7.  [parse_token_amount] inverts the SPL token-account layout: on a
    buffer made of any 64 bytes, the 8 little-endian bytes of a [u64]
    amount and any tail, it returns that amount. *)
Theorem parse_token_amount_round_trip (prefix rest : list Byte.byte) (n : Z) :
  length prefix = 64%nat -> 0 <= n < 2 ^ 64 ->
  parse_token_amount (prefix ++ u64_le_bytes n ++ rest) = Some n.
Proof.
  intros Hp Hn. unfold parse_token_amount.
  rewrite !length_app, u64_le_bytes_length, Hp.
  replace (64 + (8 + length rest) <? 64)%nat with false by (symmetry; apply Nat.ltb_ge; lia).
  unfold slice. rewrite !length_app, u64_le_bytes_length, Hp.
  replace ((64 <=? 72)%nat && (72 <=? 64 + (8 + length rest))%nat) with true
    by (symmetry; apply andb_true_intro; split; apply Nat.leb_le; lia).
  rewrite skipn_app, Hp, (skipn_all2 prefix) by lia.
  replace (64 - 64)%nat with 0%nat by lia. replace (72 - 64)%nat with 8%nat by lia.
  rewrite app_nil_l, skipn_O, firstn_app, u64_le_bytes_length, (firstn_all2 (u64_le_bytes n)) by (rewrite ?u64_le_bytes_length; lia).
  replace (8 - 8)%nat with 0%nat by lia. rewrite firstn_O, app_nil_r.
  rewrite le_value_u64_le_bytes by exact Hn. reflexivity.
Qed.

Lemma parse_token_amount_round_trip_witness :
  parse_token_amount (repeat Byte.x00 64 ++ u64_le_bytes 123456789 ++ []) = Some 123456789.
Proof. apply parse_token_amount_round_trip; [reflexivity | lia]. Defined.



Lemma fold_left_invariant_in {A B} (f : B -> A -> B) (Inv : B -> Prop) (l : list A) :
  (forall b a, In a l -> Inv b -> Inv (f b a)) ->
  forall b, Inv b -> Inv (fold_left f l b).
Proof.
  induction l as [| a l IH]; intros Hf b Hb; simpl; [exact Hb |].
  apply IH; [intros b' a' Hin; apply Hf; right; exact Hin | apply Hf; [left; reflexivity | exact Hb]].
Qed.

(** Every property of graphs that each call of [add_edge] made by a tick
    keeps holds of every ingested graph. *)
Lemma ingested_invariant (Inv : PriceGraph -> Prop) (Q : AddEdge -> Prop) :
  Inv [] ->
  (forall ga cl wd dl hp pw pid bid pd sol calls,
     ingestion_calls ga cl wd dl hp pw pid bid pd sol = Some calls -> Forall Q calls) ->
  (forall g c, Inv g -> Q c -> Inv (let '(f, t, e) := c in add_edge g f t e)) ->
  forall g, ingested g -> Inv g.
Proof.
  intros H0 HQ Hstep g Hg.
  induction Hg as [| g ga cl wd dl hp pw pid bid mpds sol g' Hg IH Htick]; [exact H0 |].
  clear Hg. revert g IH Htick. induction mpds as [| pd rest IHm]; intros g IH Htick; simpl in Htick.
  - injection Htick as <-. exact IH.
  - unfold update_from_mint_pool_data in Htick.
    destruct (ingestion_calls ga cl wd dl hp pw pid bid pd sol) as [calls |] eqn:Hc; [| discriminate].
    apply (IHm (apply_add_edges g calls)); [| exact Htick].
    pose proof (HQ _ _ _ _ _ _ _ _ _ _ _ Hc) as Hf. unfold apply_add_edges.
    apply (fold_left_invariant_in _ Inv calls); [| exact IH].
    intros g0 c Hin Hg0. apply Hstep; [exact Hg0 |].
    rewrite Forall_forall in Hf. exact (Hf c Hin).
Qed.


Lemma sample_ingested :
  ingested [(7, [mk_edge 50 RaydiumV4 5 5200 25 0]); (1, [mk_edge 50 RaydiumV4 (1 / 5) 5200 25 0])].
Proof.
  apply (ingested_tick [] (sample_get_account 5 1) (fun _ => None) (fun _ => None)
           (fun _ => None) (fun _ => None) (fun x _ => x) 0 0 [sample_pool_data] 1).
  - apply ingested_new.
  - vm_compute. reflexivity.
Qed.


Definition family_fee_ok (c : AddEdge) : Prop :=
  inverse_fee_bps (snd c) = fee_bps (snd c) /\ fee_bps (snd c) = dex_fee_bps (dex_type (snd c)).

Lemma ingestion_calls_family_fee get_account clmm_load_checked whirlpool_try_deserialize
  dlmm_load_checked heaven_parse powi pancakeswap_program_id byreal_program_id pd sol_mint calls :
  ingestion_calls get_account clmm_load_checked whirlpool_try_deserialize dlmm_load_checked
    heaven_parse powi pancakeswap_program_id byreal_program_id pd sol_mint = Some calls ->
  Forall family_fee_ok calls.
Proof.
  unfold ingestion_calls. apply for_each_pool_Forall. simpl.
  intros process cs Hin.
  repeat destruct Hin as [<- | Hin]; try contradiction;
    unfold process_raydium_pools, process_raydium_cp_pools, process_pump_pools,
      process_amm_vault_pools, process_dlmm_pools, process_whirlpool_pools,
      process_raydium_clmm_pools, process_meteora_damm_pools,
      process_meteora_damm_v2_pools, process_vertigo_pools, process_heaven_pools,
      process_futarchy_pools, process_humidifi_pools, process_xsol_pools,
      process_pancakeswap_pools, process_byreal_pools, process_clmm_fork_pools;
    apply for_each_pool_Forall; intros pool c _;
    unfold clmm_state_edges, clmm_pair_edges; pool_body_forall;
    unfold family_fee_ok; simpl; split; reflexivity.
Qed.

(** X9.  Every edge of every graph the ingestion driver builds carries
    [inverse_fee_bps = fee_bps], and its fee is the fixed fee of its family:
    Pump 100, Raydium AMM 25, Raydium CP 5, Raydium CLMM 5, DLMM 5, DAMM 10,
    DAMM v2 8, Whirlpool 2, Vertigo 15, Heaven 20, Futarchy 25, HumidiFi 12,
    PancakeSwap 5, Byreal 5. *)
Theorem ingested_family_fees (g : PriceGraph) :
  ingested g -> forall k es e, In (k, es) g -> In e es ->
  inverse_fee_bps e = fee_bps e /\ fee_bps e = dex_fee_bps (dex_type e).
Proof.
  intros Hg.
  enough (H : forall k es, In (k, es) g -> Forall (fun e => inverse_fee_bps e = fee_bps e /\
             fee_bps e = dex_fee_bps (dex_type e)) es).
  { intros k es e Hin He. specialize (H k es Hin). rewrite Forall_forall in H. exact (H e He). }
  revert g Hg.
  apply (ingested_invariant (fun g => forall k es, In (k, es) g -> Forall (fun e =>
           inverse_fee_bps e = fee_bps e /\ fee_bps e = dex_fee_bps (dex_type e)) es)
           family_fee_ok).
  - intros k es [].
  - exact ingestion_calls_family_fee.
  - intros g0 [[f t] e] IH He k es Hin.
    destruct (add_edge_in g0 f t e k es Hin) as [H | [[es0 [H ->]] | ->]].
    + exact (IH _ _ H).
    + apply Forall_app. split; [exact (IH _ _ H) | constructor; [exact He | constructor]].
    + constructor; [exact He | constructor].
Qed.

Lemma ingested_family_fees_witness :
  inverse_fee_bps (mk_edge 50 RaydiumV4 5 5200 25 0) = fee_bps (mk_edge 50 RaydiumV4 5 5200 25 0) /\
  fee_bps (mk_edge 50 RaydiumV4 5 5200 25 0) = dex_fee_bps RaydiumV4.
Proof.
  exact (ingested_family_fees _ sample_ingested 7 _ _ (or_introl eq_refl) (or_introl eq_refl)).
Defined.

Lemma for_each_pool_none {P} (body : P -> option (list AddEdge)) (pools : list P) (p : P) :
  In p pools -> body p = None -> for_each_pool body pools = None.
Proof.
  induction pools as [| p0 rest IH]; simpl; [intros [] |].
  intros [<- | Hin] Hp.
  - rewrite Hp. reflexivity.
  - destruct (body p0); [| reflexivity]. rewrite (IH Hin Hp). reflexivity.
Qed.

Lemma for_each_pool_nil {P} (body : P -> option (list AddEdge)) (pools : list P) :
  (forall p, In p pools -> body p = Some []) -> for_each_pool body pools = Some [].
Proof.
  induction pools as [| p0 rest IH]; simpl; intros H; [reflexivity |].
  rewrite (H p0 (or_introl eq_refl)), IH by (intros; apply H; right; assumption).
  reflexivity.
Qed.

(** X10.  A Whirlpool or Raydium CLMM pool whose account cannot be fetched
    makes [update_from_mint_pool_data] panic ([get_account(..).unwrap()]),
    whatever the rest of the market holds. *)
Theorem update_from_mint_pool_data_clmm_fetch_panics get_account clmm_load_checked
  whirlpool_try_deserialize dlmm_load_checked heaven_parse powi pancakeswap_program_id
  byreal_program_id (g : PriceGraph) (pd : MintPoolData) (sol_mint : Pubkey) (pool : MintedPool) :
  In pool (whirlpool_pools pd) \/ In pool (raydium_clmm_pools pd) ->
  get_account (mp_pool pool) = None ->
  update_from_mint_pool_data get_account clmm_load_checked whirlpool_try_deserialize
    dlmm_load_checked heaven_parse powi pancakeswap_program_id byreal_program_id g pd sol_mint
  = None.
Proof.
  intros Hin Hget. unfold update_from_mint_pool_data, ingestion_calls.
  destruct Hin as [Hin | Hin].
  - rewrite (for_each_pool_none (fun process => process pd sol_mint) _
      (process_whirlpool_pools get_account whirlpool_try_deserialize)); [reflexivity | simpl; tauto |].
    unfold process_whirlpool_pools. apply (for_each_pool_none _ _ pool Hin).
    rewrite Hget. reflexivity.
  - rewrite (for_each_pool_none (fun process => process pd sol_mint) _
      (process_raydium_clmm_pools get_account clmm_load_checked)); [reflexivity | simpl; tauto |].
    unfold process_raydium_clmm_pools. apply (for_each_pool_none _ _ pool Hin).
    rewrite Hget. reflexivity.
Qed.

Lemma update_from_mint_pool_data_clmm_fetch_panics_witness :
  (In sample_unknown_pool (whirlpool_pools (sample_pool_data_with [] [sample_unknown_pool])) \/
   In sample_unknown_pool (raydium_clmm_pools (sample_pool_data_with [] [sample_unknown_pool]))) /\
  sample_get_account 5 1 (mp_pool sample_unknown_pool) = None /\
  update_from_mint_pool_data (sample_get_account 5 1) (fun _ => None) (fun _ => None)
    (fun _ => None) (fun _ => None) (fun x _ => x) 0 0 []
    (sample_pool_data_with [] [sample_unknown_pool]) 1 = None.
Proof.
  assert (H1 : In sample_unknown_pool (whirlpool_pools (sample_pool_data_with [] [sample_unknown_pool])) \/
     In sample_unknown_pool (raydium_clmm_pools (sample_pool_data_with [] [sample_unknown_pool])))
    by (left; left; reflexivity).
  assert (H2 : sample_get_account 5 1 (mp_pool sample_unknown_pool) = None) by reflexivity.
  split; [exact H1 | split; [exact H2 |]].
  exact (update_from_mint_pool_data_clmm_fetch_panics _ _ _ _ _ _ _ _ _ _ _ _ H1 H2).
Defined.

(** X11.  By contrast, a failed pool-account fetch of a DLMM, Heaven,
    PancakeSwap or Byreal pool is skipped: when every such fetch fails, the
    [add_edge] calls of [update_from_mint_pool_data] are those of the market
    with these four pool lists emptied. *)
Theorem ingestion_calls_skip_failed_fetches get_account clmm_load_checked
  whirlpool_try_deserialize dlmm_load_checked heaven_parse powi pancakeswap_program_id
  byreal_program_id (pd : MintPoolData) (sol_mint : Pubkey) :
  (forall p, In p (dlmm_pairs pd) -> get_account (mp_pool p) = None) ->
  (forall p, In p (heaven_pools pd) -> get_account (hv_pool p) = None) ->
  (forall p, In p (pancakeswap_pools pd) -> get_account (mp_pool p) = None) ->
  (forall p, In p (byreal_pools pd) -> get_account (mp_pool p) = None) ->
  ingestion_calls get_account clmm_load_checked whirlpool_try_deserialize dlmm_load_checked
    heaven_parse powi pancakeswap_program_id byreal_program_id pd sol_mint
  = ingestion_calls get_account clmm_load_checked whirlpool_try_deserialize dlmm_load_checked
    heaven_parse powi pancakeswap_program_id byreal_program_id (without_fetched_pools pd) sol_mint.
Proof.
  intros Hd Hh Hp Hb.
  assert (Ed : process_dlmm_pools get_account dlmm_load_checked powi pd sol_mint = Some []).
  { unfold process_dlmm_pools. apply for_each_pool_nil. intros p Hin. rewrite (Hd p Hin). reflexivity. }
  assert (Eh : process_heaven_pools get_account heaven_parse pd sol_mint = Some []).
  { unfold process_heaven_pools. apply for_each_pool_nil. intros p Hin. rewrite (Hh p Hin). reflexivity. }
  assert (Ep : process_pancakeswap_pools get_account clmm_load_checked pancakeswap_program_id
                 pd sol_mint = Some []).
  { unfold process_pancakeswap_pools, process_clmm_fork_pools. apply for_each_pool_nil. intros p Hin. rewrite (Hp p Hin). reflexivity. }
  assert (Eb : process_byreal_pools get_account clmm_load_checked byreal_program_id
                 pd sol_mint = Some []).
  { unfold process_byreal_pools, process_clmm_fork_pools. apply for_each_pool_nil. intros p Hin. rewrite (Hb p Hin). reflexivity. }
  unfold ingestion_calls. cbn [for_each_pool]. rewrite Ed, Eh, Ep, Eb. reflexivity.
Qed.

Lemma ingestion_calls_skip_failed_fetches_witness :
  ingestion_calls (sample_get_account 5 1) (fun _ => None) (fun _ => None)
    (fun _ => None) (fun _ => None) (fun x _ => x) 0 0
    (sample_pool_data_with [sample_unknown_pool] []) 1
  = ingestion_calls (sample_get_account 5 1) (fun _ => None) (fun _ => None)
    (fun _ => None) (fun _ => None) (fun x _ => x) 0 0
    (without_fetched_pools (sample_pool_data_with [sample_unknown_pool] [])) 1.
Proof.
  apply ingestion_calls_skip_failed_fetches.
  - intros p [<- | []]. reflexivity.
  - intros p [].
  - intros p [].
  - intros p [].
Defined.

(** ** Shape and order of the detector's output *)

Lemma find_negative_cycles_forall (P : ArbitrageCycle -> Prop) (g : PriceGraph)
  (start_mint : Pubkey) (min_hops max_hops : nat) (min_profit_bps : Z) :
  (forall preds from_mint end_ c,
     Detect.reconstruct_cycle preds from_mint end_ min_hops max_hops = Some c ->
     min_profit_bps < total_profit_bps c -> P c) ->
  forall c, In c (Detect.find_negative_cycles g start_mint min_hops max_hops min_profit_bps) -> P c.
Proof.
  intros HP c. unfold Detect.find_negative_cycles.
  destruct (Detect.relax_rounds max_hops g [(start_mint, 1%float)] []) as [dist preds].
  intros Hin. apply sort_by_profit_desc_in in Hin. revert c Hin.
  apply (fold_left_invariant _ (fun cs => forall c, In c cs -> P c)); [| intros c []].
  intros cs entry Hcs.
  apply (fold_left_invariant _ (fun cs => forall c, In c cs -> P c)); [| exact Hcs].
  intros cs' edge Hcs' c. unfold Detect.scan_edge.
  destruct (lookup dist (fst entry)); [| apply Hcs'].
  destruct (_ <? _)%float; [| apply Hcs'].
  destruct (Detect.reconstruct_cycle preds (fst entry) (pool_pubkey edge) min_hops max_hops)
    as [cy |] eqn:Hr; [| apply Hcs'].
  destruct (min_profit_bps <? total_profit_bps cy) eqn:Hp; [| apply Hcs'].
  intros Hin. apply in_app_or in Hin. destruct Hin as [H | [<- | []]].
  - apply Hcs'. exact H.
  - apply Z.ltb_lt in Hp. exact (HP _ _ _ _ Hr Hp).
Qed.

(** X12.  Every cycle [find_negative_cycles] returns clears the profit
    threshold ([min_profit_bps < total_profit_bps]), has no estimated
    profit yet ([estimated_profit_lamports = 0]), and each of its legs has
    zero amounts and its pool's address in both mint fields. *)
Theorem find_negative_cycles_cycle_shape (g : PriceGraph) (start_mint : Pubkey)
  (min_hops max_hops : nat) (min_profit_bps : Z) (c : ArbitrageCycle) :
  In c (Detect.find_negative_cycles g start_mint min_hops max_hops min_profit_bps) ->
  min_profit_bps < total_profit_bps c /\ estimated_profit_lamports c = 0 /\
  forall leg, In leg (legs c) ->
    from_mint leg = leg_pool_pubkey leg /\ to_mint leg = leg_pool_pubkey leg /\
    amount_in leg = 0 /\ estimated_amount_out leg = 0.
Proof.
  revert c. apply find_negative_cycles_forall.
  intros preds f e c Hr Hp. unfold Detect.reconstruct_cycle in Hr.
  destruct (Detect.walk _ _ _ _ _ _ _ _) as [path |]; [| discriminate].
  destruct (cycle_of_path_some _ _ _ _ Hr) as [_ ->]. simpl in *.
  split; [exact Hp | split; [reflexivity |]].
  intros leg Hin. apply in_map_iff in Hin. destruct Hin as [pe [<- _]].
  repeat split.
Qed.

Lemma find_negative_cycles_cycle_shape_witness :
  let g : PriceGraph := [(1, [mk_edge 2 RaydiumV4 0.5 1e9 25 0]);
                         (2, [mk_edge 1 RaydiumV4 0.5 1e9 25 0])] in
  let c := {| legs := [Detect.leg_of_edge (1, mk_edge 2 RaydiumV4 0.5 1e9 25 0);
                       Detect.leg_of_edge (2, mk_edge 1 RaydiumV4 0.5 1e9 25 0)];
              total_profit_bps := -7500; estimated_profit_lamports := 0; total_hops := 2 |} in
  In c (Detect.find_negative_cycles g 1 2 5 (-10000)) /\ -10000 < total_profit_bps c.
Proof.
  intros g c.
  assert (Hin : In c (Detect.find_negative_cycles g 1 2 5 (-10000))).
  { vm_compute. left. reflexivity. }
  split; [exact Hin | exact (proj1 (find_negative_cycles_cycle_shape g 1 2 5 (-10000) c Hin))].
Defined.

Definition profit_desc (a b : ArbitrageCycle) : Prop := total_profit_bps b <= total_profit_bps a.

Lemma insert_desc_hdrel (a c : ArbitrageCycle) (sorted : list ArbitrageCycle) :
  HdRel profit_desc a sorted -> profit_desc a c -> HdRel profit_desc a (Detect.insert_desc c sorted).
Proof.
  destruct sorted as [| c' rest]; simpl; intros H Hac.
  - constructor. exact Hac.
  - destruct (total_profit_bps c' <? total_profit_bps c); constructor; [exact Hac |].
    inversion H. assumption.
Qed.

Lemma insert_desc_sorted (c : ArbitrageCycle) (sorted : list ArbitrageCycle) :
  Sorted profit_desc sorted -> Sorted profit_desc (Detect.insert_desc c sorted).
Proof.
  induction sorted as [| c' rest IH]; simpl; intros Hs.
  - constructor; constructor.
  - destruct (total_profit_bps c' <? total_profit_bps c) eqn:E.
    + constructor; [exact Hs |]. constructor. unfold profit_desc. apply Z.ltb_lt in E. lia.
    + apply Sorted_inv in Hs. destruct Hs as [Hr Hh].
      constructor; [exact (IH Hr) |]. apply insert_desc_hdrel; [exact Hh |].
      unfold profit_desc. apply Z.ltb_ge in E. lia.
Qed.

Lemma insert_desc_perm (c : ArbitrageCycle) (sorted : list ArbitrageCycle) :
  Permutation (Detect.insert_desc c sorted) (c :: sorted).
Proof.
  induction sorted as [| c' rest IH]; simpl; [reflexivity |].
  destruct (total_profit_bps c' <? total_profit_bps c); [reflexivity |].
  rewrite IH. apply perm_swap.
Qed.

(** X13.  The final sort of [find_negative_cycles] returns a rearrangement
    of the cycles it is given, in non-increasing [total_profit_bps]. *)
Theorem sort_by_profit_desc_spec (cycles : list ArbitrageCycle) :
  Permutation (Detect.sort_by_profit_desc cycles) cycles /\
  Sorted profit_desc (Detect.sort_by_profit_desc cycles).
Proof.
  unfold Detect.sort_by_profit_desc.
  assert (H : forall acc, Sorted profit_desc acc ->
    Permutation (fold_left (fun s c => Detect.insert_desc c s) cycles acc) (rev cycles ++ acc) /\
    Sorted profit_desc (fold_left (fun s c => Detect.insert_desc c s) cycles acc)).
  { induction cycles as [| c rest IH]; intros acc Hs; simpl; [split; [reflexivity | exact Hs] |].
    destruct (IH (Detect.insert_desc c acc) (insert_desc_sorted c acc Hs)) as [Hp Hs'].
    split; [| exact Hs']. rewrite Hp, insert_desc_perm, <- app_assoc. simpl.
    apply Permutation_app_head. reflexivity. }
  destruct (H [] (Sorted_nil _)) as [Hp Hs]. split; [| exact Hs].
  rewrite Hp, app_nil_r. symmetry. apply Permutation_rev.
Qed.

(** ** The detection pass of the bot and the simulator *)

Lemma u64_mul_2e9_20 : u64_mul 2000000000 20 / 100 = 400000000.
Proof. reflexivity. Qed.

Lemma update_leg_amounts_keeps (g : PriceGraph) (cycle : ArbitrageCycle) (amount : Z) :
  total_profit_bps (Optimize.update_leg_amounts g cycle amount) = total_profit_bps cycle /\
  total_hops (Optimize.update_leg_amounts g cycle amount) = total_hops cycle.
Proof.
  unfold Optimize.update_leg_amounts.
  destruct (Optimize.update_legs g (legs cycle) amount). split; reflexivity.
Qed.

Lemma optimize_amount_some (g : PriceGraph) (cycle : ArbitrageCycle)
  (max_capital_lamports capital_per_cycle_percent min_profit_lamports amount : Z)
  (cycle' : ArbitrageCycle) :
  Optimize.optimize_amount g cycle max_capital_lamports capital_per_cycle_percent
    min_profit_lamports = (Some amount, cycle') ->
  1000000 <= amount <= u64_mul max_capital_lamports capital_per_cycle_percent / 100 /\
  cycle' = Optimize.update_leg_amounts g cycle amount /\
  0 < estimated_profit_lamports cycle' /\ min_profit_lamports < estimated_profit_lamports cycle'.
Proof.
  set (high := u64_mul max_capital_lamports capital_per_cycle_percent / 100).
  assert (HH : 0 <= high < 9223372036854775808).
  { subst high. unfold u64_mul. replace u64_modulus with 18446744073709551616 by reflexivity.
    pose proof (Z.mod_pos_bound (max_capital_lamports * capital_per_cycle_percent)
                  18446744073709551616 ltac:(lia)).
    split; [apply Z.div_pos; lia |]. apply Z.div_lt_upper_bound; lia. }
  unfold Optimize.optimize_amount. fold high.
  destruct (high <? 1000000) eqn:Hlow; [discriminate |].
  apply Z.ltb_ge in Hlow.
  pose proof (search_invariant g cycle min_profit_lamports high HH 20 1000000 high 0 0
                ltac:(lia) (or_introl (conj eq_refl eq_refl))) as Hinv.
  destruct (Optimize.search 20 g cycle min_profit_lamports 1000000 high 0 0) as [best bp].
  destruct ((0 <? best) && (min_profit_lamports <? bp)) eqn:Hok; [| discriminate].
  intros H. injection H as <- <-.
  apply andb_true_iff in Hok. destruct Hok as [H1 _]. apply Z.ltb_lt in H1.
  destruct Hinv as [[-> _] | (Hr & Hs & Hp & Hm)]; [lia |].
  rewrite (update_leg_amounts_profit g cycle best bp Hs).
  split; [exact Hr | split; [reflexivity | split; assumption]].
Qed.

(** X14.  Every cycle the detection pass of [run_bot] optimizes (threshold
    50 bps, 2 to 5 hops, search cap [2_000_000_000 * 20 / 100], minimum
    profit [500_000]) comes with an input amount in [[1_000_000,
    400_000_000]], keeps [total_profit_bps > 50] and its hop count in
    [[2, 5]], has [estimated_profit_lamports > 500_000], and passes
    [simulate_transaction] with that profit as its actual profit. *)
Theorem detection_pass_simulates (g : PriceGraph) (sol_mint : Pubkey)
  (cycle' : ArbitrageCycle) (amount : Z) :
  In (cycle', amount) (Bot.detection_pass g sol_mint) ->
  1000000 <= amount <= 400000000 /\ 50 < total_profit_bps cycle' /\
  (2 <= total_hops cycle' <= 5)%nat /\ 500000 < estimated_profit_lamports cycle' /\
  Simulate.simulate_transaction cycle' =
    {| Simulate.success := true;
       Simulate.actual_profit_lamports := estimated_profit_lamports cycle';
       Simulate.cu_consumed := 400000; Simulate.error := None |}.
Proof.
  unfold Bot.detection_pass. intros Hin. apply in_flat_map in Hin.
  destruct Hin as [cycle [Hc Hopt]].
  assert (Hdet : 50 < total_profit_bps cycle /\ (2 <= total_hops cycle <= 5)%nat).
  { clear Hopt. revert cycle Hc. apply find_negative_cycles_forall.
    intros preds f e c Hr Hp. destruct (reconstruct_cycle_hops _ _ _ _ _ _ Hr) as [_ Hb].
    split; assumption. }
  destruct (Optimize.optimize_amount g cycle 2000000000 20 500000) as [[a |] c'] eqn:Eo;
    cbn [In] in Hopt; [| contradiction].
  destruct Hopt as [H | []]. injection H as <- <-.
  destruct (optimize_amount_some _ _ _ _ _ _ _ Eo) as (Hr & -> & Hp & Hm).
  rewrite u64_mul_2e9_20 in Hr.
  destruct (update_leg_amounts_keeps g cycle a) as [Hk1 Hk2].
  split; [exact Hr |]. rewrite Hk1, Hk2.
  split; [apply Hdet |]. split; [apply Hdet |]. split; [exact Hm |].
  unfold Simulate.simulate_transaction.
  replace (0 <? estimated_profit_lamports (Optimize.update_leg_amounts g cycle a)) with true
    by (symmetry; apply Z.ltb_lt; exact Hp).
  reflexivity.
Qed.

Lemma detection_pass_simulates_witness :
  match Bot.detection_pass sample_bot_graph 1 with
  | (cycle', amount) :: _ =>
      1000000 <= amount <= 400000000 /\ 50 < total_profit_bps cycle' /\
      (2 <= total_hops cycle' <= 5)%nat /\ 500000 < estimated_profit_lamports cycle' /\
      Simulate.simulate_transaction cycle' =
        {| Simulate.success := true;
           Simulate.actual_profit_lamports := estimated_profit_lamports cycle';
           Simulate.cu_consumed := 400000; Simulate.error := None |}
  | [] => False
  end.
Proof.
  destruct (Bot.detection_pass sample_bot_graph 1) as [| [c' a] rest] eqn:E.
  - vm_compute in E. discriminate.
  - apply (detection_pass_simulates sample_bot_graph 1 c' a). rewrite E. left. reflexivity.
Defined.

(** ** Discovery output and the market list of the bot *)

Lemma dedup_strings_nodup (xs : list string) : NoDup (Discovery.dedup_strings xs).
Proof.
  induction xs as [| a rest IH]; simpl; [constructor |].
  destruct (existsb (String.eqb a) (Discovery.dedup_strings rest)) eqn:E; [exact IH |].
  constructor; [| exact IH]. intros Hin.
  assert (existsb (String.eqb a) (Discovery.dedup_strings rest) = true).
  { apply existsb_exists. exists a. split; [exact Hin | apply String.eqb_refl]. }
  congruence.
Qed.

Lemma insert_desc_by_perm {A} (key : A -> float) (x : A) (sorted : list A) :
  Permutation (Discovery.insert_desc_by key x sorted) (x :: sorted).
Proof.
  induction sorted as [| y rest IH]; simpl; [reflexivity |].
  destruct (key y <? key x)%float; [reflexivity |].
  rewrite IH. apply perm_swap.
Qed.

Lemma sort_desc_unwrap_perm {A} (key : A -> float) (xs ys : list A) :
  Discovery.sort_desc_unwrap key xs = Some ys -> Permutation ys xs.
Proof.
  assert (Hfold : forall l acc,
    Permutation (fold_left (fun s x => Discovery.insert_desc_by key x s) l acc) (rev l ++ acc)).
  { induction l as [| x rest IH]; intros acc; simpl; [reflexivity |].
    rewrite IH, insert_desc_by_perm, <- app_assoc. reflexivity. }
  unfold Discovery.sort_desc_unwrap.
  destruct xs as [| x [| x' rest]]; intros H; try (injection H as <-; reflexivity).
  destruct (existsb _ _); [discriminate |]. injection H as <-.
  transitivity (rev (x :: x' :: rest) ++ []); [exact (Hfold (x :: x' :: rest) []) |].
  rewrite app_nil_r. symmetry. apply Permutation_rev.
Qed.

Lemma collect_results_pools pfs gao pts dsp config order tg :
  In tg (Discovery.collect_results pfs gao pts dsp config order) ->
  (2 <= length (Discovery.pools tg))%nat.
Proof.
  unfold Discovery.collect_results. intros Hin. apply in_flat_map in Hin.
  destruct Hin as [tok [_ Hin]].
  destruct (Discovery.process_token pfs gao pts dsp config tok) as [[tg' |] | |];
    try contradiction.
  destruct (2 <=? length (Discovery.pools tg'))%nat eqn:E; [| contradiction].
  destruct Hin as [<- | []]. apply Nat.leb_le. exact E.
Qed.

Lemma collect_results_nodup pfs gao pts dsp config order :
  NoDup order ->
  NoDup (map Discovery.token_address (Discovery.collect_results pfs gao pts dsp config order)).
Proof.
  induction order as [| tok rest IH]; intros Hnd; [constructor |].
  inversion Hnd as [| ? ? Hnin Hrest]; subst.
  change (Discovery.collect_results pfs gao pts dsp config (tok :: rest)) with
    ((match Discovery.process_token pfs gao pts dsp config tok with
      | ROk (Some token_group) =>
          if (2 <=? length (Discovery.pools token_group))%nat then [token_group] else []
      | _ => []
      end) ++ Discovery.collect_results pfs gao pts dsp config rest).
  destruct (Discovery.process_token pfs gao pts dsp config tok) as [[tg |] | |] eqn:Hp;
    try exact (IH Hrest).
  destruct (2 <=? length (Discovery.pools tg))%nat; [| exact (IH Hrest)].
  simpl. constructor; [| exact (IH Hrest)].
  rewrite (proj1 (process_token_admitted _ _ _ _ _ _ _ Hp)).
  intros Hin. apply in_map_iff in Hin. destruct Hin as [tg' [Haddr Hin]].
  destruct (collect_results_in _ _ _ _ _ _ _ Hin) as [tok' [Hin' Hp']].
  rewrite (proj1 (process_token_admitted _ _ _ _ _ _ _ Hp')) in Haddr. subst. contradiction.
Qed.

Lemma convert_to_markets_length (ts : list Discovery.DiscoveredToken) :
  Forall (fun t => (2 <= length (Discovery.pools t))%nat) ts ->
  (2 * length ts <= length (flat_map (fun t => map Discovery.pool_address (Discovery.pools t)) ts))%nat.
Proof.
  induction ts as [| t rest IH]; intros Hf; simpl; [lia |].
  inversion Hf; subst. rewrite length_app, length_map. specialize (IH H2). lia.
Qed.

(** X15.  When the completion order of the discovery tasks is a
    rearrangement of the candidate set, a successful [run_discovery] lists
    each token address at most once, reports [token_count] equal to the
    number of tokens, keeps only tokens with at least two verified pools,
    and so [convert_to_markets] yields at least two pool addresses per
    token. *)
Theorem run_discovery_distinct_tokens pubkey_from_str get_account_owner pubkey_to_string
  dexscreener_pairs config trending top (schedule : list string -> list string) now
  (out : Discovery.DiscoveredPools) :
  (forall l, Permutation (schedule l) l) ->
  Discovery.run_discovery pubkey_from_str get_account_owner pubkey_to_string
    dexscreener_pairs config trending top schedule now = ROk out ->
  NoDup (map Discovery.token_address (Discovery.tokens out)) /\
  Discovery.token_count out = length (Discovery.tokens out) /\
  (forall tg, In tg (Discovery.tokens out) -> (2 <= length (Discovery.pools tg))%nat) /\
  (2 * Discovery.token_count out <= length (Discovery.convert_to_markets out))%nat.
Proof.
  intros Hsched Hrun. unfold Discovery.run_discovery in Hrun.
  destruct trending as [tr | |]; [| discriminate | discriminate].
  destruct top as [tp | |]; [| discriminate | discriminate].
  cbv zeta in Hrun.
  destruct (Discovery.sort_desc_unwrap _ _) as [sorted |] eqn:Hsort; [| discriminate].
  destruct now as [ts |]; [| discriminate].
  injection Hrun as <-. simpl.
  pose proof (sort_desc_unwrap_perm _ _ _ Hsort) as Hperm.
  assert (Hpools : forall tg, In tg sorted -> (2 <= length (Discovery.pools tg))%nat).
  { intros tg Hin. apply (Permutation_in _ Hperm) in Hin.
    exact (collect_results_pools _ _ _ _ _ _ _ Hin). }
  split; [| split; [reflexivity | split; [exact Hpools |]]].
  - apply (Permutation_NoDup (Permutation_map _ (Permutation_sym Hperm))).
    apply collect_results_nodup.
    apply (Permutation_NoDup (Permutation_sym (Hsched _))). apply dedup_strings_nodup.
  - unfold Discovery.convert_to_markets. simpl. apply convert_to_markets_length.
    apply Forall_forall. exact Hpools.
Qed.

Lemma run_discovery_distinct_tokens_witness :
  match sample_run_discovery with
  | ROk out =>
      NoDup (map Discovery.token_address (Discovery.tokens out)) /\
      Discovery.token_count out = length (Discovery.tokens out) /\
      (forall tg, In tg (Discovery.tokens out) -> (2 <= length (Discovery.pools tg))%nat) /\
      (2 * Discovery.token_count out <= length (Discovery.convert_to_markets out))%nat
  | _ => False
  end.
Proof.
  destruct sample_run_discovery as [out | |] eqn:Hrun; [| discriminate | discriminate].
  exact (run_discovery_distinct_tokens sample_pubkey_from_str (fun _ => Some 9)
           (fun _ => Discovery.RAYDIUM_V4_PROGRAM)
           (fun _ => Some [sample_pair "P1"; sample_pair "P2"])
           {| Discovery.min_liquidity_usd := 0; Discovery.min_volume_h24 := 0 |}
           (ROk [{| Discovery.gecko_base_token_id := Some "solana_TOK"%string |}]) (ROk [])
           (fun l => l) (Some 0) out (fun l => Permutation_refl l) Hrun).
Defined.

Lemma background_loop_app (markets : list string)
  (l1 l2 : list (Res Discovery.DiscoveredPools * bool)) :
  Bot.background_loop markets (l1 ++ l2) =
  match Bot.background_loop markets l1 with
  | Some m => Bot.background_loop m l2
  | None => None
  end.
Proof.
  revert markets. induction l1 as [| [run save_ok] rest IH]; intros markets; simpl; [reflexivity |].
  destruct (Bot.background_step markets run save_ok); [apply IH | reflexivity].
Qed.

Lemma background_loop_no_panic (markets : list string)
  (steps : list (Res Discovery.DiscoveredPools * bool)) :
  (forall st, In st steps -> fst st <> RPanic) ->
  exists m, Bot.background_loop markets steps = Some m.
Proof.
  revert markets. induction steps as [| [run save_ok] rest IH]; intros markets H; simpl.
  - exists markets. reflexivity.
  - destruct run as [r | |]; simpl.
    + destruct save_ok; apply IH; intros st Hin; apply H; right; exact Hin.
    + apply IH. intros st Hin. apply H. right. exact Hin.
    + exfalso. apply (H (RPanic, save_ok)); [left; reflexivity | reflexivity].
Qed.

Lemma background_loop_unsaved (markets : list string)
  (steps : list (Res Discovery.DiscoveredPools * bool)) :
  (forall st, In st steps -> fst st <> RPanic /\ forall r, st <> (ROk r, true)) ->
  Bot.background_loop markets steps = Some markets.
Proof.
  induction steps as [| [run save_ok] rest IH]; intros H; simpl; [reflexivity |].
  assert (Hrest : forall st, In st rest -> fst st <> RPanic /\ forall r, st <> (ROk r, true))
    by (intros st Hin; apply H; right; exact Hin).
  destruct (H (run, save_ok) (or_introl eq_refl)) as [Hnp Hns].
  destruct run as [r | |]; simpl in *.
  - destruct save_ok; [exfalso; exact (Hns r eq_refl) | exact (IH Hrest)].
  - exact (IH Hrest).
  - contradiction.
Qed.

(** X16.  The market list of the bot, after any number of iterations of
    [run_background_discovery] none of which panics, is the
    [convert_to_markets] of the last discovery run whose results were also
    saved; the iterations after it, failed runs or failed saves, leave it
    unchanged. *)
Theorem background_loop_last_saved (markets : list string)
  (pre post : list (Res Discovery.DiscoveredPools * bool)) (r : Discovery.DiscoveredPools) :
  (forall st, In st pre -> fst st <> RPanic) ->
  (forall st, In st post -> fst st <> RPanic /\ forall r', st <> (ROk r', true)) ->
  Bot.background_loop markets (pre ++ (ROk r, true) :: post) =
  Some (Discovery.convert_to_markets r).
Proof.
  intros Hpre Hpost. rewrite background_loop_app.
  destruct (background_loop_no_panic markets pre Hpre) as [m Hm]. rewrite Hm. simpl.
  apply background_loop_unsaved. exact Hpost.
Qed.

Lemma background_loop_last_saved_witness :
  Bot.background_loop ["M"%string] [(RErr, true); (ROk sample_discovered, true); (RErr, false)]
  = Some (Discovery.convert_to_markets sample_discovered).
Proof.
  apply (background_loop_last_saved ["M"%string] [(RErr, true)] [(RErr, false)] sample_discovered).
  - intros st [<- | []]. discriminate.
  - intros st [<- | []]. split; [discriminate | intros r' H; discriminate].
Defined.



(** ** No opportunity on graphs whose pools are not mints *)

Definition graph_edge (g : PriceGraph) (e : PoolEdge) : Prop :=
  exists k es, In (k, es) g /\ In e es.

Definition preds_ok (g : PriceGraph) (preds : Detect.Predecessors) : Prop :=
  forall k u e, lookup preds k = Some (u, e) -> graph_edge g e.

Lemma relax_round_preds_ok (g : PriceGraph) (st : Detect.Distances * Detect.Predecessors * bool) :
  preds_ok g (snd (fst st)) -> preds_ok g (snd (fst (Detect.relax_round g st))).
Proof.
  unfold Detect.relax_round. revert st.
  apply (fold_left_invariant_in _ (fun st => preds_ok g (snd (fst st)))).
  intros st0 [k es] Hin Hst0. simpl. revert st0 Hst0.
  apply (fold_left_invariant_in _ (fun st => preds_ok g (snd (fst st)))).
  intros [[d p] b] e He Hp. unfold Detect.relax_edge. simpl in *.
  destruct (_ <? _)%float; simpl; [| exact Hp].
  intros k' u e' Hl. rewrite lookup_insert in Hl.
  destruct (Z.eqb k' (pool_pubkey e)).
  - injection Hl as _ <-. exists k, es. split; assumption.
  - exact (Hp _ _ _ Hl).
Qed.

Lemma relax_rounds_preds_ok (g : PriceGraph) (n : nat) :
  forall d p, preds_ok g p -> preds_ok g (snd (Detect.relax_rounds n g d p)).
Proof.
  induction n as [| n IH]; intros d p Hp; simpl; [exact Hp |].
  pose proof (relax_round_preds_ok g (d, p, false) Hp) as H.
  destruct (Detect.relax_round g (d, p, false)) as [[d' p'] b]. simpl in H.
  destruct b; [apply IH; exact H | exact H].
Qed.

Lemma walk_graph_edges (g : PriceGraph) (preds : Detect.Predecessors) (start : Pubkey)
  (min_hops max_hops : nat) :
  preds_ok g preds ->
  forall fuel current visited path path',
  (forall pe, In pe path -> graph_edge g (snd pe)) ->
  Detect.walk fuel preds start min_hops max_hops current visited path = Some path' ->
  forall pe, In pe path' -> graph_edge g (snd pe).
Proof.
  intros Hp fuel. induction fuel as [| fuel IH]; intros current visited path path' Hpath Hw;
    simpl in Hw.
  - injection Hw as <-. exact Hpath.
  - destruct (lookup preds current) as [[prev edge] |] eqn:Hl; [| injection Hw as <-; exact Hpath].
    assert (Hpath' : forall pe, In pe (path ++ [(prev, edge)]) -> graph_edge g (snd pe)).
    { intros pe Hin. apply in_app_or in Hin. destruct Hin as [H | [<- | []]].
      - exact (Hpath _ H).
      - exact (Hp _ _ _ Hl). }
    destruct (existsb (Z.eqb current) visited); [injection Hw as <-; exact Hpath |].
    destruct (Z.eqb prev start && (min_hops <=? length (path ++ [(prev, edge)]))%nat);
      [injection Hw as <-; exact Hpath' |].
    destruct (max_hops <? length (path ++ [(prev, edge)]))%nat; [discriminate |].
    exact (IH _ _ _ _ Hpath' Hw).
Qed.

Lemma reconstruct_cycle_graph_legs (g : PriceGraph) (preds : Detect.Predecessors)
  (start end_ : Pubkey) (min_hops max_hops : nat) (c : ArbitrageCycle) :
  preds_ok g preds ->
  Detect.reconstruct_cycle preds start end_ min_hops max_hops = Some c ->
  forall leg, In leg (legs c) -> exists e, graph_edge g e /\ from_mint leg = pool_pubkey e.
Proof.
  intros Hp. unfold Detect.reconstruct_cycle.
  destruct (Detect.walk _ _ _ _ _ _ _ _) as [path |] eqn:Hw; [| discriminate].
  intros Hc. destruct (cycle_of_path_some _ _ _ _ Hc) as [_ ->]. simpl.
  intros leg Hin. apply in_map_iff in Hin. destruct Hin as [pe [<- Hin]].
  exists (snd pe). split; [| reflexivity].
  refine (walk_graph_edges g preds start min_hops max_hops Hp _ _ _ _ _ _ Hw pe Hin).
  intros ? [].
Qed.

Lemma find_negative_cycles_graph_legs (g : PriceGraph) (start_mint : Pubkey)
  (min_hops max_hops : nat) (min_profit_bps : Z) (c : ArbitrageCycle) :
  In c (Detect.find_negative_cycles g start_mint min_hops max_hops min_profit_bps) ->
  forall leg, In leg (legs c) -> exists e, graph_edge g e /\ from_mint leg = pool_pubkey e.
Proof.
  unfold Detect.find_negative_cycles.
  assert (Hp0 : preds_ok g []) by (intros k u e H; discriminate).
  pose proof (relax_rounds_preds_ok g max_hops [(start_mint, 1%float)] [] Hp0) as Hp.
  destruct (Detect.relax_rounds max_hops g [(start_mint, 1%float)] []) as [dist preds].
  simpl in Hp. intros Hin. apply sort_by_profit_desc_in in Hin. revert c Hin.
  apply (fold_left_invariant _ (fun cs => forall c, In c cs -> forall leg, In leg (legs c) ->
           exists e, graph_edge g e /\ from_mint leg = pool_pubkey e)); [| intros c []].
  intros cs entry Hcs.
  apply (fold_left_invariant _ (fun cs => forall c, In c cs -> forall leg, In leg (legs c) ->
           exists e, graph_edge g e /\ from_mint leg = pool_pubkey e)); [| exact Hcs].
  intros cs' edge Hcs' c. unfold Detect.scan_edge.
  destruct (lookup dist (fst entry)); [| apply Hcs'].
  destruct (_ <? _)%float; [| apply Hcs'].
  destruct (Detect.reconstruct_cycle preds (fst entry) (pool_pubkey edge) min_hops max_hops)
    as [cy |] eqn:Hr; [| apply Hcs'].
  destruct (min_profit_bps <? total_profit_bps cy); [| apply Hcs'].
  intros Hin. apply in_app_or in Hin. destruct Hin as [H | [<- | []]].
  - apply Hcs'. exact H.
  - exact (reconstruct_cycle_graph_legs g preds _ _ _ _ _ Hp Hr).
Qed.

Lemma search_no_simulation (g : PriceGraph) (cycle : ArbitrageCycle) (minp : Z) :
  (forall a, Optimize.simulate_cycle_with_amount g cycle a = None) ->
  forall iters low high best bp,
  Optimize.search iters g cycle minp low high best bp = (best, bp).
Proof.
  intros Hs iters. induction iters as [| iters IH]; intros low high best bp; simpl;
    [reflexivity |].
  rewrite Hs. apply IH.
Qed.

Lemma optimize_amount_no_simulation (g : PriceGraph) (cycle : ArbitrageCycle)
  (max_capital_lamports capital_per_cycle_percent min_profit_lamports : Z) :
  (forall a, Optimize.simulate_cycle_with_amount g cycle a = None) ->
  fst (Optimize.optimize_amount g cycle max_capital_lamports capital_per_cycle_percent
         min_profit_lamports) = None.
Proof.
  intros Hs. unfold Optimize.optimize_amount.
  destruct (_ <? 1000000); [reflexivity |].
  rewrite search_no_simulation by exact Hs. reflexivity.
Qed.

(** X18.  On a graph where no pool address is a source mint of the graph
    (pool accounts are not token mints), the detection pass of [run_bot]
    optimizes no cycle: the legs of every detected cycle carry pool
    addresses in [from_mint], [find_edge_in_graph] finds no edge under
    them, and every simulation fails. *)
Theorem detection_pass_empty_when_pools_are_not_mints (g : PriceGraph) (sol_mint : Pubkey) :
  (forall k es e, In (k, es) g -> In e es -> edges_of g (pool_pubkey e) = None) ->
  Bot.detection_pass g sol_mint = [].
Proof.
  intros Hg. unfold Bot.detection_pass.
  assert (H : forall cycle, In cycle (Detect.find_negative_cycles g sol_mint 2 5 50) ->
                forall a, Optimize.simulate_cycle_with_amount g cycle a = None).
  { intros cycle Hin a.
    pose proof (find_negative_cycles_graph_legs g sol_mint 2 5 50 cycle Hin) as Hlegs.
    assert (Hh : (2 <= length (legs cycle))%nat).
    { clear Hlegs. revert cycle Hin. apply find_negative_cycles_forall.
      intros preds f e c Hr _. destruct (reconstruct_cycle_hops _ _ _ _ _ _ Hr) as [Hl Hb].
      lia. }
    unfold Optimize.simulate_cycle_with_amount.
    destruct (legs cycle) as [| leg rest]; [simpl in Hh; lia |].
    destruct (Hlegs leg (or_introl eq_refl)) as [e [[k [es [Hk He]]] Hf]].
    simpl. unfold Optimize.find_edge_in_graph. rewrite Hf, (Hg k es e Hk He). reflexivity. }
  induction (Detect.find_negative_cycles g sol_mint 2 5 50) as [| c cs IH]; [reflexivity |].
  simpl. pose proof (optimize_amount_no_simulation g c 2000000000 20 500000
                       (H c (or_introl eq_refl))) as Hn.
  destruct (Optimize.optimize_amount g c 2000000000 20 500000) as [[a |] c']; simpl in Hn;
    [discriminate |].
  apply IH. intros cycle Hin. apply H. right. exact Hin.
Qed.

Lemma detection_pass_empty_when_pools_are_not_mints_witness :
  Bot.detection_pass [(1, [mk_edge 11 RaydiumV4 0.5 1e9 25 0]);
                      (2, [mk_edge 12 RaydiumV4 3 1e9 25 0])] 1 = [].
Proof.
  apply detection_pass_empty_when_pools_are_not_mints.
  intros k es e Hin He. simpl in Hin.
  destruct Hin as [H | [H | []]]; injection H as <- <-; destruct He as [<- | []]; reflexivity.
Defined.
